(** * Spine Assets Optimizer: a shallow embedding of the analysis core

    The development follows the TypeScript sources file by file:
    - [AtlasPacker]   : utils/atlasPacker.ts (MaxRects packer)
    - [Optimizer]     : utils/optimizer.ts (planner and archive writer)
    - [SpineParser]   : utils/spineParser.ts (image lookup, scale
                        timelines, aggregation of the global statistics)
    - [AtlasParser]   : utils/atlasParser.ts (atlas manifest parser)

    Conventions.  JavaScript numbers that hold pixel counts are integers in
    the program and are modelled by [Z]; numbers that hold scales, times and
    percentages are modelled by exact rationals [Q] (the rounding of IEEE
    doubles and the values NaN and Infinity are outside the model).  Strings
    are sequences of code units below 256, with the white space and the case
    mapping that ECMAScript gives that range.  A JavaScript [Map] is the
    list of its entries in insertion order.  Loops whose termination is not
    structural carry a fuel argument and return [None] when it runs out;
    each comes with a lemma that the fuel its caller supplies is enough. *)

From Stdlib Require Import ZArith List Bool Lia String Ascii QArith Qround Sorted.
Import ListNotations.

Open Scope Z_scope.

(* ------------------------------------------------------------------ *)
(** * Shared types (types.ts, in src/unnamed/part_000) *)

Module Types.

(** A [Blob] or [File] of the browser: a binary payload, represented by
    its bytes. *)
Definition Blob : Type := list Byte.byte.

(** The interface [OptimizationTask] of types.ts (src/unnamed/part_000). *)
Record OptimizationTask : Type := mkTask {
  fileName : string;
  relativePath : string;
  originalWidth : Z;
  originalHeight : Z;
  targetWidth : Z;
  targetHeight : Z;
  blob : Blob;
  maxScaleUsed : Q;
  isResize : bool;
  overridePercentage : option Q
}.

(** The interface [PackedRect] of types.ts (src/unnamed/part_000); its
    fields [x], [y], [w], [h] and [task] carry the prefix [p] here. *)
Record PackedRect : Type := mkPackedRect {
  px : Z;
  py : Z;
  pw : Z;
  ph : Z;
  ptask : OptimizationTask
}.

(** The interface [AtlasPage] of types.ts (src/unnamed/part_000); its
    fields [id], [width] and [height] carry the prefix [page_] here. *)
Record AtlasPage : Type := mkAtlasPage {
  page_id : Z;
  page_width : Z;
  page_height : Z;
  items : list PackedRect;
  efficiency : Q
}.

(** The interface [GlobalAssetStat] of types.ts (src/unnamed/part_000).
    [physicalWidth], [physicalHeight], [skinName] and
    [overridePercentage] may be [undefined]. *)
Module Stat.
Record t : Type := mk {
  path : string;
  lookupKey : string;
  originalWidth : Z;
  originalHeight : Z;
  physicalWidth : option Z;
  physicalHeight : option Z;
  maxRenderWidth : Z;
  maxRenderHeight : Z;
  maxScaleX : Q;
  maxScaleY : Q;
  sourceAnimation : string;
  sourceSkeleton : string;
  frameIndex : Z;
  isOverridden : bool;
  skinName : option string;
  overridePercentage : option Q
}.
End Stat.
Definition GlobalAssetStat : Type := Stat.t.

(** Of the interface [FoundImageResult] of types.ts
    (src/unnamed/part_000) the fields that [updateGlobalStats] reads. *)
Module Found.
Record t : Type := mk {
  path : string;
  lookupKey : string;
  originalWidth : Z;
  originalHeight : Z;
  physicalWidth : option Z;
  physicalHeight : option Z;
  maxRenderWidth : Z;
  maxRenderHeight : Z;
  maxScaleX : Q;
  maxScaleY : Q;
  maxFrameIndex : Z;
  isOverridden : bool;
  skinName : option string;
  overridePercentage : option Q;
  isLocalScaleOverridden : bool
}.
End Found.
Definition FoundImageResult : Type := Found.t.

(** Of the interface [AnalysisResult] of types.ts (src/unnamed/part_000)
    the fields that the aggregation of [analyzeSpineData] reads. *)
Module Result.
Record t : Type := mk {
  animationName : string;
  foundImages : list FoundImageResult;
  isSetupPose : bool
}.
End Result.
Definition AnalysisResult : Type := Result.t.

(** The value type of the [loadedImages] map of the planner. *)
Module Image.
Record t : Type := mk {
  width : Z;
  height : Z;
  sourceWidth : option Z;
  sourceHeight : option Z;
  file : Blob;
  originalPath : string
}.
End Image.

End Types.

(* ------------------------------------------------------------------ *)
(** * JavaScript strings and maps *)

(** Strings are sequences of code units below 256; the operations follow
    ECMAScript on that range. *)
Module JsString.

(** White space removed by [String.prototype.trim]: TAB, LF, VT, FF, CR,
    SPACE and NO-BREAK SPACE. *)
Definition isWhiteSpace (c : ascii) : bool :=
  let n := nat_of_ascii c in
  (Nat.leb 9 n && Nat.leb n 13) || Nat.eqb n 32 || Nat.eqb n 160.

Fixpoint trimStart (s : string) : string :=
  match s with
  | EmptyString => EmptyString
  | String c s' => if isWhiteSpace c then trimStart s' else s
  end.

(** [trimEnd s] keeps a character when a character that is not white
    space follows it or it is not white space itself. *)
Fixpoint trimEnd (s : string) : string :=
  match s with
  | EmptyString => EmptyString
  | String c s' =>
      match trimEnd s' with
      | EmptyString => if isWhiteSpace c then EmptyString
                       else String c EmptyString
      | t => String c t
      end
  end.

Definition trim (s : string) : string := trimEnd (trimStart s).

(** [toLowerCase] of one code unit: A-Z, and the capital letters of the
    Latin-1 supplement (U+00C0 to U+00DE without the multiplication
    sign). *)
Definition lowerChar (c : ascii) : ascii :=
  let n := nat_of_ascii c in
  if (Nat.leb 65 n && Nat.leb n 90) ||
     (Nat.leb 192 n && Nat.leb n 222 && negb (Nat.eqb n 215))
  then ascii_of_nat (n + 32) else c.

Fixpoint mapChars (f : ascii -> ascii) (s : string) : string :=
  match s with
  | EmptyString => EmptyString
  | String c s' => String (f c) (mapChars f s')
  end.

Definition toLowerCase (s : string) : string := mapChars lowerChar s.

(** [s.replace(/\\/g, '/')] *)
Definition backslashesToSlashes (s : string) : string :=
  mapChars (fun c => if Ascii.eqb c "\"%char then "/"%char else c) s.

(** [s.indexOf(c) !== -1] *)
Fixpoint containsChar (c : ascii) (s : string) : bool :=
  match s with
  | EmptyString => false
  | String a s' => Ascii.eqb a c || containsChar c s'
  end.

(** [s.endsWith(suffix)] *)
Definition endsWith (s suffix : string) : bool :=
  Nat.leb (String.length suffix) (String.length s) &&
  String.eqb
    (substring (String.length s - String.length suffix)
               (String.length suffix) s)
    suffix.

(** [s.indexOf(c)], [None] for -1. *)
Fixpoint indexOfChar (c : ascii) (s : string) : option nat :=
  match s with
  | EmptyString => None
  | String a s' =>
      if Ascii.eqb a c then Some O
      else option_map S (indexOfChar c s')
  end.

(** [s.lastIndexOf(c)] as a number, -1 when [c] does not occur; [i] is
    the index of the head of [s]. *)
Fixpoint lastIndexOfFrom (c : ascii) (s : string) (i : Z) (found : Z) : Z :=
  match s with
  | EmptyString => found
  | String a s' =>
      lastIndexOfFrom c s' (i + 1) (if Ascii.eqb a c then i else found)
  end.

Definition lastIndexOf (c : ascii) (s : string) : Z :=
  lastIndexOfFrom c s 0 (-1).

End JsString.

(** A JavaScript [Map] with string keys: the entries in insertion order. *)
Module JsMap.

Definition t (V : Type) : Type := list (string * V).

Fixpoint get {V : Type} (m : t V) (k : string) : option V :=
  match m with
  | [] => None
  | (k', v) :: m' => if String.eqb k' k then Some v else get m' k
  end.

Definition has {V : Type} (m : t V) (k : string) : bool :=
  match get m k with
  | Some _ => true
  | None => false
  end.

(** [m.set(k, v)]: an existing key keeps its position. *)
Fixpoint set {V : Type} (m : t V) (k : string) (v : V) : t V :=
  match m with
  | [] => [(k, v)]
  | (k', v') :: m' =>
      if String.eqb k' k then (k, v) :: m'
      else (k', v') :: set m' k v
  end.

Definition keys {V : Type} (m : t V) : list string := map fst m.

Definition values {V : Type} (m : t V) : list V := map snd m.

End JsMap.

(* ------------------------------------------------------------------ *)
(** * Fuel *)

(** A computation that may run out of fuel. *)
Definition fueled (A : Type) : Type := option A.

Definition fbind {A B : Type} (m : fueled A) (k : A -> fueled B) : fueled B :=
  match m with
  | Some a => k a
  | None => None
  end.

Notation "x <- m ;; k" := (fbind m (fun x => k))
  (at level 61, m at next level, right associativity).

(* ------------------------------------------------------------------ *)
(** * src/utils/atlasPacker.ts *)

Module AtlasPacker.
Import Types.

Record Rect : Type := mkRect {
  x : Z;
  y : Z;
  width : Z;
  height : Z
}.

(** The fields of class [MaxRectsPacker]. *)
Record MaxRectsPacker : Type := mkPacker {
  packer_width : Z;
  packer_height : Z;
  padding : Z;
  freeRects : list Rect;
  packedRects : list PackedRect
}.

(** [constructor(width, height, padding)] *)
Definition newPacker (w h pad : Z) : MaxRectsPacker :=
  {| packer_width := w; packer_height := h; padding := pad;
     freeRects := [ {| x := 0; y := 0; width := w; height := h |} ];
     packedRects := [] |}.

(** The running best score of [findBestNode]: [None] stands for the
    initial [Number.MAX_VALUE], which every finite score is below. *)
Definition score_lt (s : Z) (best : option Z) : bool :=
  match best with
  | None => true
  | Some b => s <? b
  end.

(** Body of the [for (const free of this.freeRects)] loop. *)
Definition findBestNode_step (w h : Z) (acc : option Z * Rect) (free : Rect)
  : option Z * Rect :=
  if (width free >=? w) && (height free >=? h) then
    let leftoverHoriz := Z.abs (width free - w) in
    let leftoverVert := Z.abs (height free - h) in
    let shortSideFit := Z.min leftoverHoriz leftoverVert in
    if score_lt shortSideFit (fst acc) then
      (Some shortSideFit,
       {| x := x free; y := y free; width := w; height := h |})
    else acc
  else acc.

Definition findBestNode (free : list Rect) (w h : Z) : option Z * Rect :=
  fold_left (findBestNode_step w h) free
            (None, {| x := 0; y := 0; width := 0; height := 0 |}).

Definition isContained (a b : Rect) : bool :=
  (x a >=? x b) && (y a >=? y b) &&
  (x a + width a <=? x b + width b) &&
  (y a + height a <=? y b + height b).

(** [splitFreeNode]: [None] when the method returns [false]; otherwise
    [Some pushed], the rectangles it pushed on [freeRects], in order. *)
Definition splitFreeNode (freeNode usedNode : Rect) : option (list Rect) :=
  if (x usedNode >=? x freeNode + width freeNode) ||
     (x usedNode + width usedNode <=? x freeNode) ||
     (y usedNode >=? y freeNode + height freeNode) ||
     (y usedNode + height usedNode <=? y freeNode)
  then None
  else
    let vertical :=
      if (x usedNode <? x freeNode + width freeNode) &&
         (x usedNode + width usedNode >? x freeNode)
      then
        (if (y usedNode >? y freeNode) &&
            (y usedNode <? y freeNode + height freeNode)
         then [ {| x := x freeNode; y := y freeNode;
                   width := width freeNode;
                   height := y usedNode - y freeNode |} ]
         else []) ++
        (if y usedNode + height usedNode <? y freeNode + height freeNode
         then [ {| x := x freeNode; y := y usedNode + height usedNode;
                   width := width freeNode;
                   height := y freeNode + height freeNode
                             - (y usedNode + height usedNode) |} ]
         else [])
      else [] in
    let horizontal :=
      if (y usedNode <? y freeNode + height freeNode) &&
         (y usedNode + height usedNode >? y freeNode)
      then
        (if (x usedNode >? x freeNode) &&
            (x usedNode <? x freeNode + width freeNode)
         then [ {| x := x freeNode; y := y freeNode;
                   width := x usedNode - x freeNode;
                   height := height freeNode |} ]
         else []) ++
        (if x usedNode + width usedNode <? x freeNode + width freeNode
         then [ {| x := x usedNode + width usedNode; y := y freeNode;
                   width := x freeNode + width freeNode
                            - (x usedNode + width usedNode);
                   height := height freeNode |} ]
         else [])
      else [] in
    Some (vertical ++ horizontal).

(** The [for] loop of [placeRect].  The array is [visited ++ pending] and
    the index [i] is [length visited]: a node that is split is spliced out
    and what it pushed goes to the end of the array, where the same loop
    reaches it later. *)
Fixpoint placeLoop (fuel : nat) (visited pending : list Rect) (used : Rect)
  : fueled (list Rect) :=
  match fuel with
  | O => None
  | S fuel' =>
      match pending with
      | [] => Some visited
      | free :: rest =>
          match splitFreeNode free used with
          | Some pushed => placeLoop fuel' visited (rest ++ pushed) used
          | None => placeLoop fuel' (visited ++ [free]) rest used
          end
      end
  end.

(** Inner [for (j ...)] loop of [pruneFreeList] for a fixed [rect1]:
    [middle] is what lies between index [i] and index [j], [rest] starts at
    index [j]; [outer] resumes the outer loop on the part of the array
    from index [i] on. *)
Fixpoint pruneInner (outer : list Rect -> fueled (list Rect))
         (rect1 : Rect) (middle rest : list Rect) : fueled (list Rect) :=
  match rest with
  | [] => survivors <- outer middle ;; Some (rect1 :: survivors)
  | rect2 :: tl =>
      if isContained rect1 rect2 then outer (middle ++ rect2 :: tl)
      else if isContained rect2 rect1 then pruneInner outer rect1 middle tl
      else pruneInner outer rect1 (middle ++ [rect2]) tl
  end.

(** Outer [for (i ...)] loop of [pruneFreeList], on the array from index
    [i] on; the result is what the array holds from that index when the
    loop ends. *)
Fixpoint pruneLoop (fuel : nat) (l : list Rect) : fueled (list Rect) :=
  match fuel with
  | O => None
  | S fuel' =>
      match l with
      | [] => Some []
      | rect1 :: others => pruneInner (pruneLoop fuel') rect1 [] others
      end
  end.

Definition pruneFreeList (l : list Rect) : fueled (list Rect) :=
  pruneLoop (S (List.length l)) l.

Definition placeRect (free : list Rect) (rect : Rect) : fueled (list Rect) :=
  split <- placeLoop (S (5 * List.length free)) [] free rect ;;
  pruneFreeList split.

(** [insert(task)]: the rectangle returned ([None] for [null]) and the
    packer afterwards. *)
Definition insert (p : MaxRectsPacker) (task : OptimizationTask)
  : fueled (option PackedRect * MaxRectsPacker) :=
  let requiredW := targetWidth task + padding p in
  let requiredH := targetHeight task + padding p in
  let bestNode := findBestNode (freeRects p) requiredW requiredH in
  match fst bestNode with
  | None => Some (None, p)
  | Some _ =>
      let newRect := {| px := x (snd bestNode); py := y (snd bestNode);
                        pw := targetWidth task; ph := targetHeight task;
                        ptask := task |} in
      free' <- placeRect (freeRects p) (snd bestNode) ;;
      Some (Some newRect,
            {| packer_width := packer_width p;
               packer_height := packer_height p;
               padding := padding p;
               freeRects := free';
               packedRects := packedRects p |})
  end.

(** [[...tasks].sort((a, b) => b.targetHeight - a.targetHeight)]: the
    stable sort by decreasing target height.  [insertByHeight t l] puts
    [t], which precedes every element of [l] in the input, after the
    elements that are strictly taller and before the others. *)
Fixpoint insertByHeight (t : OptimizationTask) (l : list OptimizationTask)
  : list OptimizationTask :=
  match l with
  | [] => [t]
  | u :: l' =>
      if targetHeight t <? targetHeight u then u :: insertByHeight t l'
      else t :: u :: l'
  end.

Fixpoint sortByHeight (l : list OptimizationTask) : list OptimizationTask :=
  match l with
  | [] => []
  | t :: l' => insertByHeight t (sortByHeight l')
  end.

(** The [for (const task of remaining)] loop of [packAtlases]. *)
Fixpoint fillPage (maxSize : Z) (p : MaxRectsPacker)
         (remaining : list OptimizationTask)
         (pageItems : list PackedRect) (didntFit : list OptimizationTask)
  : fueled (list PackedRect * list OptimizationTask) :=
  match remaining with
  | [] => Some (pageItems, didntFit)
  | task :: rest =>
      if (targetWidth task >? maxSize) || (targetHeight task >? maxSize)
      then fillPage maxSize p rest pageItems didntFit
      else
        r <- insert p task ;;
        match fst r with
        | Some rect =>
            fillPage maxSize (snd r) rest (pageItems ++ [rect]) didntFit
        | None =>
            fillPage maxSize (snd r) rest pageItems (didntFit ++ [task])
        end
  end.

Definition usedArea (pageItems : list PackedRect) : Z :=
  fold_left (fun acc p => acc + pw p * ph p) pageItems 0.

(** [(usedArea / totalArea) * 100] *)
Definition pageEfficiency (pageItems : list PackedRect) (maxSize : Z) : Q :=
  (inject_Z (usedArea pageItems) / inject_Z (maxSize * maxSize)
   * inject_Z 100)%Q.

(** The [while (remaining.length > 0)] loop of [packAtlases]. *)
Fixpoint packLoop (fuel : nat) (maxSize pad : Z)
         (remaining : list OptimizationTask) (currentPageIndex : Z)
  : fueled (list AtlasPage) :=
  match fuel with
  | O => None
  | S fuel' =>
      match remaining with
      | [] => Some []
      | _ :: _ =>
          r <- fillPage maxSize (newPacker maxSize maxSize pad)
                           remaining [] [] ;;
          let pageItems := fst r in
          let didntFit := snd r in
          let page := {| page_id := currentPageIndex;
                         page_width := maxSize;
                         page_height := maxSize;
                         items := pageItems;
                         efficiency := pageEfficiency pageItems maxSize |} in
          if (Nat.eqb (List.length pageItems) 0) &&
             (Nat.eqb (List.length didntFit) (List.length remaining))
          then Some [page]
          else
            pages <- packLoop fuel' maxSize pad didntFit
                                 (currentPageIndex + 1) ;;
            Some (page :: pages)
      end
  end.

Definition packAtlases (tasks : list OptimizationTask) (maxSize pad : Z)
  : fueled (list AtlasPage) :=
  let sortedTasks := sortByHeight tasks in
  packLoop (S (List.length sortedTasks)) maxSize pad sortedTasks 0.

(** ** Geometry of the packing *)

(** Two rectangles are kept apart by a vertical or a horizontal line: the
    one ends where or before the other begins. *)
Definition apart (a b : Rect) : Prop :=
  x a + width a <= x b \/ x b + width b <= x a \/
  y a + height a <= y b \/ y b + height b <= y a.

(** [a] lies within [b]. *)
Definition inside (a b : Rect) : Prop :=
  x b <= x a /\ x a + width a <= x b + width b /\
  y b <= y a /\ y a + height a <= y b + height b.

(** The area a packed rectangle occupies once it is inflated by the
    padding on its right and bottom edges. *)
Definition inflated (pad : Z) (r : PackedRect) : Rect :=
  {| x := px r; y := py r; width := pw r + pad; height := ph r + pad |}.

(** The inflated rectangles of [a] and [b] have disjoint interiors. *)
Definition paddedApart (pad : Z) (a b : PackedRect) : Prop :=
  apart (inflated pad a) (inflated pad b).

(** The cost of a free node for the loop of [placeRect]: a node that is
    split brings at most four more turns. *)
Definition placeCost (used : Rect) (pending : list Rect) : nat :=
  fold_right (fun free acc =>
                match splitFreeNode free used with
                | Some _ => 5 + acc
                | None => 1 + acc
                end)%nat O pending.

Definition oversized (maxSize : Z) (task : OptimizationTask) : Prop :=
  targetWidth task > maxSize \/ targetHeight task > maxSize.

(** The invariant of a page being filled: every free node is apart from
    every rectangle placed so far, inflated by the padding. *)
Definition freeNodesClear (pad : Z) (placed : list PackedRect)
           (free : list Rect) : Prop :=
  forall r f, In r placed -> In f free -> apart (inflated pad r) f.

(** The pixel in column [i] and row [j] belongs to the rectangle. *)
Definition covers (r : Rect) (i j : Z) : Prop :=
  x r <= i < x r + width r /\ y r <= j < y r + height r.

(** What the packer guarantees of the items of a page. *)
Definition pageSound (maxSize pad : Z) (pageItems : list PackedRect) : Prop :=
  ForallOrdPairs (paddedApart pad) pageItems /\
  Forall (fun r => ~ oversized maxSize (ptask r)) pageItems.

End AtlasPacker.

(* ------------------------------------------------------------------ *)
(** * The optimizer module: planner and archive writer *)

Module Optimizer.
Import Types.

(** [a ?? b] *)
Definition nullish {A : Type} (a : option A) (b : A) : A :=
  match a with
  | Some v => v
  | None => b
  end.

(** [Math.max(a, b)] on rationals. *)
Definition Qmax (a b : Q) : Q := if Qle_bool a b then b else a.

(** [Math.ceil(n * bufferMultiplier)] for an integer [n], as the ceiling
    of the exact product.  The product of the code is a double, and its
    rounding can cross an integer: for 100 and a buffer of 10 it is
    110.00000000000001 and the ceiling 111.  What the theorems on the
    planner use of this value also holds of the double: it is [n] when
    the multiplier is 1, it is at least [n] when [n] is not negative and
    the multiplier at least 1, and it is the exact ceiling for the
    multipliers 1.25, 1.5, 1.75 and 2 with [n] below 2^50 in absolute
    value, whose products are exact. *)
Definition ceilScaled (n : Z) (bufferMultiplier : Q) : Z :=
  Qceiling (inject_Z n * bufferMultiplier).

(** [`${basePath}.png`] of [calculateOptimizationTargets]. *)
Definition outputFileName (sourcePath : string) : string :=
  let lastSlashIndex :=
    Z.max (JsString.lastIndexOf "/"%char sourcePath)
          (JsString.lastIndexOf "\"%char sourcePath) in
  let lastDotIndex := JsString.lastIndexOf "."%char sourcePath in
  let basePath :=
    if lastDotIndex >? lastSlashIndex
    then substring 0 (Z.to_nat lastDotIndex) sourcePath
    else sourcePath in
  (basePath ++ ".png")%string.

(** Body of [loadedImages.forEach] once [stat] is found. *)
Definition planTask (stat : GlobalAssetStat) (original : Image.t)
           (bufferPercentage : Q) : OptimizationTask :=
  let physicalW := nullish (Image.sourceWidth original) (Image.width original) in
  let physicalH := nullish (Image.sourceHeight original) (Image.height original) in
  let bufferMultiplier := (1 + bufferPercentage / 100)%Q in
  let calculatedW :=
    if Stat.isOverridden stat then Stat.maxRenderWidth stat
    else ceilScaled (Stat.maxRenderWidth stat) bufferMultiplier in
  let calculatedH :=
    if Stat.isOverridden stat then Stat.maxRenderHeight stat
    else ceilScaled (Stat.maxRenderHeight stat) bufferMultiplier in
  let targetW := Z.min calculatedW physicalW in
  let targetH := Z.min calculatedH physicalH in
  let targetW := Z.max 1 targetW in
  let targetH := Z.max 1 targetH in
  let isResize := negb (targetW =? physicalW) || negb (targetH =? physicalH) in
  {| fileName := outputFileName (Image.originalPath original);
     relativePath := Image.originalPath original;
     originalWidth := physicalW;
     originalHeight := physicalH;
     targetWidth := targetW;
     targetHeight := targetH;
     blob := Image.file original;
     maxScaleUsed := Qmax (Stat.maxScaleX stat) (Stat.maxScaleY stat);
     isResize := isResize;
     overridePercentage := Stat.overridePercentage stat |}.

(** [stats.forEach(s => statsMap.set(s.lookupKey, s))] *)
Definition buildStatsMap (stats : list GlobalAssetStat)
  : JsMap.t GlobalAssetStat :=
  fold_left (fun m s => JsMap.set m (Stat.lookupKey s) s) stats [].

(** The task list before the final sort, in the order of [loadedImages]. *)
Fixpoint collectTasks (statsMap : JsMap.t GlobalAssetStat)
         (loadedImages : JsMap.t Image.t) (bufferPercentage : Q)
  : list OptimizationTask :=
  match loadedImages with
  | [] => []
  | (key, original) :: rest =>
      match JsMap.get statsMap key with
      | None => collectTasks statsMap rest bufferPercentage
      | Some stat =>
          planTask stat original bufferPercentage
          :: collectTasks statsMap rest bufferPercentage
      end
  end.

Section Sorting.
(** [a.fileName.localeCompare(b.fileName, undefined, {numeric: true,
    sensitivity: 'base'})]: the collation of the host, taken as given. *)
Variable localeCompare : string -> string -> Z.

(** The comparator handed to [tasks.sort]. *)
Definition compareTasks (a b : OptimizationTask) : Z :=
  if negb (Bool.eqb (isResize a) (isResize b))
  then (if isResize a then -1 else 1)
  else localeCompare (fileName a) (fileName b).

(** [tasks.sort(compareTasks)] as the stable insertion sort. *)
Fixpoint insertTask (t : OptimizationTask) (l : list OptimizationTask)
  : list OptimizationTask :=
  match l with
  | [] => [t]
  | u :: l' =>
      if compareTasks t u >? 0 then u :: insertTask t l'
      else t :: u :: l'
  end.

Fixpoint sortTasks (l : list OptimizationTask) : list OptimizationTask :=
  match l with
  | [] => []
  | t :: l' => insertTask t (sortTasks l')
  end.

Definition calculateOptimizationTargets (stats : list GlobalAssetStat)
           (loadedImages : JsMap.t Image.t) (bufferPercentage : Q)
  : list OptimizationTask :=
  sortTasks (collectTasks (buildStatsMap stats) loadedImages
                          bufferPercentage).
End Sorting.

(** The target of one axis as the specification words it: the buffered
    maximum, clamped down to the physical size and up to one pixel. *)
Definition specTarget (maxRender physical : Z) (bufferPct : Q) : Z :=
  Z.max 1 (Z.min (Qceiling (inject_Z maxRender * (1 + bufferPct / 100))%Q)
                 physical).

(** ** generateOptimizedZip *)

(** Modelled from the spec: the archive library (JSZip) is not part of
    src/.  Of the root folder [images_optimized/] of the archive the task
    files, each under its name, as [rootFolder.file] stores them; the
    directory entries that the library keeps beside them are not
    represented. *)
Definition Folder : Type := JsMap.t Blob.

(** Modelled from the spec: [zip.folder(name)] gives the one root folder
    of the archive, empty at first. *)
Definition zipFolder (name : string) : option Folder := Some [].

Record ZipRun : Type := mkZipRun {
  folder : Folder;                  (* entries of images_optimized/ *)
  written : list (string * Blob);   (* the calls of rootFolder.file *)
  completed : Z;
  progress : list (Z * Z)           (* the calls of onProgress *)
}.

Section Zip.
(** [await resizeImage(blob, w, h, isSourcePremultiplied)] for the task
    at a given position of the batch: [None] is the [null] it returns
    when the pipeline throws (the exception is caught inside) or the
    export yields no blob. *)
Variable resizeImage : nat -> Blob -> Z -> Z -> bool -> option Blob.

(** The blob that the loop body hands to [rootFolder.file] for a task. *)
Definition zipContent (isSourcePremultiplied : bool) (index : nat)
           (task : OptimizationTask) : Blob :=
  if isResize task then
    match resizeImage index (blob task) (targetWidth task)
                      (targetHeight task) isSourcePremultiplied with
    | Some resizedBlob => resizedBlob
    | None => blob task
    end
  else blob task.

(** Body of the [for (const task of tasks)] loop, after the test of
    [rootFolder]. *)
Definition zipStep (total : Z) (isSourcePremultiplied : bool)
           (index : nat) (task : OptimizationTask) (st : ZipRun) : ZipRun :=
  let zipEntryName := fileName task in
  let content := zipContent isSourcePremultiplied index task in
  {| folder := JsMap.set (folder st) zipEntryName content;
     written := written st ++ [(zipEntryName, content)];
     completed := completed st + 1;
     progress := progress st ++ [(completed st + 1, total)] |}.

Fixpoint zipLoop (total : Z) (isSourcePremultiplied : bool)
         (index : nat) (tasks : list OptimizationTask) (st : ZipRun)
  : ZipRun :=
  match tasks with
  | [] => st
  | task :: rest =>
      zipLoop total isSourcePremultiplied (S index) rest
              (zipStep total isSourcePremultiplied index task st)
  end.

Definition generateOptimizedZip (tasks : list OptimizationTask)
           (isSourcePremultiplied : bool) : ZipRun :=
  match zipFolder "images_optimized" with
  | None => {| folder := []; written := []; completed := 0; progress := [] |}
  | Some rootFolder =>
      zipLoop (Z.of_nat (List.length tasks)) isSourcePremultiplied O tasks
              {| folder := rootFolder; written := []; completed := 0;
                 progress := [] |}
  end.
End Zip.

End Optimizer.

(* ------------------------------------------------------------------ *)
(** * src/utils/spineParser.ts *)

Module SpineParser.
Import Types.

(** ** findImage *)

Definition extensions : list string :=
  [".png"; ".jpg"; ".jpeg"; ".webp"]%string.

(** [path.trim().replace(/\\/g, '/').toLowerCase()] *)
Definition normalizePath (path : string) : string :=
  JsString.toLowerCase (JsString.backslashesToSlashes (JsString.trim path)).

(** The [for (const ext of extensions)] loop of the second step. *)
Fixpoint findWithExtension {V : Type} (availableFiles : JsMap.t V)
         (normalizedPath : string) (exts : list string)
  : option (string * V) :=
  match exts with
  | [] => None
  | ext :: exts' =>
      let testKey := (normalizedPath ++ ext)%string in
      match JsMap.get availableFiles testKey with
      | Some data => Some (testKey, data)
      | None => findWithExtension availableFiles normalizedPath exts'
      end
  end.

Definition searchSuffixes (normalizedPath : string) (hasExtension : bool)
  : list string :=
  ("/" ++ normalizedPath)%string ::
  (if hasExtension then []
   else map (fun ext => ("/" ++ normalizedPath ++ ext)%string) extensions).

(** [if (fileKey.length < bestMatchLen) { bestMatchKey = fileKey; ... }]:
    [best] is [bestMatchKey], [None] for [null] (then [bestMatchLen] is
    [Number.MAX_VALUE]). *)
Definition preferShorter (fileKey : string) (best : option string)
  : option string :=
  match best with
  | None => Some fileKey
  | Some b =>
      if Nat.ltb (String.length fileKey) (String.length b)
      then Some fileKey else best
  end.

(** The inner loop over the suffixes for one [fileKey]. *)
Fixpoint scanSuffixes (fileKey : string) (suffixes : list string)
         (best : option string) : option string :=
  match suffixes with
  | [] => best
  | suffix :: suffixes' =>
      scanSuffixes fileKey suffixes'
        (if JsString.endsWith fileKey suffix
         then preferShorter fileKey best else best)
  end.

(** The outer loop over [availableFiles.keys()]. *)
Definition bestSuffixMatch (fileKeys suffixes : list string) : option string :=
  fold_left (fun best fileKey => scanSuffixes fileKey suffixes best)
            fileKeys None.

(** [findImage]: the result object is the pair of its [key] and of the
    data of the index entry; [None] is [undefined]. *)
Definition findImage {V : Type} (availableFiles : JsMap.t V) (path : string)
  : option (string * V) :=
  let normalizedPath := normalizePath path in
  match JsMap.get availableFiles normalizedPath with
  | Some data => Some (normalizedPath, data)
  | None =>
      let hasExtension := JsString.containsChar "."%char normalizedPath in
      match (if hasExtension then None
             else findWithExtension availableFiles normalizedPath extensions)
      with
      | Some r => Some r
      | None =>
          match bestSuffixMatch (JsMap.keys availableFiles)
                                (searchSuffixes normalizedPath hasExtension)
          with
          | Some bestMatchKey =>
              if String.eqb bestMatchKey "" then None
              else
                match JsMap.get availableFiles bestMatchKey with
                | Some data => Some (bestMatchKey, data)
                | None => None
                end
          | None => None
          end
      end
  end.

(** The lookup as the specification words it: the extensions are tried in
    the second and third step whatever the requested path looks like. *)
Definition findImage_spec {V : Type} (availableFiles : JsMap.t V)
           (path : string) : option (string * V) :=
  let normalizedPath := normalizePath path in
  match JsMap.get availableFiles normalizedPath with
  | Some data => Some (normalizedPath, data)
  | None =>
      match findWithExtension availableFiles normalizedPath extensions with
      | Some r => Some r
      | None =>
          match bestSuffixMatch (JsMap.keys availableFiles)
                                (searchSuffixes normalizedPath false)
          with
          | Some bestMatchKey =>
              match JsMap.get availableFiles bestMatchKey with
              | Some data => Some (bestMatchKey, data)
              | None => None
              end
          | None => None
          end
      end
  end.

(** A key of the index ends with one of the suffixes searched for. *)
Definition matchesSuffix (suffixes : list string) (fileKey : string) : bool :=
  existsb (JsString.endsWith fileKey) suffixes.

(** ** getAnimationScaleFactor *)

Inductive Curve : Type :=
| Stepped                 (* curve: "stepped" *)
| OtherCurve.             (* any other value of [curve] *)

(** One key of a scale timeline; absent fields are [None]. *)
Record ScaleKey : Type := mkKey {
  time : option Q;
  kx : option Q;
  ky : option Q;
  curve : option Curve
}.

(** An element of the timeline array; [None] is [null]. *)
Definition TimelineEntry : Type := option ScaleKey.

Definition identity : Q * Q := (1, 1)%Q.

Definition getTime (k : TimelineEntry) : Q :=
  match k with
  | Some key => match time key with Some t => t | None => 0%Q end
  | None => 0%Q
  end.

Definition getX (k : TimelineEntry) : Q :=
  match k with
  | Some key => match kx key with Some v => v | None => 1%Q end
  | None => 1%Q
  end.

Definition getY (k : TimelineEntry) : Q :=
  match k with
  | Some key => match ky key with Some v => v | None => 1%Q end
  | None => 1%Q
  end.

(** [a < b] on numbers. *)
Definition Qlt_bool (a b : Q) : bool := negb (Qle_bool b a).

(** [while (idx < timeline.length - 1 && getTime(timeline[idx+1]) <= time)
    idx++]: [following] is the timeline from index [idx + 1] on. *)
Fixpoint advance (following : list TimelineEntry) (sampleTime : Q)
         (idx : nat) : nat :=
  match following with
  | [] => idx
  | k :: following' =>
      if Qle_bool (getTime k) sampleTime
      then advance following' sampleTime (S idx)
      else idx
  end.

Definition isStepped (k : ScaleKey) : bool :=
  match curve k with
  | Some Stepped => true
  | _ => false
  end.

Definition getAnimationScaleFactor (timeline : list TimelineEntry)
           (sampleTime : Q) : Q * Q :=
  match timeline with
  | [] => identity
  | first :: following =>
      if Qlt_bool sampleTime (getTime first) then identity
      else
        let lastIndex := (List.length timeline - 1)%nat in
        let last := nth lastIndex timeline None in
        if Qle_bool (getTime last) sampleTime then
          match last with
          | None => identity
          | Some _ => (getX last, getY last)
          end
        else
          let idx := advance following sampleTime O in
          match nth_error timeline idx with
          | Some (Some prevKey) =>
              let prev := Some prevKey in
              let prevX := getX prev in
              let prevY := getY prev in
              match nth_error timeline (S idx) with
              | Some (Some nextKey) =>
                  if isStepped prevKey then (prevX, prevY)
                  else
                    let next := Some nextKey in
                    let prevTime := getTime prev in
                    let nextTime := getTime next in
                    let nextX := getX next in
                    let nextY := getY next in
                    let duration := (nextTime - prevTime)%Q in
                    let percent :=
                      if Qlt_bool 0 duration
                      then ((sampleTime - prevTime) / duration)%Q
                      else 0%Q in
                    ((prevX + (nextX - prevX) * percent)%Q,
                     (prevY + (nextY - prevY) * percent)%Q)
              | _ => (prevX, prevY)
              end
          | _ => identity
          end
  end.

(** The keys of a timeline come in the order of their times. *)
Definition chronological (timeline : list TimelineEntry) : Prop :=
  StronglySorted (fun a b => (getTime a <= getTime b)%Q) timeline.

(** ** Aggregation of the global statistics *)

Definition setupPoseName : string := "Setup Pose (Default)".

(** The object literal stored by [updateGlobalStats]. *)
Definition statOf (skeletonName : string) (img : FoundImageResult)
           (animName : string) : GlobalAssetStat :=
  {| Stat.path := Found.path img;
     Stat.lookupKey := Found.lookupKey img;
     Stat.originalWidth := Found.originalWidth img;
     Stat.originalHeight := Found.originalHeight img;
     Stat.physicalWidth := Found.physicalWidth img;
     Stat.physicalHeight := Found.physicalHeight img;
     Stat.maxRenderWidth := Found.maxRenderWidth img;
     Stat.maxRenderHeight := Found.maxRenderHeight img;
     Stat.maxScaleX := Found.maxScaleX img;
     Stat.maxScaleY := Found.maxScaleY img;
     Stat.sourceAnimation := animName;
     Stat.sourceSkeleton := skeletonName;
     Stat.frameIndex := Found.maxFrameIndex img;
     Stat.isOverridden := Found.isOverridden img;
     Stat.skinName := Found.skinName img;
     Stat.overridePercentage := Found.overridePercentage img |}.

(** [current.skinName = v] *)
Definition withSkinName (current : GlobalAssetStat) (v : option string)
  : GlobalAssetStat :=
  {| Stat.path := Stat.path current;
     Stat.lookupKey := Stat.lookupKey current;
     Stat.originalWidth := Stat.originalWidth current;
     Stat.originalHeight := Stat.originalHeight current;
     Stat.physicalWidth := Stat.physicalWidth current;
     Stat.physicalHeight := Stat.physicalHeight current;
     Stat.maxRenderWidth := Stat.maxRenderWidth current;
     Stat.maxRenderHeight := Stat.maxRenderHeight current;
     Stat.maxScaleX := Stat.maxScaleX current;
     Stat.maxScaleY := Stat.maxScaleY current;
     Stat.sourceAnimation := Stat.sourceAnimation current;
     Stat.sourceSkeleton := Stat.sourceSkeleton current;
     Stat.frameIndex := Stat.frameIndex current;
     Stat.isOverridden := Stat.isOverridden current;
     Stat.skinName := v;
     Stat.overridePercentage := Stat.overridePercentage current |}.

(** [s && s !== 'default'] for a skin name that may be [undefined]. *)
Definition isNamedSkin (s : option string) : bool :=
  match s with
  | None => false
  | Some n => negb (String.eqb n "") && negb (String.eqb n "default")
  end.

Definition updateGlobalStats (skeletonName : string)
           (globalStatsMap : JsMap.t GlobalAssetStat)
           (img : FoundImageResult) (animName : string)
  : JsMap.t GlobalAssetStat :=
  if Found.isLocalScaleOverridden img then globalStatsMap
  else
    let area := Found.maxRenderWidth img * Found.maxRenderHeight img in
    match JsMap.get globalStatsMap (Found.lookupKey img) with
    | None =>
        JsMap.set globalStatsMap (Found.lookupKey img)
                  (statOf skeletonName img animName)
    | Some current =>
        if String.eqb animName setupPoseName &&
           negb (String.eqb (Stat.sourceAnimation current) setupPoseName)
        then globalStatsMap
        else
          let currentArea :=
            Stat.maxRenderWidth current * Stat.maxRenderHeight current in
          if area >? currentArea then
            JsMap.set globalStatsMap (Found.lookupKey img)
                      (statOf skeletonName img animName)
          else if area =? currentArea then
            if isNamedSkin (Found.skinName img) &&
               negb (isNamedSkin (Stat.skinName current))
            then JsMap.set globalStatsMap (Found.lookupKey img)
                           (withSkinName current (Found.skinName img))
            else globalStatsMap
          else globalStatsMap
    end.

(** [anim.foundImages.forEach(img => updateGlobalStats(img,
    anim.animationName))] *)
Definition processResult (skeletonName : string)
           (m : JsMap.t GlobalAssetStat) (anim : AnalysisResult)
  : JsMap.t GlobalAssetStat :=
  fold_left (fun acc img =>
               updateGlobalStats skeletonName acc img
                                 (Result.animationName anim))
            (Result.foundImages anim) m.

(** PASS 1 of [analyzeSpineData]: the results that are not the setup
    pose. *)
Definition pass1 (skeletonName : string) (results : list AnalysisResult)
  : JsMap.t GlobalAssetStat :=
  fold_left (processResult skeletonName)
            (filter (fun r => negb (Result.isSetupPose r)) results) [].

(** PASS 2: the setup pose. *)
Definition pass2 (skeletonName : string) (results : list AnalysisResult)
           (m : JsMap.t GlobalAssetStat) : JsMap.t GlobalAssetStat :=
  fold_left (processResult skeletonName)
            (filter (fun r => Result.isSetupPose r) results) m.

(** Every statistic of the map stems from an animation: none carries the
    name of the setup pose as its source. *)
Definition animationSourced (m : JsMap.t GlobalAssetStat) : Prop :=
  forall key stat,
    JsMap.get m key = Some stat -> Stat.sourceAnimation stat <> setupPoseName.

(** The results are named as [analyzeSpineData] means them to be: the
    setup pose bears the reserved name and no animation does. *)
Definition reservedNameRespected (results : list AnalysisResult) : Prop :=
  forall r, In r results ->
            (Result.isSetupPose r = true ->
             Result.animationName r = setupPoseName) /\
            (Result.isSetupPose r = false ->
             Result.animationName r <> setupPoseName).

(** The [globalStatsMap] at the end of [analyzeSpineData]. *)
Definition aggregateGlobalStats (skeletonName : string)
           (results : list AnalysisResult) : JsMap.t GlobalAssetStat :=
  pass2 skeletonName results (pass1 skeletonName results).

End SpineParser.

(* ------------------------------------------------------------------ *)
(** * src/utils/atlasParser.ts *)

Module AtlasParser.

(** A field that holds a number, [NaN] (what [parseInt] gives without
    digits) or [undefined] (a missing element of a destructured array). *)
Inductive jsnum : Type :=
| JNum (z : Z)
| JNaN
| JUndefined.

(** The interface [AtlasRegion] of types.ts (src/unnamed/part_000). *)
Record AtlasRegion : Type := mkRegion {
  pageName : string;
  name : string;
  rotated : bool;
  x : jsnum;
  y : jsnum;
  width : jsnum;
  height : jsnum;
  originalWidth : jsnum;
  originalHeight : jsnum;
  offsetX : jsnum;
  offsetY : jsnum;
  index : jsnum
}.

Definition AtlasAssetMap : Type := JsMap.t AtlasRegion.

(** ** Strings *)

Definition LF : ascii := ascii_of_nat 10.
Definition CR : ascii := ascii_of_nat 13.

Definition snoc (s : string) (c : ascii) : string :=
  (s ++ String c EmptyString)%string.

(** [content.split(/\r?\n/)]; [cur] is the line read so far. *)
Fixpoint splitLines (content : string) (cur : string) : list string :=
  match content with
  | EmptyString => [cur]
  | String c rest =>
      if Ascii.eqb c LF then cur :: splitLines rest EmptyString
      else if Ascii.eqb c CR then
        match rest with
        | String c2 rest2 =>
            if Ascii.eqb c2 LF then cur :: splitLines rest2 EmptyString
            else splitLines rest (snoc cur c)
        | EmptyString => splitLines rest (snoc cur c)
        end
      else splitLines rest (snoc cur c)
  end.

(** [val.split(',')] *)
Fixpoint splitCommas (val : string) (cur : string) : list string :=
  match val with
  | EmptyString => [cur]
  | String c rest =>
      if Ascii.eqb c ","%char then cur :: splitCommas rest EmptyString
      else splitCommas rest (snoc cur c)
  end.

Fixpoint reverse (s : string) (acc : string) : string :=
  match s with
  | EmptyString => acc
  | String c rest => reverse rest (String c acc)
  end.

(** The digit of [c] in the given radix. *)
Definition digitOf (radix : Z) (c : ascii) : option Z :=
  let n := Z.of_nat (nat_of_ascii c) in
  let d :=
    if (48 <=? n) && (n <=? 57) then n - 48
    else if (97 <=? n) && (n <=? 122) then n - 87
    else if (65 <=? n) && (n <=? 90) then n - 55
    else radix in
  if d <? radix then Some d else None.

(** The value of the longest prefix of digits, [None] without any. *)
Fixpoint digitsValue (radix : Z) (s : string) (acc : Z) (seen : bool)
  : option Z :=
  match s with
  | EmptyString => if seen then Some acc else None
  | String c rest =>
      match digitOf radix c with
      | Some d => digitsValue radix rest (acc * radix + d) true
      | None => if seen then Some acc else None
      end
  end.

(** [parseInt(s)] without a radix argument. *)
Definition parseInt (s : string) : jsnum :=
  let s1 := JsString.trimStart s in
  let signed :=
    match s1 with
    | String c rest =>
        if Ascii.eqb c "-"%char then (true, rest)
        else if Ascii.eqb c "+"%char then (false, rest)
        else (false, s1)
    | EmptyString => (false, s1)
    end in
  let based :=
    match snd signed with
    | String c0 (String c1 rest) =>
        if Ascii.eqb c0 "0"%char &&
           (Ascii.eqb c1 "x"%char || Ascii.eqb c1 "X"%char)
        then (16, rest) else (10, snd signed)
    | _ => (10, snd signed)
    end in
  match digitsValue (fst based) (snd based) 0 false with
  | Some v => JNum (if fst signed then - v else v)
  | None => JNaN
  end.

(** [const [a, b] = val.split(',').map(n => parseInt(n.trim()))] *)
Definition parsePair (val : string) : jsnum * jsnum :=
  let parts := map (fun n => parseInt (JsString.trim n))
                   (splitCommas val EmptyString) in
  (nth 0 parts JUndefined, nth 1 parts JUndefined).

(** ** cleanseAtlasPageName *)

Definition imageExtensions : list string :=
  [".png"; ".jpg"; ".jpeg"; ".webp"]%string.

(** [name.match(/(\.(png|jpg|jpeg|webp))$/i)]: the extension matched, in
    lower case. *)
Definition matchExtension (s : string) : option string :=
  find (fun e => JsString.endsWith (JsString.toLowerCase s) e)
       imageExtensions.

(** The [while (true)] loop that strips every trailing extension, run on
    the reversed name: a trailing extension of the name is a leading
    reversed extension here, and each turn of the loop drops one. *)
Fixpoint stripExtensionsRev (r : string) : string :=
  match r with
  | String c1 (String c2 (String c3 (String c4 rest))) =>
      let low := JsString.lowerChar in
      let four :=
        String (low c4) (String (low c3) (String (low c2)
          (String (low c1) EmptyString))) in
      if String.eqb four ".png" || String.eqb four ".jpg"
      then stripExtensionsRev rest
      else
        match rest with
        | String c5 rest' =>
            let five := String (low c5) four in
            if String.eqb five ".jpeg" || String.eqb five ".webp"
            then stripExtensionsRev rest'
            else r
        | EmptyString => r
        end
  | _ => r
  end.

Definition cleanseAtlasPageName (fileName : string) : string :=
  let name := JsString.backslashesToSlashes (JsString.trim fileName) in
  let ext :=
    match matchExtension name with
    | Some e => e
    | None => ".png"%string
    end in
  let base :=
    reverse (stripExtensionsRev (reverse name EmptyString)) EmptyString in
  (base ++ ext)%string.

(** ** parseAtlas *)

Definition propertyKeys : list string :=
  ["rotate"; "xy"; "size"; "orig"; "offset"; "index";
   "format"; "filter"; "repeat"; "bounds"; "split"; "pad"]%string.

Definition isPropertyKey (key : string) : bool :=
  existsb (String.eqb key) propertyKeys.

(** The local variables of [parseAtlas]. *)
Record ParserState : Type := mkState {
  regions : AtlasAssetMap;
  currentPage : option string;
  currentRegion : option AtlasRegion;
  currentRegionName : option string
}.

Definition initialState : ParserState :=
  {| regions := []; currentPage := None; currentRegion := None;
     currentRegionName := None |}.

(** The region that [if (currentRegion && currentRegionName)] lets
    through, with its key. *)
Definition pendingRegion (st : ParserState) : option (string * AtlasRegion) :=
  match currentRegion st, currentRegionName st with
  | Some region, Some regionName =>
      if String.eqb regionName "" then None else Some (regionName, region)
  | _, _ => None
  end.

(** [if (currentRegion && currentRegionName) map.set(currentRegionName,
    currentRegion)] *)
Definition flush (st : ParserState) : AtlasAssetMap :=
  match pendingRegion st with
  | Some (regionName, region) => JsMap.set (regions st) regionName region
  | None => regions st
  end.

(** The assignments of the property branch. *)
Definition applyProperty (region : AtlasRegion) (key val : string)
  : AtlasRegion :=
  let upd (rot : bool) (vx vy vw vh vow voh vox voy vi : jsnum) :=
    {| pageName := pageName region; name := name region; rotated := rot;
       x := vx; y := vy; width := vw; height := vh;
       originalWidth := vow; originalHeight := voh;
       offsetX := vox; offsetY := voy; index := vi |} in
  let r := region in
  if String.eqb key "rotate" then
    upd (String.eqb val "true") (x r) (y r) (width r) (height r)
        (originalWidth r) (originalHeight r) (offsetX r) (offsetY r) (index r)
  else if String.eqb key "xy" then
    let p := parsePair val in
    upd (rotated r) (fst p) (snd p) (width r) (height r)
        (originalWidth r) (originalHeight r) (offsetX r) (offsetY r) (index r)
  else if String.eqb key "size" then
    let p := parsePair val in
    upd (rotated r) (x r) (y r) (fst p) (snd p)
        (originalWidth r) (originalHeight r) (offsetX r) (offsetY r) (index r)
  else if String.eqb key "orig" then
    let p := parsePair val in
    upd (rotated r) (x r) (y r) (width r) (height r)
        (fst p) (snd p) (offsetX r) (offsetY r) (index r)
  else if String.eqb key "offset" then
    let p := parsePair val in
    upd (rotated r) (x r) (y r) (width r) (height r)
        (originalWidth r) (originalHeight r) (fst p) (snd p) (index r)
  else if String.eqb key "index" then
    upd (rotated r) (x r) (y r) (width r) (height r)
        (originalWidth r) (originalHeight r) (offsetX r) (offsetY r)
        (parseInt val)
  else region.

(** The region object created at a region-name line. *)
Definition newRegion (page line : string) : AtlasRegion :=
  {| pageName := page; name := line; rotated := false;
     x := JNum 0; y := JNum 0; width := JNum 0; height := JNum 0;
     originalWidth := JNum 0; originalHeight := JNum 0;
     offsetX := JNum 0; offsetY := JNum 0; index := JNum (-1) |}.

(** The branch that the loop body takes on a line. *)
Inductive LineKind : Type :=
| BlankLine
| PageLine (line : string)
| PropertyLine (key val : string)
| RegionLine (page line : string).

Definition classify (st : ParserState) (rawLine : string) : LineKind :=
  let line := JsString.trim rawLine in
  if Nat.eqb (String.length line) 0 then BlankLine
  else
    match currentPage st with
    | None => PageLine line
    | Some page =>
        match JsString.indexOfChar ":"%char line with
        | Some colonIndex =>
            let key := JsString.trim (substring 0 colonIndex line) in
            let val :=
              JsString.trim
                (substring (S colonIndex)
                           (String.length line - S colonIndex) line) in
            if isPropertyKey key then PropertyLine key val
            else RegionLine page line
        | None => RegionLine page line
        end
    end.

(** One turn of the [for] loop over the lines. *)
Definition step (st : ParserState) (rawLine : string) : ParserState :=
  match classify st rawLine with
  | BlankLine =>
      {| regions := flush st;
         currentPage := None;
         currentRegion :=
           match pendingRegion st with
           | Some _ => None
           | None => currentRegion st
           end;
         currentRegionName :=
           match pendingRegion st with
           | Some _ => None
           | None => currentRegionName st
           end |}
  | PageLine line =>
      {| regions := regions st;
         currentPage := Some (cleanseAtlasPageName line);
         currentRegion := currentRegion st;
         currentRegionName := currentRegionName st |}
  | PropertyLine key val =>
      {| regions := regions st;
         currentPage := currentPage st;
         currentRegion :=
           match currentRegion st with
           | Some region => Some (applyProperty region key val)
           | None => None
           end;
         currentRegionName := currentRegionName st |}
  | RegionLine page line =>
      {| regions := flush st;
         currentPage := currentPage st;
         currentRegion := Some (newRegion page line);
         currentRegionName := Some line |}
  end.

Definition parseAtlas (content : string) : AtlasAssetMap :=
  flush (fold_left step (splitLines content EmptyString) initialState).

(** ** The region declarations of a manifest *)

(** What one turn of the loop hands to [map.set]: the region declared
    before a blank line or before the next region name. *)
Definition declaredAt (st : ParserState) (rawLine : string)
  : list (string * AtlasRegion) :=
  match classify st rawLine with
  | BlankLine | RegionLine _ _ =>
      match pendingRegion st with
      | Some d => [d]
      | None => []
      end
  | PageLine _ | PropertyLine _ _ => []
  end.

(** The declarations met from state [st] on, in the order of the
    manifest; the last one is complete at the end of the file. *)
Fixpoint declarationsFrom (st : ParserState) (lines : list string)
  : list (string * AtlasRegion) :=
  match lines with
  | [] =>
      match pendingRegion st with
      | Some d => [d]
      | None => []
      end
  | rawLine :: lines' =>
      declaredAt st rawLine ++ declarationsFrom (step st rawLine) lines'
  end.

(** Every region declaration of the manifest with the name it is stored
    under, one per region-name line. *)
Definition regionDeclarations (content : string)
  : list (string * AtlasRegion) :=
  declarationsFrom initialState (splitLines content EmptyString).

(** [map.set] of a declaration. *)
Definition store (m : AtlasAssetMap) (d : string * AtlasRegion)
  : AtlasAssetMap :=
  JsMap.set m (fst d) (snd d).

(** The records that a map holds under a name. *)
Definition recordsNamed (m : AtlasAssetMap) (n : string)
  : list (string * AtlasRegion) :=
  filter (fun kv => String.eqb (fst kv) n) m.

(** The region under construction bears the name it will be stored
    under. *)
Definition nameInStep (st : ParserState) : Prop :=
  forall d, pendingRegion st = Some d -> name (snd d) = fst d.

End AtlasParser.

(* ------------------------------------------------------------------ *)
(** * Sample inputs *)

Module Samples.
Import Types.

(** A task of the given name and target size. *)
Definition task (n : string) (w h : Z) : OptimizationTask :=
  {| fileName := n; relativePath := n;
     originalWidth := w; originalHeight := h;
     targetWidth := w; targetHeight := h;
     blob := []; maxScaleUsed := 1%Q; isResize := false;
     overridePercentage := None |}.

Definition taskA : OptimizationTask := task "A.png" 1024 1024.
Definition taskB : OptimizationTask := task "B.png" 1024 1024.
Definition taskWide : OptimizationTask := task "wide.png" 2200 100.
Definition taskTall : OptimizationTask := task "tall.png" 64 5000.

(** A statistic for the image [key] with the given maximum render size. *)
Definition stat (key : string) (w h : Z) (overridden : bool) : GlobalAssetStat :=
  {| Stat.path := key; Stat.lookupKey := key;
     Stat.originalWidth := 200; Stat.originalHeight := 200;
     Stat.physicalWidth := Some 200; Stat.physicalHeight := Some 200;
     Stat.maxRenderWidth := w; Stat.maxRenderHeight := h;
     Stat.maxScaleX := 1%Q; Stat.maxScaleY := 1%Q;
     Stat.sourceAnimation := "idle"; Stat.sourceSkeleton := "Default";
     Stat.frameIndex := 0; Stat.isOverridden := overridden;
     Stat.skinName := Some "default"%string;
     Stat.overridePercentage := if overridden then Some 50%Q else None |}.

(** A loaded image of 200x200 pixels. *)
Definition image (p : string) : Image.t :=
  {| Image.width := 200; Image.height := 200;
     Image.sourceWidth := Some 200; Image.sourceHeight := Some 200;
     Image.file := []; Image.originalPath := p |}.

(** A task that asks for a resize of the given blob to 10x10. *)
Definition resized (n : string) (content : Blob) : OptimizationTask :=
  {| fileName := n; relativePath := n;
     originalWidth := 20; originalHeight := 20;
     targetWidth := 10; targetHeight := 10;
     blob := content; maxScaleUsed := (1 # 2)%Q; isResize := true;
     overridePercentage := None |}.

(** A resampler that fails on the second task of a batch and returns one
    zero byte otherwise. *)
Definition failSecond (index : nat) (b : Blob) (w h : Z) (premultiplied : bool)
  : option Blob :=
  if Nat.eqb index 1 then None else Some [Byte.x00].

(** The scale keys (t=0, x=1, curve="stepped") and (t=1, x=4). *)
Definition steppedTimeline : list SpineParser.TimelineEntry :=
  [ Some {| SpineParser.time := Some 0%Q; SpineParser.kx := Some 1%Q;
            SpineParser.ky := None;
            SpineParser.curve := Some SpineParser.Stepped |};
    Some {| SpineParser.time := Some 1%Q; SpineParser.kx := Some 4%Q;
            SpineParser.ky := None; SpineParser.curve := None |} ].

(** The same keys without the curve marker. *)
Definition linearTimeline : list SpineParser.TimelineEntry :=
  [ Some {| SpineParser.time := Some 0%Q; SpineParser.kx := Some 1%Q;
            SpineParser.ky := None; SpineParser.curve := None |};
    Some {| SpineParser.time := Some 1%Q; SpineParser.kx := Some 4%Q;
            SpineParser.ky := None; SpineParser.curve := None |} ].

(** The scale keys (t=0, x=1, y=2) and (t=1, x=4, y=6). *)
Definition diagonalTimeline : list SpineParser.TimelineEntry :=
  [ Some {| SpineParser.time := Some 0%Q; SpineParser.kx := Some 1%Q;
            SpineParser.ky := Some 2%Q; SpineParser.curve := None |};
    Some {| SpineParser.time := Some 1%Q; SpineParser.kx := Some 4%Q;
            SpineParser.ky := Some 6%Q; SpineParser.curve := None |} ].

(** The scale keys (t=0, x=1), (t=5, x=2), (t=1, x=3) and (t=6, x=4): the
    third key is earlier than the second. *)
Definition unorderedTimeline : list SpineParser.TimelineEntry :=
  [ Some {| SpineParser.time := Some 0%Q; SpineParser.kx := Some 1%Q;
            SpineParser.ky := None; SpineParser.curve := None |};
    Some {| SpineParser.time := Some 5%Q; SpineParser.kx := Some 2%Q;
            SpineParser.ky := None; SpineParser.curve := None |};
    Some {| SpineParser.time := Some 1%Q; SpineParser.kx := Some 3%Q;
            SpineParser.ky := None; SpineParser.curve := None |};
    Some {| SpineParser.time := Some 6%Q; SpineParser.kx := Some 4%Q;
            SpineParser.ky := None; SpineParser.curve := None |} ].

(** An index with one image whose name holds a dot before its extension. *)
Definition dottedIndex : JsMap.t Z := [("hero.v2.png"%string, 3)].

(** An index with the same base name in three folders. *)
Definition swordIndex : JsMap.t Z :=
  [("images/unused/backup/sword.png"%string, 1);
   ("images/sword.png"%string, 2);
   ("other/sword.jpg"%string, 3)].

(** An observation of the image [key] rendered at [w] x [h]. *)
Definition found (key : string) (w h : Z) : FoundImageResult :=
  {| Found.path := key; Found.lookupKey := key;
     Found.originalWidth := 100; Found.originalHeight := 100;
     Found.physicalWidth := Some 100; Found.physicalHeight := Some 100;
     Found.maxRenderWidth := w; Found.maxRenderHeight := h;
     Found.maxScaleX := 1%Q; Found.maxScaleY := 1%Q;
     Found.maxFrameIndex := 0; Found.isOverridden := false;
     Found.skinName := Some "default"%string;
     Found.overridePercentage := None;
     Found.isLocalScaleOverridden := false |}.

(** The results of a skeleton whose setup pose shows "hero.png" at
    300x300 and whose single animation, named [animName], shows it at
    150x150. *)
Definition heroResults (animName : string) : list AnalysisResult :=
  [ {| Result.animationName := "Setup Pose (Default)";
       Result.foundImages := [found "hero.png" 300 300];
       Result.isSetupPose := true |};
    {| Result.animationName := animName;
       Result.foundImages := [found "hero.png" 150 150];
       Result.isSetupPose := false |} ].

(** Joins lines with LF. *)
Fixpoint joinLines (lines : list string) : string :=
  match lines with
  | [] => EmptyString
  | l :: ls => (l ++ String AtlasParser.LF (joinLines ls))%string
  end.

(** A manifest of two pages that both declare a region named "sword". *)
Definition twoSwords : string :=
  joinLines [ "first.png"; "size: 64,64"; "format: RGBA8888";
              "sword"; "  rotate: false"; "  xy: 2, 4"; "  size: 10, 20";
              "shield"; "  xy: 20, 4"; "  size: 8, 8";
              "";
              "second.png"; "size: 64,64";
              "sword"; "  rotate: true"; "  xy: 30, 40"; "  size: 5, 6" ]%string.

(** The record of the second declaration of "sword". *)
Definition secondSword : AtlasParser.AtlasRegion :=
  {| AtlasParser.pageName := "second.png"; AtlasParser.name := "sword";
     AtlasParser.rotated := true;
     AtlasParser.x := AtlasParser.JNum 30; AtlasParser.y := AtlasParser.JNum 40;
     AtlasParser.width := AtlasParser.JNum 5;
     AtlasParser.height := AtlasParser.JNum 6;
     AtlasParser.originalWidth := AtlasParser.JNum 0;
     AtlasParser.originalHeight := AtlasParser.JNum 0;
     AtlasParser.offsetX := AtlasParser.JNum 0;
     AtlasParser.offsetY := AtlasParser.JNum 0;
     AtlasParser.index := AtlasParser.JNum (-1) |}.

(** A collation that ranks all names equal. *)
Definition flatCompare (a b : string) : Z := 0.

End Samples.

From Stdlib Require Import Permutation Lqa.
From Stdlib Require Qabs.

(* ------------------------------------------------------------------ *)
(** * Further parts of the sources

    - [SpineReports]    : utils/spineParser.ts, mergeAnalysisReports
    - [AtlasPages]      : utils/spineParser.ts, getImplicitlyUsedAtlasPages
    - [AtlasUnpacker]   : utils/htmlGenerator.ts, unpackAtlas
    - [SpineBones]      : utils/spineParser.ts, buildBoneHierarchy and
                          getBonePath
    - [SetupScales]     : utils/spineParser.ts,
                          calculateBoneScalesForAnimation without a target
                          animation
    - [AnimationScales] : utils/spineParser.ts,
                          calculateBoneScalesForAnimation with a target
                          animation
    - [Resampler]       : utils/optimizer.ts, the pyramid of resizeImage
                          and detectBatchAlphaMode

    The loops and recursions that follow the parents of a bone return
    only when the parents do not form a cycle; the lemmas that give them
    enough fuel assume [parentsFirst], the order in which Spine lists the
    bones.  What WebGL and the canvas compute ([processAtlasPage], the
    import of the raw bytes) is a parameter of the model. *)

(* ------------------------------------------------------------------ *)
(** * Further samples *)

Module PlannerSamples.
Import Types.

(** A loaded image of width 100 and height 75 whose [sourceWidth] and
    [sourceHeight] are 400 and 300. *)
Definition preview (p : string) : Image.t :=
  {| Image.width := 100; Image.height := 75;
     Image.sourceWidth := Some 400; Image.sourceHeight := Some 300;
     Image.file := []; Image.originalPath := p |}.

End PlannerSamples.

(* ------------------------------------------------------------------ *)
(** * Notions for the packer *)

Module PackerNotions.
Import Types AtlasPacker.

(** The whole page as a rectangle. *)
Definition pageRect (maxSize : Z) : Rect :=
  {| x := 0; y := 0; width := maxSize; height := maxSize |}.

(** A task that passes the size test of [packAtlases] and whose padded
    size fits an empty page. *)
Definition placeable (maxSize pad : Z) (t : OptimizationTask) : bool :=
  (targetWidth t <=? maxSize) && (targetHeight t <=? maxSize) &&
  (targetWidth t + pad <=? maxSize) && (targetHeight t + pad <=? maxSize).

(** The size test of [packAtlases], negated: the task is not skipped. *)
Definition notOversized (maxSize : Z) (t : OptimizationTask) : bool :=
  negb ((targetWidth t >? maxSize) || (targetHeight t >? maxSize)).

(** A packed rectangle has the target size of its task and, inflated by
    the padding, lies within the page. *)
Definition wellPlaced (maxSize pad : Z) (r : PackedRect) : Prop :=
  pw r = targetWidth (ptask r) /\ ph r = targetHeight (ptask r) /\
  inside (inflated pad r) (pageRect maxSize).

(** The pixel belongs to one of the free nodes. *)
Definition covered (free : list Rect) (i j : Z) : Prop :=
  exists f, In f free /\ covers f i j.

(** Neither rectangle is contained in the other. *)
Definition unrelated (a b : Rect) : Prop :=
  isContained a b = false /\ isContained b a = false.

(** What [pruneFreeList] makes of a list: it only drops nodes, no node
    left is contained in another, and every node of the list lies within a
    node that is left. *)
Definition pruned (l res : list Rect) : Prop :=
  incl res l /\
  ForallOrdPairs unrelated res /\
  forall r, In r l -> exists s, In s res /\ inside r s.

(** The tasks of the packed rectangles of all pages, in page order. *)
Definition packedTasks (pages : list AtlasPage) : list OptimizationTask :=
  map ptask (flat_map items pages).

End PackerNotions.

(* ------------------------------------------------------------------ *)
(** * Notions for the skeleton analysis *)

Module SpineNotions.
Import Types SpineParser.

(** The keys of a timeline come at strictly increasing times. *)
Definition strictlyChronological (timeline : list TimelineEntry) : Prop :=
  StronglySorted (fun a b => (getTime a < getTime b)%Q) timeline.

(** [maxRenderWidth * maxRenderHeight] of an observation and of a
    statistic. *)
Definition foundArea (img : FoundImageResult) : Z :=
  Found.maxRenderWidth img * Found.maxRenderHeight img.

Definition statArea (s : GlobalAssetStat) : Z :=
  Stat.maxRenderWidth s * Stat.maxRenderHeight s.

End SpineNotions.

Module TimelineSamples.
Import SpineParser.

(** The scale keys (t=0, x=1, y=2), (t=1, x=4, y=6) and (t=2, x=3, y=5). *)
Definition threeKeys : list TimelineEntry :=
  [ Some {| time := Some 0%Q; kx := Some 1%Q; ky := Some 2%Q;
            curve := None |};
    Some {| time := Some 1%Q; kx := Some 4%Q; ky := Some 6%Q;
            curve := None |};
    Some {| time := Some 2%Q; kx := Some 3%Q; ky := Some 5%Q;
            curve := None |} ].

End TimelineSamples.

(* ------------------------------------------------------------------ *)
(** * src/utils/spineParser.ts: merging the reports *)

(** A JavaScript [Set] of strings: its elements in insertion order. *)
Module JsSet.

Definition t : Type := list string.

Definition has (s : t) (x : string) : bool := existsb (String.eqb x) s.

Definition add (s : t) (x : string) : t :=
  if has s x then s else s ++ [x].

End JsSet.

Module SpineReports.
Import Types SpineNotions.

(** Of a [File] what the reports show. *)
Record FileInfo : Type := mkFileInfo {
  file_name : string;
  file_size : Z
}.

(** The value type of [availableFiles], as [mergeAnalysisReports] reads
    it. *)
Record Asset : Type := mkAsset {
  asset_width : Z;
  asset_height : Z;
  originalPath : string;
  file : FileInfo
}.

(** The interface [UnusedAsset] of types.ts (src/unnamed/part_000). *)
Record UnusedAsset : Type := mkUnused {
  path : string;
  fileName : string;
  width : Z;
  height : Z;
  size : Z
}.

(** The interface [AnalysisReport] of types.ts (src/unnamed/part_000);
    an absent [isCanonicalDataMissing] counts as [false]. *)
Record AnalysisReport : Type := mkReport {
  animations : list AnalysisResult;
  globalStats : list GlobalAssetStat;
  unusedAssets : list UnusedAsset;
  skins : list string;
  events : list string;
  controlBones : list string;
  isCanonicalDataMissing : bool
}.

Definition emptyReport : AnalysisReport :=
  {| animations := []; globalStats := []; unusedAssets := [];
     skins := []; events := []; controlBones := [];
     isCanonicalDataMissing := false |}.

(** Body of [report.globalStats.forEach]. *)
Definition mergeStat (merged : JsMap.t GlobalAssetStat) (stat : GlobalAssetStat)
  : JsMap.t GlobalAssetStat :=
  let key := Stat.lookupKey stat in
  match JsMap.get merged key with
  | None => JsMap.set merged key stat
  | Some existing =>
      let existingArea :=
        Stat.maxRenderWidth existing * Stat.maxRenderHeight existing in
      let newArea := Stat.maxRenderWidth stat * Stat.maxRenderHeight stat in
      if newArea >? existingArea then JsMap.set merged key stat else merged
  end.

(** The [mergedGlobalStats] map after the loop over the reports. *)
Definition mergeStats (reports : list AnalysisReport)
  : JsMap.t GlobalAssetStat :=
  fold_left (fun merged report => fold_left mergeStat (globalStats report) merged)
            reports [].

(** [list.forEach(x => set.add(x))] *)
Definition addAll (s : JsSet.t) (l : list string) : JsSet.t :=
  fold_left JsSet.add l s.

(** [Array.from(set).sort()]: the default order of strings, by code
    units. *)
Fixpoint insertString (x : string) (l : list string) : list string :=
  match l with
  | [] => [x]
  | u :: l' => if String.ltb u x then u :: insertString x l' else x :: u :: l'
  end.

Fixpoint sortStrings (l : list string) : list string :=
  match l with
  | [] => []
  | x :: l' => insertString x (sortStrings l')
  end.

(** [s.split('/').pop()]: what follows the last slash; [cur] is the
    segment read so far. *)
Fixpoint lastSegment (s : string) (cur : string) : string :=
  match s with
  | EmptyString => cur
  | String c rest =>
      if Ascii.eqb c "/"%char then lastSegment rest EmptyString
      else lastSegment rest (cur ++ String c EmptyString)
  end.

(** [val.originalPath.split('/').pop() || val.originalPath] *)
Definition pathFileName (p : string) : string :=
  let last := lastSegment p EmptyString in
  if String.eqb last "" then p else last.

(** No code unit of the string is a slash. *)
Fixpoint slashFree (s : string) : bool :=
  match s with
  | EmptyString => true
  | String c rest => negb (Ascii.eqb c "/"%char) && slashFree rest
  end.

(** Body of [availableFiles.forEach]: whether the asset is pushed. *)
Definition isUnused (merged : JsMap.t GlobalAssetStat)
           (atlasPageNames : JsSet.t) (key : string) (val : Asset) : bool :=
  if JsMap.has merged key then false
  else if JsSet.has atlasPageNames (originalPath val) ||
          JsSet.has atlasPageNames (pathFileName (originalPath val))
       then false
       else true.

Definition unusedOf (val : Asset) : UnusedAsset :=
  {| path := originalPath val;
     fileName := file_name (file val);
     width := asset_width val;
     height := asset_height val;
     size := file_size (file val) |}.

Fixpoint collectUnused (merged : JsMap.t GlobalAssetStat)
         (atlasPageNames : JsSet.t) (availableFiles : JsMap.t Asset)
  : list UnusedAsset :=
  match availableFiles with
  | [] => []
  | (key, val) :: rest =>
      if isUnused merged atlasPageNames key val
      then unusedOf val :: collectUnused merged atlasPageNames rest
      else collectUnused merged atlasPageNames rest
  end.

(** [unusedAssets.sort((a, b) => b.size - a.size)], stable. *)
Fixpoint insertBySize (a : UnusedAsset) (l : list UnusedAsset)
  : list UnusedAsset :=
  match l with
  | [] => [a]
  | u :: l' => if size a <? size u then u :: insertBySize a l' else a :: u :: l'
  end.

Fixpoint sortBySize (l : list UnusedAsset) : list UnusedAsset :=
  match l with
  | [] => []
  | a :: l' => insertBySize a (sortBySize l')
  end.

Definition mergeAnalysisReports (reports : list AnalysisReport)
           (availableFiles : JsMap.t Asset) (atlasPageNames : JsSet.t)
  : AnalysisReport :=
  match reports with
  | [] => emptyReport
  | _ :: _ =>
      let merged := mergeStats reports in
      {| animations := flat_map animations reports;
         globalStats := JsMap.values merged;
         unusedAssets :=
           sortBySize (collectUnused merged atlasPageNames availableFiles);
         skins :=
           sortStrings (fold_left (fun s r => addAll s (skins r)) reports []);
         events :=
           sortStrings (fold_left (fun s r => addAll s (events r)) reports []);
         controlBones :=
           sortStrings
             (fold_left (fun s r => addAll s (controlBones r)) reports []);
         isCanonicalDataMissing := existsb isCanonicalDataMissing reports |}
  end.

(** The entries of a map of statistics are filed under their own key. *)
Definition keyedByLookupKey (m : JsMap.t GlobalAssetStat) : Prop :=
  forall k s, In (k, s) m -> Stat.lookupKey s = k.

(** The statistics that the reports bring. *)
Definition inputStats (reports : list AnalysisReport) : list GlobalAssetStat :=
  flat_map globalStats reports.

End SpineReports.

Module ReportSamples.
Import Types SpineReports.

Definition spareAsset : Asset :=
  {| asset_width := 64; asset_height := 32;
     originalPath := "images/spare.png";
     file := {| file_name := "spare.png"; file_size := 2048 |} |}.

(** An image that a skeleton shows. *)
Definition heroAsset : Asset :=
  {| asset_width := 200; asset_height := 100;
     originalPath := "images/hero.png";
     file := {| file_name := "hero.png"; file_size := 8192 |} |}.

(** The page image of an atlas. *)
Definition pageAsset : Asset :=
  {| asset_width := 512; asset_height := 512;
     originalPath := "atlas/page.png";
     file := {| file_name := "page.png"; file_size := 4096 |} |}.

(** The statistic of the image shown, filed under the key "hero". *)
Definition heroStat : GlobalAssetStat := Samples.stat "hero" 150 75 false.

Definition heroReport : AnalysisReport :=
  {| animations := []; globalStats := [heroStat]; unusedAssets := [];
     skins := []; events := []; controlBones := [];
     isCanonicalDataMissing := false |}.

End ReportSamples.

(* ------------------------------------------------------------------ *)
(** * src/utils/spineParser.ts: the pages of an atlas *)

Module AtlasPages.
Import Types JsString AtlasParser.

(** The name that [getImplicitlyUsedAtlasPages] adds for a region's
    page. *)
Definition normalizePageName (regionPage : string) : string :=
  let name := backslashesToSlashes (trim regionPage) in
  let name :=
    if endsWith (toLowerCase name) ".png.png"
    then substring 0 (String.length name - 4) name
    else if endsWith (toLowerCase name) ".jpg.jpg"
    then substring 0 (String.length name - 4) name
    else name in
  let hasExt := existsb (endsWith (toLowerCase name)) imageExtensions in
  if hasExt then name else (name ++ ".png")%string.

Definition getImplicitlyUsedAtlasPages (metadata : AtlasAssetMap) : JsSet.t :=
  fold_left
    (fun pages entry =>
       JsSet.add pages (normalizePageName (pageName (snd entry))))
    metadata [].

(** A string read from its end. *)
Definition reversed (s : string) : string := reverse s EmptyString.

(** A page name as [cleanseAtlasPageName] returns them. *)
Definition cleansedName (p : string) : Prop :=
  exists fileName, p = cleanseAtlasPageName fileName.

(** The pages of the parser's state are cleansed names. *)
Definition pagesCleansed (st : ParserState) : Prop :=
  (forall p, currentPage st = Some p -> cleansedName p) /\
  (forall r, currentRegion st = Some r -> cleansedName (pageName r)).

End AtlasPages.

(* ------------------------------------------------------------------ *)
(** * src/utils/htmlGenerator.ts: unpackAtlas *)

Module AtlasUnpacker.
Import Types JsString AtlasParser.

(** Body of [regionsMap.forEach]: the region is pushed on the array of
    its page, which the first region of the page creates. *)
Definition groupRegion (regionsByPage : JsMap.t (list AtlasRegion))
           (region : AtlasRegion) : JsMap.t (list AtlasRegion) :=
  let withPage :=
    if JsMap.has regionsByPage (pageName region) then regionsByPage
    else JsMap.set regionsByPage (pageName region) [] in
  match JsMap.get withPage (pageName region) with
  | Some regions =>
      JsMap.set withPage (pageName region) (regions ++ [region])
  | None => withPage
  end.

(** The [regionsByPage] map after the loop. *)
Definition groupByPage (regionsMap : AtlasAssetMap)
  : JsMap.t (list AtlasRegion) :=
  fold_left groupRegion (JsMap.values regionsMap) [].

(** The blob of a page: [images.get(pageName)], or else the first image
    whose key ends with the page name, letter case apart. *)
Definition findBlob (images : JsMap.t Blob) (page : string) : option Blob :=
  match JsMap.get images page with
  | Some blob => Some blob
  | None =>
      let normalizedPage := toLowerCase page in
      option_map snd
        (find (fun entry => endsWith (toLowerCase (fst entry)) normalizedPage)
              images)
  end.

Section Unpack.
Variable FileAsset : Type.
(** [await processAtlasPage(blob, regions)] for the page at a given
    position of the loop: [None] when it throws. *)
Variable processAtlasPage : nat -> Blob -> list AtlasRegion
                            -> option (list FileAsset).

(** Body of the loop over the pages. *)
Definition unpackPage (images : JsMap.t Blob) (index : nat)
           (outputAssets : list FileAsset)
           (entry : string * list AtlasRegion) : list FileAsset :=
  match findBlob images (fst entry) with
  | None => outputAssets
  | Some blob =>
      match processAtlasPage index blob (snd entry) with
      | Some extracted => outputAssets ++ extracted
      | None => outputAssets
      end
  end.

Fixpoint unpackLoop (images : JsMap.t Blob) (index : nat)
         (pages : list (string * list AtlasRegion))
         (outputAssets : list FileAsset) : list FileAsset :=
  match pages with
  | [] => outputAssets
  | entry :: rest =>
      unpackLoop images (S index) rest
                 (unpackPage images index outputAssets entry)
  end.

Definition unpackAtlas (atlasContent : string) (images : JsMap.t Blob)
  : list FileAsset :=
  let regionsMap := parseAtlas atlasContent in
  unpackLoop images O (groupByPage regionsMap) [].

End Unpack.

(** The regions of a page, in the order of the map. *)
Definition regionsOfPage (regionsMap : AtlasAssetMap) (page : string)
  : list AtlasRegion :=
  filter (fun region => String.eqb (pageName region) page)
         (JsMap.values regionsMap).

End AtlasUnpacker.

(* ------------------------------------------------------------------ *)
(** * src/utils/spineParser.ts: the bone hierarchy *)

Module SpineBones.
Import Types.

(** The interface [SpineBone] of types.ts (src/unnamed/part_000), with
    [name] as [bone_name]; [parent], [scaleX] and [scaleY] may be
    absent. *)
Record Bone : Type := mkBone {
  bone_name : string;
  parent : option string;
  scaleX : option Q;
  scaleY : option Q
}.

(** A string that passes [if (s)]: present and not empty. *)
Definition truthy (s : option string) : option string :=
  match s with
  | Some p => if String.eqb p "" then None else Some p
  | None => None
  end.

(** Body of [json.bones.forEach] in [buildBoneHierarchy]. *)
Definition addParent (parentMap : JsMap.t string) (bone : Bone)
  : JsMap.t string :=
  match truthy (parent bone) with
  | Some p => JsMap.set parentMap (bone_name bone) p
  | None => parentMap
  end.

(** [bones] is [json.bones], or the empty list when that is not an
    array. *)
Definition buildBoneHierarchy (bones : list Bone) : JsMap.t string :=
  fold_left addParent bones [].

(** The [while (parentMap.has(current))] loop of [getBonePath]; the head
    of [path] is [current]. *)
Fixpoint bonePathLoop (fuel : nat) (parentMap : JsMap.t string)
         (path : list string) (current : string) : fueled (list string) :=
  match fuel with
  | O => None
  | S fuel' =>
      match JsMap.get parentMap current with
      | Some parentName =>
          bonePathLoop fuel' parentMap (parentName :: path) parentName
      | None => Some path
      end
  end.

(** [path.join(sep)] *)
Definition join (sep : string) (path : list string) : string :=
  match path with
  | [] => EmptyString
  | first :: rest =>
      fold_left (fun acc s => (acc ++ sep ++ s)%string) rest first
  end.

Definition getBonePath (fuel : nat) (boneName : string)
           (parentMap : JsMap.t string) : fueled string :=
  path <- bonePathLoop fuel parentMap [boneName] boneName ;;
  Some (join "/" path).

(** ** Notions *)

(** Each name of the path is the parent of the next one. *)
Fixpoint linked (parentMap : JsMap.t string) (path : list string) : Prop :=
  match path with
  | a :: (b :: _) as rest =>
      JsMap.get parentMap b = Some a /\ linked parentMap rest
  | _ => True
  end.

Definition hasName (n : string) (bone : Bone) : bool :=
  String.eqb (bone_name bone) n.

(** The bones have distinct names, none of [seen], and every parent that
    counts is in [seen] or the name of an earlier bone. *)
Fixpoint parentsFirst (seen : list string) (bones : list Bone) : bool :=
  match bones with
  | [] => true
  | bone :: rest =>
      negb (existsb (String.eqb (bone_name bone)) seen) &&
      match truthy (parent bone) with
      | Some p => existsb (String.eqb p) seen
      | None => true
      end &&
      parentsFirst (bone_name bone :: seen) rest
  end.

(** The position of the first bone of a name; the length of the list
    when there is none. *)
Fixpoint boneIndex (n : string) (bones : list Bone) : nat :=
  match bones with
  | [] => O
  | bone :: rest => if hasName n bone then O else S (boneIndex n rest)
  end.

End SpineBones.

Module BoneSamples.
Import Types SpineBones.

Definition skeleton : list Bone :=
  [ {| bone_name := "root"; parent := None;
       scaleX := None; scaleY := None |};
    {| bone_name := "arm"; parent := Some "root"%string;
       scaleX := Some (2 # 1); scaleY := Some (1 # 2) |};
    {| bone_name := "hand"; parent := Some "arm"%string;
       scaleX := Some (-3 # 1); scaleY := None |} ].

(** A parent map in which two names are each other's parent. *)
Definition twoCycle : JsMap.t string :=
  [("a", "b"); ("b", "a")]%string.

End BoneSamples.

(* ------------------------------------------------------------------ *)
(** * src/utils/spineParser.ts: the scales of the setup pose *)

Module SetupScales.
Import Types SpineBones.

Record Scale : Type := mkScale { sx : Q; sy : Q }.

(** An entry of [boneScales]. *)
Record BoneScale : Type := mkBoneScale { bx : Q; by_ : Q; frame : Z }.

(** [bone?.scaleX ?? 1] *)
Definition localX (bone : option Bone) : Q :=
  match bone with
  | Some b => match scaleX b with Some s => s | None => 1 end
  | None => 1
  end.

(** [bone?.scaleY ?? 1] *)
Definition localY (bone : option Bone) : Q :=
  match bone with
  | Some b => match scaleY b with Some s => s | None => 1 end
  | None => 1
  end.

(** The closure [getSetupScale] with its [setupCache]; the fuel bounds
    the depth of the recursion. *)
Fixpoint getSetupScale (fuel : nat) (bones : list Bone)
         (parentMap : JsMap.t string) (bName : string)
         (setupCache : JsMap.t Scale) : fueled (Scale * JsMap.t Scale) :=
  match fuel with
  | O => None
  | S fuel' =>
      match JsMap.get setupCache bName with
      | Some cached => Some (cached, setupCache)
      | None =>
          let bone := find (hasName bName) bones in
          pc <- match truthy (JsMap.get parentMap bName) with
                | Some parentName =>
                    getSetupScale fuel' bones parentMap parentName setupCache
                | None => Some ({| sx := 1; sy := 1 |}, setupCache)
                end ;;
          let res := {| sx := sx (fst pc) * localX bone;
                        sy := sy (fst pc) * localY bone |} in
          Some (res, JsMap.set (snd pc) bName res)
      end
  end.

(** Body of [bones.forEach] in the branch without a target animation;
    the state is the cache and [boneScales]. *)
Definition setupStep (fuel : nat) (bones : list Bone)
           (parentMap : JsMap.t string)
           (st : JsMap.t Scale * JsMap.t BoneScale) (b : Bone)
  : fueled (JsMap.t Scale * JsMap.t BoneScale) :=
  r <- getSetupScale fuel bones parentMap (bone_name b) (fst st) ;;
  Some (snd r,
        JsMap.set (snd st) (bone_name b)
                  {| bx := Qabs.Qabs (sx (fst r)); by_ := Qabs.Qabs (sy (fst r));
                     frame := 0 |}).

Fixpoint setupLoop (fuel : nat) (bones : list Bone)
         (parentMap : JsMap.t string) (todo : list Bone)
         (st : JsMap.t Scale * JsMap.t BoneScale)
  : fueled (JsMap.t Scale * JsMap.t BoneScale) :=
  match todo with
  | [] => Some st
  | b :: rest =>
      st' <- setupStep fuel bones parentMap st b ;;
      setupLoop fuel bones parentMap rest st'
  end.

(** [calculateBoneScalesForAnimation(json, parentMap, null)]: the branch
    taken without a target animation. *)
Definition calculateSetupBoneScales (fuel : nat) (bones : list Bone)
           (parentMap : JsMap.t string) : fueled (JsMap.t BoneScale) :=
  st <- setupLoop fuel bones parentMap bones ([], []) ;;
  let boneScales := snd st in
  Some (if JsMap.has boneScales "root" then boneScales
        else JsMap.set boneScales "root" {| bx := 1; by_ := 1; frame := 0 |}).

(** ** Notions *)

(** The scale of a name as the recursion computes it: that of the parent
    times the local scale of the bone. *)
Inductive worldScale (bones : list Bone) (parentMap : JsMap.t string)
  : string -> Scale -> Prop :=
| world_top (n : string) :
    truthy (JsMap.get parentMap n) = None ->
    worldScale bones parentMap n
               {| sx := 1 * localX (find (hasName n) bones);
                  sy := 1 * localY (find (hasName n) bones) |}
| world_child (n p : string) (ps : Scale) :
    truthy (JsMap.get parentMap n) = Some p ->
    worldScale bones parentMap p ps ->
    worldScale bones parentMap n
               {| sx := sx ps * localX (find (hasName n) bones);
                  sy := sy ps * localY (find (hasName n) bones) |}.

(** Every entry of the cache is the world scale of its name. *)
Definition cacheSound (bones : list Bone) (parentMap : JsMap.t string)
           (cache : JsMap.t Scale) : Prop :=
  forall n s, JsMap.get cache n = Some s -> worldScale bones parentMap n s.

(** Every entry of [boneScales] is the absolute world scale of its name,
    at frame 0. *)
Definition scalesSound (bones : list Bone) (parentMap : JsMap.t string)
           (scales : JsMap.t BoneScale) : Prop :=
  forall n bs, JsMap.get scales n = Some bs ->
               exists s, worldScale bones parentMap n s /\
                         bs = {| bx := Qabs.Qabs (sx s); by_ := Qabs.Qabs (sy s);
                                 frame := 0 |}.

End SetupScales.

(* ------------------------------------------------------------------ *)
(** * src/utils/optimizer.ts: the pyramid and the alpha scan *)

Module Resampler.
Import Types.

(** The [while (srcW > targetWidth * 2 && srcH > targetHeight * 2)] loop
    of [resizeImage], on the size of the buffer: each turn replaces the
    buffer by one of [Math.floor(srcW / 2)] by [Math.floor(srcH / 2)]
    pixels. *)
Fixpoint pyramidLoop (fuel : nat) (targetWidth targetHeight srcW srcH : Z)
  : fueled (Z * Z) :=
  match fuel with
  | O => None
  | S fuel' =>
      if (srcW >? targetWidth * 2) && (srcH >? targetHeight * 2) then
        let nextW := srcW / 2 in
        let nextH := srcH / 2 in
        pyramidLoop fuel' targetWidth targetHeight nextW nextH
      else Some (srcW, srcH)
  end.

(** [f[i]] of a typed array: [None] is [undefined]. *)
Definition element (f : list Z) (i : nat) : option Z := nth_error f i.

(** [c > a + 2.0]: false when an operand is [undefined]. *)
Definition exceeds (c a : option Z) : bool :=
  match c, a with
  | Some cv, Some av => cv >? av + 2
  | _, _ => false
  end.

(** The test of the scan at index [i]. *)
Definition illegalPremultiplied (f : list Z) (i : nat) : bool :=
  let a := element f (i + 3) in
  exceeds (element f i) a || exceeds (element f (i + 1)) a ||
  exceeds (element f (i + 2)) a.

(** The [for (let i = 0; i < f.length; i += 16)] scan with its [break]. *)
Fixpoint scanLoop (fuel : nat) (f : list Z) (i : nat) : fueled bool :=
  match fuel with
  | O => None
  | S fuel' =>
      if Nat.ltb i (List.length f) then
        if illegalPremultiplied f i then Some true
        else scanLoop fuel' f (i + 16)
      else Some false
  end.

(** [detectBatchAlphaMode]; [rawData] is what the import of the blob
    gives, the channels of the pixels as numbers: [None] when
    [getRawBytesViaWebGL] returns [null] or the import throws. *)
Definition detectBatchAlphaMode (rawData : option (list Z)) : fueled string :=
  match rawData with
  | None => Some "Premultiplied Alpha (PMA)"%string
  | Some f =>
      isStraight <- scanLoop (S (List.length f)) f 0 ;;
      Some (if isStraight then "Straight Alpha"%string
            else "Premultiplied Alpha (PMA)"%string)
  end.

End Resampler.

Module ResamplerSamples.

(** Five pixels (r, g, b, a).  The first is legal for premultiplied
    alpha; the second, which the scan skips, is not; the fifth, at index
    16, has a blue of 90 over an alpha of 80. *)
Definition straightPixels : list Z :=
  [ 10; 20; 30; 200;   250; 250; 250; 10;   0; 0; 0; 0;   5; 5; 5; 255;
    80; 82; 90; 80 ].

(** The same pixels with a legal fifth one: only the second pixel, which
    the scan skips, exceeds its alpha. *)
Definition unsampledPixels : list Z :=
  [ 10; 20; 30; 200;   250; 250; 250; 10;   0; 0; 0; 0;   5; 5; 5; 255;
    80; 82; 82; 80 ].

End ResamplerSamples.

(* ------------------------------------------------------------------ *)
(** * src/utils/spineParser.ts: the scales of an animation *)

Module AnimationScales.
Import Types SpineBones SetupScales SpineParser.

(** [animData.bones]: for the name of a bone its [scale] timeline, when
    it has one; an animation without [bones] is the empty map.  The
    entries stand in the order in which [Object.values] lists them. *)
Definition AnimBones : Type := JsMap.t (option (list TimelineEntry)).

(** [animData.bones?.[bName]?.scale] *)
Definition scaleTimeline (animBones : AnimBones) (bName : string)
  : option (list TimelineEntry) :=
  match JsMap.get animBones bName with
  | Some (Some timeline) => Some timeline
  | _ => None
  end.

(** The [while (current)] loop of [isAffectedByScaleKey]; a turn of
    the loop takes one unit of fuel. *)
Fixpoint isAffectedLoop (fuel : nat) (animBones : AnimBones)
         (parentMap : JsMap.t string) (current : option string)
  : fueled bool :=
  match truthy current with
  | None => Some false
  | Some c =>
      match fuel with
      | O => None
      | S fuel' =>
          match scaleTimeline animBones c with
          | Some _ => Some true
          | None =>
              isAffectedLoop fuel' animBones parentMap
                             (JsMap.get parentMap c)
          end
      end
  end.

Definition isAffectedByScaleKey (fuel : nat) (animBones : AnimBones)
           (parentMap : JsMap.t string) (bName : string) : fueled bool :=
  isAffectedLoop fuel animBones parentMap (Some bName).

(** Body of the [bones.forEach] that fills [boneScales] before the
    frames are sampled. *)
Definition initialStep (fuel : nat) (bones : list Bone)
           (parentMap : JsMap.t string) (animBones : AnimBones)
           (st : JsMap.t Scale * JsMap.t BoneScale) (b : Bone)
  : fueled (JsMap.t Scale * JsMap.t BoneScale) :=
  affected <- isAffectedByScaleKey fuel animBones parentMap (bone_name b) ;;
  if (affected : bool) then
    Some (fst st,
          JsMap.set (snd st) (bone_name b) {| bx := 0; by_ := 0; frame := 0 |})
  else setupStep fuel bones parentMap st b.

Fixpoint initialLoop (fuel : nat) (bones : list Bone)
         (parentMap : JsMap.t string) (animBones : AnimBones)
         (todo : list Bone) (st : JsMap.t Scale * JsMap.t BoneScale)
  : fueled (JsMap.t Scale * JsMap.t BoneScale) :=
  match todo with
  | [] => Some st
  | b :: rest =>
      st' <- initialStep fuel bones parentMap animBones st b ;;
      initialLoop fuel bones parentMap animBones rest st'
  end.

(** [if (!boneScales.has('root')) boneScales.set('root', ...)] *)
Definition withRoot (boneScales : JsMap.t BoneScale) : JsMap.t BoneScale :=
  if JsMap.has boneScales "root" then boneScales
  else JsMap.set boneScales "root" {| bx := 1; by_ := 1; frame := 0 |}.

(** ** The sampled times *)

(** [criticalTimes.add(t)]: a set of numbers. *)
Definition addTime (times : list Q) (t : Q) : list Q :=
  if existsb (Qeq_bool t) times then times else times ++ [t].

(** Body of [Object.values(animData.bones).forEach]: the state is
    [duration] and [criticalTimes]. *)
Definition timelineTimes (st : Q * list Q)
           (boneTimelines : option (list TimelineEntry)) : Q * list Q :=
  match boneTimelines with
  | Some scale =>
      if Nat.ltb 0 (List.length scale) then
        let last := nth (List.length scale - 1) scale None in
        let lastTime := getTime last in
        let duration := if Qlt_bool (fst st) lastTime then lastTime
                        else fst st in
        (duration, fold_left addTime (map getTime scale) (snd st))
      else st
  | None => st
  end.

Definition fps : Q := 30.

(** [for (let f = 0; f <= totalFrames; f++) criticalTimes.add(f / fps)] *)
Definition addFrames (totalFrames : Z) (times : list Q) : list Q :=
  fold_left addTime
            (map (fun f => (inject_Z (Z.of_nat f) / fps)%Q)
                 (seq 0 (Z.to_nat (totalFrames + 1))))
            times.

(** [Array.from(criticalTimes).sort((a, b) => a - b)] *)
Fixpoint insertTime (t : Q) (sorted : list Q) : list Q :=
  match sorted with
  | [] => [t]
  | u :: rest =>
      if Qlt_bool u t then u :: insertTime t rest else t :: u :: rest
  end.

Fixpoint sortTimes (times : list Q) : list Q :=
  match times with
  | [] => []
  | t :: rest => insertTime t (sortTimes rest)
  end.

(** [sortedTimes] *)
Definition sampledTimes (animBones : AnimBones) : list Q :=
  let st := fold_left timelineTimes (JsMap.values animBones) (0%Q, [0%Q]) in
  let duration := fst st in
  let totalFrames := Qceiling (duration * fps)%Q in
  sortTimes (addFrames totalFrames (snd st)).

(** ** One frame *)

(** [animX] and [animY] of [getFrameScale]: the factor of the scale
    timeline of the bone at the sampled time, 1 without a timeline. *)
Definition animationFactor (animBones : AnimBones) (sampleTime : Q)
           (bName : string) : Q * Q :=
  match scaleTimeline animBones bName with
  | Some timeline => getAnimationScaleFactor timeline sampleTime
  | None => (1, 1)%Q
  end.

(** The closure [getFrameScale] with its [frameCache]; the fuel bounds
    the depth of the recursion. *)
Fixpoint getFrameScale (fuel : nat) (bones : list Bone)
         (parentMap : JsMap.t string) (animBones : AnimBones)
         (sampleTime : Q) (bName : string) (frameCache : JsMap.t Scale)
  : fueled (Scale * JsMap.t Scale) :=
  match fuel with
  | O => None
  | S fuel' =>
      match JsMap.get frameCache bName with
      | Some cached => Some (cached, frameCache)
      | None =>
          pc <- match truthy (JsMap.get parentMap bName) with
                | Some parentName =>
                    getFrameScale fuel' bones parentMap animBones sampleTime
                                  parentName frameCache
                | None => Some ({| sx := 1; sy := 1 |}, frameCache)
                end ;;
          let bone := find (hasName bName) bones in
          let setupX := localX bone in
          let setupY := localY bone in
          let factor := animationFactor animBones sampleTime bName in
          let res := {| sx := (sx (fst pc) * setupX * fst factor)%Q;
                        sy := (sy (fst pc) * setupY * snd factor)%Q |} in
          Some (res, JsMap.set (snd pc) bName res)
      end
  end.

(** [Math.round(time * fps)] *)
Definition frameIndexOf (sampleTime : Q) : Z :=
  Qfloor (sampleTime * fps + (1 # 2))%Q.

(** The two [if]s that raise an entry of [boneScales]. *)
Definition raise (currentFrameIndex : Z) (s : Scale) (current : BoneScale)
  : BoneScale :=
  let absX := Qabs.Qabs (sx s) in
  let absY := Qabs.Qabs (sy s) in
  let afterX :=
    if Qlt_bool (bx current) absX
    then {| bx := absX; by_ := by_ current; frame := currentFrameIndex |}
    else current in
  if Qlt_bool (by_ afterX) absY
  then {| bx := bx afterX; by_ := absY;
          frame := if Qlt_bool (bx afterX) absY then currentFrameIndex
                   else frame afterX |}
  else afterX.

(** Body of the [bones.forEach] of a sampled time; the state is
    [frameCache] and [boneScales]. *)
Definition frameStep (fuel : nat) (bones : list Bone)
           (parentMap : JsMap.t string) (animBones : AnimBones)
           (sampleTime : Q) (st : JsMap.t Scale * JsMap.t BoneScale)
           (b : Bone) : fueled (JsMap.t Scale * JsMap.t BoneScale) :=
  r <- getFrameScale fuel bones parentMap animBones sampleTime
                     (bone_name b) (fst st) ;;
  match JsMap.get (snd st) (bone_name b) with
  | None => Some (snd r, snd st)
  | Some current =>
      Some (snd r,
            JsMap.set (snd st) (bone_name b)
                      (raise (frameIndexOf sampleTime) (fst r) current))
  end.

Fixpoint frameLoop (fuel : nat) (bones : list Bone)
         (parentMap : JsMap.t string) (animBones : AnimBones)
         (sampleTime : Q) (todo : list Bone)
         (st : JsMap.t Scale * JsMap.t BoneScale)
  : fueled (JsMap.t Scale * JsMap.t BoneScale) :=
  match todo with
  | [] => Some st
  | b :: rest =>
      st' <- frameStep fuel bones parentMap animBones sampleTime st b ;;
      frameLoop fuel bones parentMap animBones sampleTime rest st'
  end.

(** The [for (const time of sortedTimes)] loop. *)
Fixpoint timesLoop (fuel : nat) (bones : list Bone)
         (parentMap : JsMap.t string) (animBones : AnimBones)
         (times : list Q) (boneScales : JsMap.t BoneScale)
  : fueled (JsMap.t BoneScale) :=
  match times with
  | [] => Some boneScales
  | sampleTime :: rest =>
      st <- frameLoop fuel bones parentMap animBones sampleTime bones
                      ([], boneScales) ;;
      timesLoop fuel bones parentMap animBones rest (snd st)
  end.

(** [calculateBoneScalesForAnimation(json, parentMap, targetAnimName)]
    when [json.animations[targetAnimName]] exists, with [animBones] its
    [bones]. *)
Definition calculateAnimationBoneScales (fuel : nat) (bones : list Bone)
           (parentMap : JsMap.t string) (animBones : AnimBones)
  : fueled (JsMap.t BoneScale) :=
  st <- initialLoop fuel bones parentMap animBones bones ([], []) ;;
  timesLoop fuel bones parentMap animBones (sampledTimes animBones)
            (withRoot (snd st)).

(** ** Notions *)

(** The scale of a name at a sampled time as the recursion computes
    it. *)
Inductive frameScale (bones : list Bone) (parentMap : JsMap.t string)
          (animBones : AnimBones) (sampleTime : Q)
  : string -> Scale -> Prop :=
| frame_top (n : string) :
    truthy (JsMap.get parentMap n) = None ->
    frameScale bones parentMap animBones sampleTime n
      {| sx := (1 * localX (find (hasName n) bones)
                * fst (animationFactor animBones sampleTime n))%Q;
         sy := (1 * localY (find (hasName n) bones)
                * snd (animationFactor animBones sampleTime n))%Q |}
| frame_child (n p : string) (ps : Scale) :
    truthy (JsMap.get parentMap n) = Some p ->
    frameScale bones parentMap animBones sampleTime p ps ->
    frameScale bones parentMap animBones sampleTime n
      {| sx := (sx ps * localX (find (hasName n) bones)
                * fst (animationFactor animBones sampleTime n))%Q;
         sy := (sy ps * localY (find (hasName n) bones)
                * snd (animationFactor animBones sampleTime n))%Q |}.

(** Neither the name nor any of its ancestors has a scale timeline. *)
Inductive quiet (parentMap : JsMap.t string) (animBones : AnimBones)
  : string -> Prop :=
| quiet_top (n : string) :
    scaleTimeline animBones n = None ->
    truthy (JsMap.get parentMap n) = None ->
    quiet parentMap animBones n
| quiet_child (n p : string) :
    scaleTimeline animBones n = None ->
    truthy (JsMap.get parentMap n) = Some p ->
    quiet parentMap animBones p ->
    quiet parentMap animBones n.

(** Every entry of the frame cache is the frame scale of its name. *)
Definition frameCacheSound (bones : list Bone) (parentMap : JsMap.t string)
           (animBones : AnimBones) (sampleTime : Q)
           (cache : JsMap.t Scale) : Prop :=
  forall n s, JsMap.get cache n = Some s ->
              frameScale bones parentMap animBones sampleTime n s.

(** An entry of [boneScales] was not lowered. *)
Definition grown (before after : BoneScale) : Prop :=
  (bx before <= bx after)%Q /\ (by_ before <= by_ after)%Q.

End AnimationScales.

Module AnimationSamples.
Import Types SpineParser SpineBones AnimationScales BoneSamples.

(** An animation that doubles the width of the arm within one second. *)
Definition armGrows : AnimBones :=
  [("arm"%string,
    Some [Some {| time := Some 0%Q; kx := Some 1%Q; ky := Some 1%Q;
                  curve := None |};
          Some {| time := Some 1%Q; kx := Some 2%Q; ky := Some 1%Q;
                  curve := None |}])].

End AnimationSamples.

(* ================================================================== *)
(** * Properties of the packer *)

Section PackerProperties.
Import Types AtlasPacker.

Lemma inside_refl (r : Rect) : inside r r.
Proof. unfold inside; lia. Qed.

Lemma apart_sym (a b : Rect) : apart a b -> apart b a.
Proof. unfold apart; lia. Qed.

Lemma apart_inside (v s f : Rect) : apart v f -> inside s f -> apart v s.
Proof. unfold apart, inside; lia. Qed.

Lemma inside_trans (a b c : Rect) : inside a b -> inside b c -> inside a c.
Proof. unfold inside; lia. Qed.

(** A node that [splitFreeNode] leaves alone is apart from the used
    rectangle. *)
Lemma splitFreeNode_none (f u : Rect) :
  splitFreeNode f u = None -> apart u f.
Proof.
  unfold splitFreeNode, apart.
  destruct (_ || _) eqn:E; [intros _ | discriminate].
  rewrite !orb_true_iff in E. lia.
Qed.

(** What [splitFreeNode] pushes lies within the node, is apart from the
    used rectangle, and is itself not split by it. *)
Lemma splitFreeNode_some (f u : Rect) (pushed : list Rect) :
  splitFreeNode f u = Some pushed ->
  (List.length pushed <= 4)%nat /\
  forall s, In s pushed ->
            inside s f /\ apart u s /\ splitFreeNode s u = None.
Proof.
  unfold splitFreeNode.
  destruct (_ || _) eqn:E; [discriminate|].
  rewrite !orb_false_iff in E. destruct E as [[[E1 E2] E3] E4].
  intros H; injection H as <-.
  split.
  - repeat match goal with
           | |- context [if ?c then _ else _] => destruct c
           end; simpl; lia.
  - intros s Hs.
    repeat match type of Hs with
           | context [if ?c then _ else _] => destruct c eqn:?
           end;
    simpl in Hs;
    repeat match goal with
           | H : _ \/ _ |- _ => destruct H
           | H : False |- _ => destruct H
           | H : _ && _ = true |- _ => apply andb_prop in H; destruct H
           end; subst s;
    unfold inside, apart; simpl;
    (split; [lia | split; [lia |]]);
    match goal with
    | |- (if ?c then _ else _) = None =>
        replace c with true; [reflexivity | symmetry; rewrite !orb_true_iff; simpl; lia]
    end.
Qed.

Lemma placeCost_app (u : Rect) (l1 l2 : list Rect) :
  placeCost u (l1 ++ l2) = (placeCost u l1 + placeCost u l2)%nat.
Proof.
  induction l1 as [|f l1 IH]; simpl; [reflexivity|].
  destruct (splitFreeNode f u); rewrite IH; lia.
Qed.

Lemma placeCost_unsplit (u : Rect) (l : list Rect) :
  (forall s, In s l -> splitFreeNode s u = None) ->
  placeCost u l = List.length l.
Proof.
  induction l as [|f l IH]; simpl; intros H; [reflexivity|].
  rewrite (H f) by auto. rewrite IH by auto. reflexivity.
Qed.

Lemma placeCost_bound (u : Rect) (l : list Rect) :
  (placeCost u l <= 5 * List.length l)%nat.
Proof.
  induction l as [|f l IH]; simpl; [lia|].
  destruct (splitFreeNode f u); lia.
Qed.

(** The loop of [placeRect] ends within its fuel, and every node it
    leaves lies within a node it started from and is apart from the used
    rectangle, unless it was visited before. *)
Lemma placeLoop_total (u : Rect) :
  forall (fuel : nat) (visited pending : list Rect),
    (placeCost u pending < fuel)%nat ->
    exists res,
      placeLoop fuel visited pending u = Some res /\
      forall r, In r res ->
                In r visited \/
                (apart u r /\ exists f, In f pending /\ inside r f).
Proof.
  induction fuel as [|fuel IH]; intros visited pending Hfuel; [lia|].
  destruct pending as [|f rest]; simpl.
  - exists visited. split; [reflexivity | auto].
  - simpl in Hfuel.
    destruct (splitFreeNode f u) as [pushed|] eqn:Hsplit.
    + destruct (splitFreeNode_some _ _ _ Hsplit) as [Hlen Hpushed].
      destruct (IH visited (rest ++ pushed)) as (res & Hres & Hin).
      { rewrite placeCost_app.
        rewrite (placeCost_unsplit u pushed) by (intros s Hs; apply Hpushed, Hs).
        lia. }
      exists res. split; [exact Hres|].
      intros r Hr. destruct (Hin r Hr) as [Hv | (Ha & g & Hg & Hi)]; [auto|].
      right. split; [exact Ha|].
      apply in_app_or in Hg. destruct Hg as [Hg | Hg].
      * exists g. split; [right; exact Hg | exact Hi].
      * exists f. split; [left; reflexivity|].
        apply inside_trans with g; [exact Hi | apply Hpushed, Hg].
    + destruct (IH (visited ++ [f]) rest) as (res & Hres & Hin); [lia|].
      exists res. split; [exact Hres|].
      intros r Hr. destruct (Hin r Hr) as [Hv | (Ha & g & Hg & Hi)].
      * apply in_app_or in Hv. destruct Hv as [Hv | [<- | []]]; [auto|].
        right. split; [apply splitFreeNode_none, Hsplit|].
        exists f. split; [left; reflexivity | apply inside_refl].
      * right. split; [exact Ha|]. exists g. split; [right; exact Hg | exact Hi].
Qed.

(** The inner loop of [pruneFreeList] only drops nodes. *)
Lemma pruneInner_total (outer : list Rect -> fueled (list Rect)) (n : nat) :
  (forall l, (List.length l <= n)%nat ->
             exists res, outer l = Some res /\ incl res l) ->
  forall (rect1 : Rect) (rest middle : list Rect),
    (List.length middle + List.length rest <= n)%nat ->
    exists res,
      pruneInner outer rect1 middle rest = Some res /\
      incl res (rect1 :: middle ++ rest).
Proof.
  intros Houter rect1 rest.
  induction rest as [|rect2 tl IH]; intros middle Hlen; simpl in *.
  - destruct (Houter middle) as (res & Hres & Hincl); [lia|].
    rewrite Hres. simpl. exists (rect1 :: res). split; [reflexivity|].
    rewrite app_nil_r. intros r [<- | Hr]; [left; reflexivity | right; auto].
  - destruct (isContained rect1 rect2).
    + destruct (Houter (middle ++ rect2 :: tl)) as (res & Hres & Hincl).
      { rewrite length_app. simpl. lia. }
      exists res. split; [exact Hres|]. intros r Hr. right. auto.
    + destruct (isContained rect2 rect1).
      * destruct (IH middle) as (res & Hres & Hincl); [lia|].
        exists res. split; [exact Hres|].
        intros r Hr. apply Hincl in Hr. destruct Hr as [<- | Hr]; [left; reflexivity|].
        right. apply in_app_or in Hr. apply in_or_app.
        destruct Hr; [left | right; right]; assumption.
      * destruct (IH (middle ++ [rect2])) as (res & Hres & Hincl).
        { rewrite length_app. simpl. lia. }
        exists res. split; [exact Hres|].
        rewrite <- app_assoc in Hincl. exact Hincl.
Qed.

Lemma pruneLoop_total :
  forall (fuel : nat) (l : list Rect),
    (List.length l < fuel)%nat ->
    exists res, pruneLoop fuel l = Some res /\ incl res l.
Proof.
  induction fuel as [|fuel IH]; intros l Hlen; [lia|].
  destruct l as [|rect1 others]; simpl.
  - exists []. split; [reflexivity | apply incl_refl].
  - simpl in Hlen.
    destruct (pruneInner_total (pruneLoop fuel) (List.length others)) with
      (rect1 := rect1) (rest := others) (middle := @nil Rect)
      as (res & Hres & Hincl).
    + intros l Hl. apply IH. lia.
    + simpl. lia.
    + exists res. split; [exact Hres | exact Hincl].
Qed.

(** [placeRect] returns, and every free node it leaves lies within a
    former free node and is apart from the rectangle placed. *)
Lemma placeRect_total (free : list Rect) (u : Rect) :
  exists free',
    placeRect free u = Some free' /\
    forall r, In r free' ->
              apart u r /\ exists f, In f free /\ inside r f.
Proof.
  unfold placeRect.
  destruct (placeLoop_total u (S (5 * List.length free)) [] free)
    as (split & Hsplit & Hin).
  { pose proof (placeCost_bound u free). lia. }
  rewrite Hsplit. simpl. unfold pruneFreeList.
  destruct (pruneLoop_total (S (List.length split)) split) as (res & Hres & Hincl);
    [lia|].
  exists res. split; [exact Hres|].
  intros r Hr. destruct (Hin r (Hincl r Hr)) as [[] | H]. exact H.
Qed.

Lemma findBestNode_fold (w h : Z) (all : list Rect) :
  forall (free : list Rect) (acc : option Z * Rect),
    incl free all ->
    (forall s, fst acc = Some s ->
               exists f, In f all /\ w <= width f /\ h <= height f /\
                         snd acc = {| x := x f; y := y f;
                                      width := w; height := h |}) ->
    forall s, fst (fold_left (findBestNode_step w h) free acc) = Some s ->
              exists f, In f all /\ w <= width f /\ h <= height f /\
                        snd (fold_left (findBestNode_step w h) free acc)
                        = {| x := x f; y := y f; width := w; height := h |}.
Proof.
  induction free as [|g free IH]; intros acc Hincl Hacc; simpl; [exact Hacc|].
  apply IH; [intros r Hr; apply Hincl; right; exact Hr|].
  unfold findBestNode_step.
  destruct (_ && _) eqn:Hfit; [|exact Hacc].
  destruct (score_lt _ _); [|exact Hacc].
  simpl. intros s _. exists g.
  apply andb_prop in Hfit. destruct Hfit.
  split; [apply Hincl; left; reflexivity|]. repeat split; lia.
Qed.

Lemma findBestNode_some (free : list Rect) (w h s : Z) :
  fst (findBestNode free w h) = Some s ->
  exists f, In f free /\ w <= width f /\ h <= height f /\
            snd (findBestNode free w h)
            = {| x := x f; y := y f; width := w; height := h |}.
Proof.
  unfold findBestNode. apply findBestNode_fold; [apply incl_refl|].
  simpl. discriminate.
Qed.

(** [insert] returns; a rectangle it places is apart from those placed
    before, and the free nodes stay clear of all of them. *)
Lemma insert_total (p : MaxRectsPacker) (task : OptimizationTask)
      (placed : list PackedRect) :
  freeNodesClear (padding p) placed (freeRects p) ->
  exists res,
    insert p task = Some res /\
    padding (snd res) = padding p /\
    match fst res with
    | Some rect =>
        ptask rect = task /\
        Forall (fun r => paddedApart (padding p) r rect) placed /\
        freeNodesClear (padding p) (placed ++ [rect]) (freeRects (snd res))
    | None => snd res = p
    end.
Proof.
  intros Hclear. unfold insert.
  destruct (fst (findBestNode _ _ _)) as [s|] eqn:Hbest.
  - destruct (findBestNode_some _ _ _ _ Hbest) as (f & Hf & Hw & Hh & Hrect).
    rewrite Hrect.
    set (u := {| x := x f; y := y f;
                 width := targetWidth task + padding p;
                 height := targetHeight task + padding p |}).
    destruct (placeRect_total (freeRects p) u) as (free' & Hplace & Hfree').
    rewrite Hplace. simpl. eexists. split; [reflexivity|]. simpl.
    split; [reflexivity|].
    assert (Hu : inside u f) by (unfold inside, u; simpl; lia).
    split; [reflexivity|]. split.
    + apply Forall_forall. intros r Hr.
      unfold paddedApart.
      apply apart_inside with f; [apply Hclear; assumption|exact Hu].
    + intros r g Hr Hg.
      destruct (Hfree' g Hg) as (Hug & f0 & Hf0 & Hin0).
      apply in_app_or in Hr. destruct Hr as [Hr | [<- | []]].
      * apply apart_inside with f0; [apply Hclear; assumption | exact Hin0].
      * exact Hug.
  - eexists. split; [reflexivity|]. simpl. auto.
Qed.

Lemma ForallOrdPairs_snoc {A : Type} (R : A -> A -> Prop) (l : list A) (b : A) :
  ForallOrdPairs R l -> Forall (fun a => R a b) l ->
  ForallOrdPairs R (l ++ [b]).
Proof.
  induction 1 as [|a l Ha Hl IH]; intros Hb; simpl.
  - constructor; constructor.
  - inversion Hb; subst. constructor.
    + apply Forall_app. split; [exact Ha | constructor; [assumption | constructor]].
    + apply IH. assumption.
Qed.

Lemma ForallOrdPairs_nth {A : Type} (R : A -> A -> Prop) (l : list A) :
  (forall a b, R a b -> R b a) ->
  ForallOrdPairs R l ->
  forall (i j : nat) (a b : A),
    i <> j -> nth_error l i = Some a -> nth_error l j = Some b -> R a b.
Proof.
  intros Hsym Hl.
  assert (Hlt : forall i j a b,
             (i < j)%nat -> nth_error l i = Some a ->
             nth_error l j = Some b -> R a b).
  { induction Hl as [|c l Hc Hl IH]; intros i j a b Hij Hi Hj.
    - destruct i; discriminate.
    - destruct j as [|j]; [lia|]. simpl in Hj.
      destruct i as [|i]; simpl in Hi.
      + injection Hi as <-. rewrite Forall_forall in Hc.
        apply Hc. eapply nth_error_In; eassumption.
      + apply (IH i j); [lia | assumption | assumption]. }
  intros i j a b Hij Hi Hj.
  destruct (Nat.lt_ge_cases i j) as [H | H].
  - eapply Hlt; eassumption.
  - apply Hsym. apply (Hlt j i); [lia | assumption | assumption].
Qed.

(** The loop that fills a page returns; its items stay sound and no task
    is counted twice. *)
Lemma fillPage_total (maxSize : Z) :
  forall (remaining : list OptimizationTask) (p : MaxRectsPacker)
         (pageItems : list PackedRect) (didntFit : list OptimizationTask),
    freeNodesClear (padding p) pageItems (freeRects p) ->
    pageSound maxSize (padding p) pageItems ->
    exists res,
      fillPage maxSize p remaining pageItems didntFit = Some res /\
      pageSound maxSize (padding p) (fst res) /\
      (List.length (fst res) + List.length (snd res)
       <= List.length pageItems + List.length didntFit
          + List.length remaining)%nat.
Proof.
  induction remaining as [|task rest IH];
    intros p pageItems didntFit Hclear Hsound; simpl.
  - eexists. split; [reflexivity|]. simpl. split; [exact Hsound | lia].
  - destruct (_ || _) eqn:Hbig.
    + destruct (IH p pageItems didntFit Hclear Hsound) as (res & Hres & Hs & Hl).
      exists res. split; [exact Hres|]. split; [exact Hs | lia].
    + destruct (insert_total p task pageItems Hclear) as (r & Hr & Hpad & Hcase).
      rewrite Hr. simpl.
      destruct (fst r) as [rect|].
      * destruct Hcase as (Htask & Hapart & Hclear').
        destruct (IH (snd r) (pageItems ++ [rect]) didntFit) as (res & Hres & Hs & Hl).
        { rewrite Hpad. exact Hclear'. }
        { rewrite Hpad. destruct Hsound as [Hpairs Hfits]. split.
          - apply ForallOrdPairs_snoc; assumption.
          - apply Forall_app. split; [exact Hfits|].
            constructor; [|constructor]. rewrite Htask.
            apply orb_false_elim in Hbig. unfold oversized. lia. }
        exists res. split; [exact Hres|]. rewrite Hpad in Hs.
        split; [exact Hs|]. rewrite length_app in Hl. simpl in Hl. lia.
      * rewrite Hcase.
        destruct (IH p pageItems (didntFit ++ [task]) Hclear Hsound)
          as (res & Hres & Hs & Hl).
        exists res. split; [exact Hres|]. split; [exact Hs|].
        rewrite length_app in Hl. simpl in Hl. lia.
Qed.

(** The loop over the pages ends within its fuel and every page is
    sound. *)
Lemma packLoop_total (maxSize pad : Z) :
  forall (fuel : nat) (remaining : list OptimizationTask) (idx : Z),
    (List.length remaining < fuel)%nat ->
    exists pages,
      packLoop fuel maxSize pad remaining idx = Some pages /\
      Forall (fun page => pageSound maxSize pad (items page)) pages.
Proof.
  induction fuel as [|fuel IH]; intros remaining idx Hfuel; [lia|].
  destruct remaining as [|task rest]; [exists []; split; [reflexivity | constructor]|].
  cbn [packLoop].
  destruct (fillPage_total maxSize (task :: rest) (newPacker maxSize maxSize pad)
                           [] [])
    as (res & Hres & Hsound & Hlen).
  { intros r f []. }
  { split; constructor. }
  rewrite Hres. cbn [fbind]. simpl padding in Hsound.
  destruct (_ && _) eqn:Hbreak.
  - eexists. split; [reflexivity|]. constructor; [exact Hsound | constructor].
  - destruct (IH (snd res) (idx + 1)) as (pages & Hpages & Hall).
    { simpl in Hlen, Hfuel |- *.
      apply andb_false_iff in Hbreak.
      destruct Hbreak as [H | H]; apply Nat.eqb_neq in H; simpl in H; lia. }
    rewrite Hpages. cbn [fbind]. eexists. split; [reflexivity|].
    constructor; [exact Hsound | exact Hall].
Qed.

(** [packAtlases] returns for every input, and every page it returns is
    sound. *)
Lemma packAtlases_total (tasks : list OptimizationTask) (maxSize pad : Z) :
  exists pages,
    packAtlases tasks maxSize pad = Some pages /\
    Forall (fun page => pageSound maxSize pad (items page)) pages.
Proof.
  unfold packAtlases. apply packLoop_total. lia.
Qed.

(** Rectangles that are apart share no pixel. *)
Lemma apart_no_common_pixel (a b : Rect) (i j : Z) :
  apart a b -> ~ (covers a i j /\ covers b i j).
Proof. unfold apart, covers. lia. Qed.

(** C3 (as amended): with page size 2048 and padding 2 each of the two
    1024x1024 tasks needs 1026 pixels per axis, so the packer returns two
    pages, A alone on the first and B alone on the second, both at the
    origin, and reports an efficiency of 25% for each. *)
Theorem C3_two_tasks_two_pages (a b : OptimizationTask) :
  targetWidth a = 1024 -> targetHeight a = 1024 ->
  targetWidth b = 1024 -> targetHeight b = 1024 ->
  exists p0 p1,
    packAtlases [a; b] 2048 2 = Some [p0; p1] /\
    items p0 = [ {| px := 0; py := 0; pw := 1024; ph := 1024; ptask := a |} ] /\
    items p1 = [ {| px := 0; py := 0; pw := 1024; ph := 1024; ptask := b |} ] /\
    (efficiency p0 == 25)%Q /\ (efficiency p1 == 25)%Q.
Proof.
  destruct a, b; simpl; intros -> -> -> ->.
  do 2 eexists. split; [vm_compute; reflexivity|].
  repeat split; reflexivity.
Qed.

Lemma C3_two_tasks_two_pages_witness :
  exists p0 p1,
    packAtlases [Samples.taskA; Samples.taskB] 2048 2 = Some [p0; p1] /\
    items p0 = [ {| px := 0; py := 0; pw := 1024; ph := 1024;
                    ptask := Samples.taskA |} ] /\
    items p1 = [ {| px := 0; py := 0; pw := 1024; ph := 1024;
                    ptask := Samples.taskB |} ] /\
    (efficiency p0 == 25)%Q /\ (efficiency p1 == 25)%Q.
Proof.
  apply (C3_two_tasks_two_pages Samples.taskA Samples.taskB); reflexivity.
Defined.

(** C3 as stated fails: the result for [A; B] with page size 2048 and
    padding 2 is not a single page with two rectangles and 50%. *)
Lemma C3_counterexample :
  ~ exists page,
      packAtlases [Samples.taskA; Samples.taskB] 2048 2 = Some [page] /\
      List.length (items page) = 2%nat /\
      (efficiency page == 50)%Q.
Proof.
  intros (page & H & _). vm_compute in H. discriminate H.
Qed.

(** With no padding the two tasks do share one page at 50%. *)
Lemma two_tasks_one_page_without_padding :
  exists page,
    packAtlases [Samples.taskA; Samples.taskB] 2048 0 = Some [page] /\
    List.length (items page) = 2%nat /\
    (efficiency page == 50)%Q.
Proof.
  eexists. split; [vm_compute; reflexivity|]. split; reflexivity.
Qed.

(** C4 (as amended): the packer returns for every task list, and a task
    whose target width or height exceeds the page size is the task of no
    packed rectangle of any page; the pages, which are all the result
    holds, never mention it. *)
Theorem C4_oversized_never_packed
        (tasks : list OptimizationTask) (maxSize pad : Z) :
  exists pages,
    packAtlases tasks maxSize pad = Some pages /\
    forall task page rect,
      oversized maxSize task ->
      In page pages -> In rect (items page) -> ptask rect <> task.
Proof.
  destruct (packAtlases_total tasks maxSize pad) as (pages & Hpages & Hall).
  exists pages. split; [exact Hpages|].
  intros task page rect Hbig Hpage Hrect Heq.
  rewrite Forall_forall in Hall.
  destruct (Hall page Hpage) as [_ Hfits].
  rewrite Forall_forall in Hfits.
  apply (Hfits rect Hrect). rewrite Heq. exact Hbig.
Qed.

Lemma C4_oversized_never_packed_witness :
  exists pages,
    packAtlases [Samples.taskA; Samples.taskWide] 2048 2 = Some pages /\
    forall page rect,
      In page pages -> In rect (items page) -> ptask rect <> Samples.taskWide.
Proof.
  destruct (C4_oversized_never_packed [Samples.taskA; Samples.taskWide] 2048 2)
    as (pages & Hpages & Hnever).
  exists pages. split; [exact Hpages|].
  intros page rect. apply Hnever. left. reflexivity.
Defined.

(** C4 as stated fails in its second half: the result for a single
    oversized task is one empty page and nothing else, the same whatever
    the oversized task is, so it reports no task as oversized. *)
Lemma C4_counterexample :
  packAtlases [Samples.taskWide] 2048 2
  = Some [ {| page_id := 0; page_width := 2048; page_height := 2048;
              items := []; efficiency := (0 # 4194304)%Q |} ] /\
  packAtlases [Samples.taskWide] 2048 2 = packAtlases [Samples.taskTall] 2048 2.
Proof.
  split; vm_compute; reflexivity.
Qed.

(** C5: for every task list, page size and padding the packer returns,
    and any two packed rectangles at different positions of one page,
    each inflated by the padding on its right and bottom edges, are kept
    apart by a vertical or horizontal line. *)
Theorem C5_packed_rects_disjoint
        (tasks : list OptimizationTask) (maxSize pad : Z) :
  exists pages,
    packAtlases tasks maxSize pad = Some pages /\
    forall page i j a b,
      In page pages -> i <> j ->
      nth_error (items page) i = Some a ->
      nth_error (items page) j = Some b ->
      paddedApart pad a b.
Proof.
  destruct (packAtlases_total tasks maxSize pad) as (pages & Hpages & Hall).
  exists pages. split; [exact Hpages|].
  intros page i j a b Hpage Hij Ha Hb.
  rewrite Forall_forall in Hall.
  destruct (Hall page Hpage) as [Hpairs _].
  apply (ForallOrdPairs_nth (paddedApart pad) (items page)) with i j;
    try assumption.
  intros r1 r2. apply apart_sym.
Qed.

Lemma C5_packed_rects_disjoint_witness :
  exists pages,
    packAtlases [Samples.task "a" 100 50; Samples.task "b" 100 80;
                 Samples.task "c" 30 80] 256 2 = Some pages /\
    forall page i j a b,
      In page pages -> i <> j ->
      nth_error (items page) i = Some a ->
      nth_error (items page) j = Some b ->
      paddedApart 2 a b.
Proof.
  exact (C5_packed_rects_disjoint
           [Samples.task "a" 100 50; Samples.task "b" 100 80;
            Samples.task "c" 30 80] 256 2).
Defined.

(** The inflated rectangles of two packed rectangles of a page share no
    pixel. *)
Corollary packed_rects_share_no_pixel
          (tasks : list OptimizationTask) (maxSize pad : Z) :
  exists pages,
    packAtlases tasks maxSize pad = Some pages /\
    forall page i j a b u v,
      In page pages -> i <> j ->
      nth_error (items page) i = Some a ->
      nth_error (items page) j = Some b ->
      ~ (covers (inflated pad a) u v /\ covers (inflated pad b) u v).
Proof.
  destruct (packAtlases_total tasks maxSize pad) as (pages & Hpages & Hall).
  exists pages. split; [exact Hpages|].
  intros page i j a b u v Hpage Hij Ha Hb.
  apply apart_no_common_pixel.
  rewrite Forall_forall in Hall.
  destruct (Hall page Hpage) as [Hpairs _].
  apply (ForallOrdPairs_nth (paddedApart pad) (items page)) with i j;
    try assumption.
  intros r1 r2. apply apart_sym.
Qed.

End PackerProperties.


(* ================================================================== *)
(** * Properties of maps *)

Section JsMapProperties.
Context {V : Type}.

Lemma get_set_same (m : JsMap.t V) (k : string) (v : V) :
  JsMap.get (JsMap.set m k v) k = Some v.
Proof.
  induction m as [|[k' v'] m IH]; simpl.
  - rewrite String.eqb_refl. reflexivity.
  - destruct (String.eqb k' k) eqn:E; simpl.
    + rewrite String.eqb_refl. reflexivity.
    + rewrite E. exact IH.
Qed.

Lemma get_set_other (m : JsMap.t V) (k k0 : string) (v : V) :
  k <> k0 -> JsMap.get (JsMap.set m k v) k0 = JsMap.get m k0.
Proof.
  intros Hne. induction m as [|[k' v'] m IH]; simpl.
  - destruct (String.eqb k k0) eqn:E; [apply String.eqb_eq in E; contradiction|].
    reflexivity.
  - destruct (String.eqb k' k) eqn:E; simpl.
    + apply String.eqb_eq in E. subst k'.
      destruct (String.eqb k k0) eqn:E0; [apply String.eqb_eq in E0; contradiction|].
      reflexivity.
    + destruct (String.eqb k' k0); [reflexivity | exact IH].
Qed.

Lemma get_some_in_keys (m : JsMap.t V) (k : string) (v : V) :
  JsMap.get m k = Some v -> In k (JsMap.keys m).
Proof.
  induction m as [|[k' v'] m IH]; simpl; [discriminate|].
  destruct (String.eqb k' k) eqn:E.
  - apply String.eqb_eq in E. auto.
  - intros H. right. apply IH, H.
Qed.

Lemma in_keys_get (m : JsMap.t V) (k : string) :
  In k (JsMap.keys m) -> exists v, JsMap.get m k = Some v.
Proof.
  induction m as [|[k' v'] m IH]; simpl; [intros []|].
  destruct (String.eqb k' k) eqn:E; [eexists; reflexivity|].
  intros [H | H]; [subst; rewrite String.eqb_refl in E; discriminate|].
  apply IH, H.
Qed.

(** [set] keeps the keys of a map apart. *)
Lemma keys_set_NoDup (m : JsMap.t V) (k : string) (v : V) :
  NoDup (JsMap.keys m) -> NoDup (JsMap.keys (JsMap.set m k v)).
Proof.
  induction m as [|[k' v'] m IH]; simpl; intros Hnd.
  - constructor; [intros [] | constructor].
  - inversion Hnd as [|? ? Hnotin Hnd']; subst.
    destruct (String.eqb k' k) eqn:E; simpl.
    + apply String.eqb_eq in E. subst. constructor; assumption.
    + constructor; [|apply IH, Hnd'].
      intros Hin. apply in_keys_get in Hin. destruct Hin as [w Hw].
      rewrite get_set_other in Hw.
      * apply get_some_in_keys in Hw. contradiction.
      * intros ->. rewrite String.eqb_refl in E. discriminate.
Qed.

End JsMapProperties.

(* ================================================================== *)
(** * Properties of the optimizer *)

Section OptimizerProperties.
Import Types Optimizer.

Lemma insertTask_in (cmp : string -> string -> Z) (t x : OptimizationTask)
      (l : list OptimizationTask) :
  In x (insertTask cmp t l) <-> x = t \/ In x l.
Proof.
  induction l as [|u l IH]; simpl.
  - intuition.
  - destruct (compareTasks cmp t u >? 0); simpl; rewrite ?IH; intuition.
Qed.

Lemma sortTasks_in (cmp : string -> string -> Z) (x : OptimizationTask)
      (l : list OptimizationTask) :
  In x (sortTasks cmp l) <-> In x l.
Proof.
  induction l as [|t l IH]; simpl; [reflexivity|].
  rewrite insertTask_in, IH. intuition.
Qed.

Lemma collectTasks_in (statsMap : JsMap.t GlobalAssetStat)
      (loadedImages : JsMap.t Image.t) (bufferPct : Q) (x : OptimizationTask) :
  In x (collectTasks statsMap loadedImages bufferPct) <->
  exists key original stat,
    In (key, original) loadedImages /\
    JsMap.get statsMap key = Some stat /\
    x = planTask stat original bufferPct.
Proof.
  induction loadedImages as [|[key original] rest IH]; simpl.
  - split; [intros [] | intros (? & ? & ? & [] & _)].
  - destruct (JsMap.get statsMap key) as [stat|] eqn:Hget; simpl; rewrite ?IH.
    + split.
      * intros [<- | (k & o & s0 & Hin & Hg & Hx)].
        -- exists key, original, stat. auto.
        -- exists k, o, s0. auto.
      * intros (k & o & s0 & [Heq | Hin] & Hg & Hx).
        -- injection Heq as -> ->. rewrite Hget in Hg. injection Hg as ->. auto.
        -- right. exists k, o, s0. auto.
    + split.
      * intros (k & o & s0 & Hin & Hg & Hx). exists k, o, s0. auto.
      * intros (k & o & s0 & [Heq | Hin] & Hg & Hx).
        -- injection Heq as -> ->. rewrite Hget in Hg. discriminate.
        -- exists k, o, s0. auto.
Qed.

Lemma ceilScaled_grows (m : Z) (bufferPct : Q) :
  0 <= m -> (0 <= bufferPct)%Q ->
  m <= ceilScaled m (1 + bufferPct / 100).
Proof.
  intros Hm Hb. unfold ceilScaled.
  rewrite <- (Qceiling_Z m) at 1. apply Qceiling_resp_le.
  assert (Hq : (0 <= inject_Z m)%Q).
  { change 0%Q with (inject_Z 0). rewrite <- Zle_Qle. exact Hm. }
  assert (Hd : (0 <= bufferPct / 100)%Q).
  { apply Qle_shift_div_l; [reflexivity|]. rewrite Qmult_0_l. exact Hb. }
  nra.
Qed.

(** Without buffer the scaled size is the size itself. *)
Lemma ceilScaled_unbuffered (m : Z) (bufferPct : Q) :
  (bufferPct == 0)%Q -> ceilScaled m (1 + bufferPct / 100) = m.
Proof.
  intros Hb. unfold ceilScaled.
  rewrite <- (Qceiling_Z m) at 2. apply Qceiling_comp.
  rewrite Hb. field.
Qed.

(** With a buffer of [k] quarters the scaled size is the ceiling of
    [m (4 + k) / 4]. *)
Lemma ceilScaled_quarters (m k : Z) (bufferPct : Q) :
  (bufferPct == inject_Z (25 * k))%Q ->
  ceilScaled m (1 + bufferPct / 100) = (m * (4 + k) + 3) / 4.
Proof.
  intros Hb. unfold ceilScaled.
  assert (Heq : (inject_Z m * (1 + bufferPct / 100) == (m * (4 + k)) # 4)%Q).
  { rewrite Hb, (Qmake_Qdiv (m * (4 + k)) 4).
    rewrite !inject_Z_mult, inject_Z_plus.
    change (inject_Z (Z.pos 4)) with 4%Q. change (inject_Z 25) with 25%Q.
    change (inject_Z 4) with 4%Q. field. }
  rewrite (Qceiling_comp _ _ Heq).
  unfold Qceiling, Qfloor, Qopp. cbn [Qnum Qden].
  Z.div_mod_to_equations. lia.
Qed.



(** Every task the planner emits stems from an image with a merged
    statistic. *)
Lemma planner_tasks_from_images
      (localeCompare : string -> string -> Z)
      (stats : list GlobalAssetStat) (loadedImages : JsMap.t Image.t)
      (bufferPct : Q) (task : OptimizationTask) :
  In task (calculateOptimizationTargets localeCompare stats loadedImages
                                        bufferPct) ->
  exists key original stat,
    In (key, original) loadedImages /\
    JsMap.get (buildStatsMap stats) key = Some stat /\
    task = planTask stat original bufferPct.
Proof.
  unfold calculateOptimizationTargets. rewrite sortTasks_in.
  apply collectTasks_in.
Qed.


Section ZipProperties.
Variable resizeImage : nat -> Blob -> Z -> Z -> bool -> option Blob.
Variable isSourcePremultiplied : bool.
Variable total : Z.

(** The loop makes one write and one progress call per task, in order. *)
Lemma zipLoop_written :
  forall (tasks : list OptimizationTask) (index : nat) (st : ZipRun),
    completed (zipLoop resizeImage total isSourcePremultiplied index tasks st)
    = completed st + Z.of_nat (List.length tasks) /\
    List.length (progress (zipLoop resizeImage total isSourcePremultiplied index tasks st))
    = (List.length (progress st) + List.length tasks)%nat /\
    exists ws,
      written (zipLoop resizeImage total isSourcePremultiplied index tasks st) = written st ++ ws /\
      List.length ws = List.length tasks /\
      forall i task,
        nth_error tasks i = Some task ->
        nth_error ws i = Some (fileName task, zipContent resizeImage isSourcePremultiplied (index + i)%nat task).
Proof.
  induction tasks as [|t rest IH]; intros index st.
  - cbn. split; [lia|]. split; [lia|].
    exists []. split; [symmetry; apply app_nil_r|]. split; [reflexivity|].
    intros [|i] task H; discriminate H.
  - destruct (IH (S index) (zipStep resizeImage total isSourcePremultiplied
                                    index t st))
      as (Hdone & Hprog & ws & Hws & Hlen & Hnth).
    cbn [zipLoop].
    cbn [zipStep completed progress written] in Hdone, Hprog, Hws.
    rewrite length_app in Hprog. cbn [List.length] in Hprog |- *.
    split; [rewrite Hdone; lia|].
    split; [rewrite Hprog; lia|].
    exists ((fileName t, zipContent resizeImage isSourcePremultiplied index t) :: ws).
    split; [rewrite Hws, <- app_assoc; reflexivity|].
    split; [cbn; rewrite Hlen; reflexivity|].
    intros [|i] task Hi; cbn in Hi |- *.
    + injection Hi as <-. rewrite Nat.add_0_r. reflexivity.
    + replace (index + S i)%nat with (S index + i)%nat by lia.
      apply Hnth, Hi.
Qed.

(** Tasks of other file names leave an entry of the folder as it is. *)
Lemma zipLoop_folder_other (name : string) :
  forall (tasks : list OptimizationTask) (index : nat) (st : ZipRun),
    (forall t, In t tasks -> fileName t <> name) ->
    JsMap.get (folder (zipLoop resizeImage total isSourcePremultiplied index tasks st)) name = JsMap.get (folder st) name.
Proof.
  induction tasks as [|t rest IH]; intros index st Hother; [reflexivity|].
  cbn [zipLoop]. rewrite IH.
  - cbn. apply get_set_other. apply Hother. left. reflexivity.
  - intros t' Ht'. apply Hother. right. exact Ht'.
Qed.

Lemma zipLoop_folder_at :
  forall (tasks : list OptimizationTask) (index : nat) (st : ZipRun)
         (i : nat) (task : OptimizationTask),
    nth_error tasks i = Some task ->
    (forall j later, (i < j)%nat -> nth_error tasks j = Some later ->
                     fileName later <> fileName task) ->
    JsMap.get (folder (zipLoop resizeImage total isSourcePremultiplied index tasks st)) (fileName task)
    = Some (zipContent resizeImage isSourcePremultiplied (index + i)%nat task).
Proof.
  induction tasks as [|t rest IH]; intros index st i task Hi Hlater.
  - destruct i; discriminate.
  - cbn [zipLoop]. destruct i as [|i]; cbn in Hi.
    + injection Hi as ->.
      rewrite (zipLoop_folder_other (fileName task)).
      * cbn. rewrite Nat.add_0_r. apply get_set_same.
      * intros t' Ht'. apply In_nth_error in Ht'. destruct Ht' as [j Hj].
        apply (Hlater (S j) t'); [lia | exact Hj].
    + replace (index + S i)%nat with (S index + i)%nat by lia.
      apply IH; [exact Hi|].
      intros j later Hij Hj. apply (Hlater (S j) later); [lia | exact Hj].
Qed.

End ZipProperties.

(** C8: when the resize of a task marked [isResize] fails (returns no
    blob), the entry written for that task is its file name with the
    original blob unchanged; the loop goes on over all tasks (one write and
    one progress call per task), and the archive holds the original blob
    under that name unless a later task writes the same name. *)
Theorem C8_resize_failure_keeps_source
        (resizeImage : nat -> Blob -> Z -> Z -> bool -> option Blob)
        (tasks : list OptimizationTask) (isSourcePremultiplied : bool)
        (i : nat) (task : OptimizationTask) :
  nth_error tasks i = Some task ->
  isResize task = true ->
  resizeImage i (blob task) (targetWidth task) (targetHeight task)
              isSourcePremultiplied = None ->
  let run := generateOptimizedZip resizeImage tasks isSourcePremultiplied in
  nth_error (written run) i = Some (fileName task, blob task) /\
  List.length (written run) = List.length tasks /\
  completed run = Z.of_nat (List.length tasks) /\
  List.length (progress run) = List.length tasks /\
  ((forall j later, (i < j)%nat -> nth_error tasks j = Some later ->
                    fileName later <> fileName task) ->
   JsMap.get (folder run) (fileName task) = Some (blob task)).
Proof.
  intros Hi Hresize Hfail run. subst run.
  unfold generateOptimizedZip, zipFolder.
  set (st0 := {| folder := []; written := []; completed := 0; progress := [] |}).
  destruct (zipLoop_written resizeImage isSourcePremultiplied
                            (Z.of_nat (List.length tasks)) tasks O st0)
    as (Hdone & Hprog & ws & Hws & Hlen & Hnth).
  assert (Hcontent : zipContent resizeImage isSourcePremultiplied i task
                     = blob task).
  { unfold zipContent. rewrite Hresize, Hfail. reflexivity. }
  cbn [app written st0] in Hws.
  split; [|split; [|split; [|split]]].
  - rewrite Hws, (Hnth i task Hi). cbn. rewrite Hcontent. reflexivity.
  - rewrite Hws. exact Hlen.
  - rewrite Hdone. reflexivity.
  - rewrite Hprog. reflexivity.
  - intros Hlater.
    rewrite (zipLoop_folder_at resizeImage isSourcePremultiplied
                               (Z.of_nat (List.length tasks)) tasks O st0 i task Hi Hlater).
    cbn. rewrite Hcontent. reflexivity.
Qed.

Lemma C8_resize_failure_keeps_source_witness :
  let tasks := [ Samples.resized "a.png" [Byte.x01];
                 Samples.resized "b.png" [Byte.x02];
                 Samples.resized "c.png" [Byte.x03] ] in
  let run := generateOptimizedZip Samples.failSecond tasks true in
  nth_error (written run) 1 = Some ("b.png"%string, [Byte.x02]) /\
  List.length (written run) = 3%nat /\
  JsMap.get (folder run) "b.png" = Some [Byte.x02].
Proof.
  intros tasks run.
  destruct (C8_resize_failure_keeps_source
              Samples.failSecond tasks true 1
              (Samples.resized "b.png" [Byte.x02]))
    as (Hw & Hlen & _ & _ & Hfolder); try reflexivity.
  split; [exact Hw|]. split; [exact Hlen|].
  apply Hfolder.
  intros [|[|[|j]]] later Hj Hnth; try lia; cbn in Hnth.
  - injection Hnth as <-. discriminate.
  - destruct j; discriminate.
Defined.

End OptimizerProperties.


(* ================================================================== *)
(** * Properties of the scale timelines *)

Section TimelineProperties.
Import SpineParser.

Lemma Qlt_bool_true (a b : Q) : (a < b)%Q -> Qlt_bool a b = true.
Proof.
  intros H. unfold Qlt_bool. apply negb_true_iff.
  destruct (Qle_bool b a) eqn:E; [|reflexivity].
  apply Qle_bool_iff in E. exfalso. exact (Qlt_not_le _ _ H E).
Qed.

Lemma Qlt_bool_false (a b : Q) : (b <= a)%Q -> Qlt_bool a b = false.
Proof.
  intros H. unfold Qlt_bool. apply negb_false_iff. apply Qle_bool_iff, H.
Qed.

Lemma Qle_bool_false (a b : Q) : (b < a)%Q -> Qle_bool a b = false.
Proof.
  intros H. destruct (Qle_bool a b) eqn:E; [|reflexivity].
  apply Qle_bool_iff in E. exfalso. exact (Qlt_not_le _ _ H E).
Qed.

(** C9: for a non-empty scale timeline and a sample time strictly before
    the time of the first key the scale factor is the identity (1, 1). *)
Theorem C9_before_first_key_identity
        (first : TimelineEntry) (following : list TimelineEntry) (t : Q) :
  (t < getTime first)%Q ->
  getAnimationScaleFactor (first :: following) t = (1, 1)%Q.
Proof.
  intros H. unfold getAnimationScaleFactor.
  rewrite (Qlt_bool_true _ _ H). reflexivity.
Qed.

Lemma C9_before_first_key_identity_witness :
  getAnimationScaleFactor
    [ Some {| time := Some 2%Q; kx := Some 3%Q; ky := Some 5%Q;
              curve := None |};
      Some {| time := Some 4%Q; kx := Some 7%Q; ky := Some 7%Q;
              curve := None |} ] 1%Q
  = (1, 1)%Q.
Proof.
  apply C9_before_first_key_identity. reflexivity.
Defined.

Lemma chronological_nth (timeline : list TimelineEntry) :
  chronological timeline ->
  forall i j a b,
    (i <= j)%nat -> nth_error timeline i = Some a ->
    nth_error timeline j = Some b -> (getTime a <= getTime b)%Q.
Proof.
  induction 1 as [|c l Hl IH Hc]; intros i j a b Hij Hi Hj.
  - destruct i; discriminate.
  - destruct i as [|i], j as [|j]; cbn in Hi, Hj; try lia.
    + injection Hi as <-. injection Hj as <-. apply Qle_refl.
    + injection Hi as <-. rewrite Forall_forall in Hc.
      apply Hc. eapply nth_error_In; eassumption.
    + apply (IH i j); [lia | assumption | assumption].
Qed.

(** The [while] loop stops at the last key that is not after the sample
    time. *)
Lemma advance_stops (t : Q) :
  forall (following : list TimelineEntry) (idx n : nat) (next : TimelineEntry),
    (forall j e, (j < n)%nat -> nth_error following j = Some e ->
                 (getTime e <= t)%Q) ->
    nth_error following n = Some next ->
    (t < getTime next)%Q ->
    advance following t idx = (idx + n)%nat.
Proof.
  induction following as [|k following IH]; intros idx n next Hbefore Hn Hlt.
  - destruct n; discriminate.
  - destruct n as [|n]; cbn in Hn |- *.
    + injection Hn as ->. rewrite (Qle_bool_false _ _ Hlt). lia.
    + assert (Hk : Qle_bool (getTime k) t = true).
      { apply Qle_bool_iff. apply (Hbefore O k); [lia | reflexivity]. }
      rewrite Hk. rewrite (IH (S idx) n next); [lia | | exact Hn | exact Hlt].
      intros j e Hj He. apply (Hbefore (S j) e); [lia | exact He].
Qed.

(** In a timeline whose keys are in the order of their times, a sample time
    from the time of one key up to the time of the next is answered from
    these two keys. *)
Lemma interpolation_between_keys
      (timeline : list TimelineEntry) (t : Q) (i : nat)
      (prevKey nextKey : ScaleKey) :
  chronological timeline ->
  nth_error timeline i = Some (Some prevKey) ->
  nth_error timeline (S i) = Some (Some nextKey) ->
  (getTime (Some prevKey) <= t)%Q ->
  (t < getTime (Some nextKey))%Q ->
  let prev := Some prevKey in
  let next := Some nextKey in
  let percent := ((t - getTime prev) / (getTime next - getTime prev))%Q in
  (curve prevKey = Some Stepped ->
   getAnimationScaleFactor timeline t = (getX prev, getY prev)) /\
  (curve prevKey <> Some Stepped ->
   getAnimationScaleFactor timeline t
   = ((getX prev + (getX next - getX prev) * percent)%Q,
      (getY prev + (getY next - getY prev) * percent)%Q)).
Proof.
  intros Hsorted Hprev Hnext Hle Hlt prev next percent.
  assert (Hbody :
            getAnimationScaleFactor timeline t
            = if isStepped prevKey then (getX prev, getY prev)
              else ((getX prev + (getX next - getX prev) * percent)%Q,
                    (getY prev + (getY next - getY prev) * percent)%Q)).
  { destruct timeline as [|first following]; [destruct i; discriminate|].
    unfold getAnimationScaleFactor.
    (* the sample time is not before the first key *)
    assert (Hfirst : (getTime first <= t)%Q).
    { apply Qle_trans with (getTime prev); [|exact Hle].
      apply (chronological_nth _ Hsorted O i); [lia | reflexivity | exact Hprev]. }
    rewrite (Qlt_bool_false _ _ Hfirst).
    (* and it is before the last key *)
    set (lastIndex := (List.length (first :: following) - 1)%nat).
    assert (Hlen : (S i < List.length (first :: following))%nat).
    { apply nth_error_Some. rewrite Hnext. discriminate. }
    assert (Hlast : nth_error (first :: following) lastIndex
                    = Some (nth lastIndex (first :: following) None)).
    { apply nth_error_nth'. unfold lastIndex. lia. }
    assert (Hafter : (t < getTime (nth lastIndex (first :: following) None))%Q).
    { apply Qlt_le_trans with (getTime next); [exact Hlt|].
      apply (chronological_nth _ Hsorted (S i) lastIndex);
        [unfold lastIndex; lia | exact Hnext | exact Hlast]. }
    rewrite (Qle_bool_false _ _ Hafter).
    (* the loop stops at [i] *)
    rewrite (advance_stops t following O i next).
    - cbn [Nat.add]. rewrite Hprev, Hnext.
      fold prev next.
      assert (Hdur : Qlt_bool 0 (getTime next - getTime prev) = true).
      { apply Qlt_bool_true. unfold Qminus. rewrite <- Qlt_minus_iff.
        apply Qle_lt_trans with t; assumption. }
      rewrite Hdur. reflexivity.
    - intros j e Hj He.
      apply Qle_trans with (getTime prev); [|exact Hle].
      apply (chronological_nth _ Hsorted (S j) i); [lia | exact He | exact Hprev].
    - exact Hnext.
    - exact Hlt. }
  split; intros Hcurve; rewrite Hbody; unfold isStepped.
  - rewrite Hcurve. reflexivity.
  - destruct (curve prevKey) as [[|]|]; [contradiction | reflexivity | reflexivity].
Qed.






End TimelineProperties.


(* ================================================================== *)
(** * Properties of the image lookup *)

Section FindImageProperties.
Import SpineParser.
Context {V : Type}.

Lemma endsWith_length (k suffix : string) :
  JsString.endsWith k suffix = true ->
  (String.length suffix <= String.length k)%nat.
Proof.
  unfold JsString.endsWith. intros H. apply andb_prop in H.
  destruct H as [H _]. apply Nat.leb_le, H.
Qed.

Lemma preferShorter_idem (k : string) (best : option string) :
  preferShorter k (preferShorter k best) = preferShorter k best.
Proof.
  unfold preferShorter. destruct best as [b|].
  - destruct (Nat.ltb (String.length k) (String.length b)) eqn:E.
    + rewrite Nat.ltb_irrefl. reflexivity.
    + rewrite E. reflexivity.
  - rewrite Nat.ltb_irrefl. reflexivity.
Qed.

(** The loop over the suffixes updates the best match once, when the key
    ends with one of them. *)
Lemma scanSuffixes_eq (k : string) :
  forall (suffixes : list string) (best : option string),
    scanSuffixes k suffixes best
    = if matchesSuffix suffixes k then preferShorter k best else best.
Proof.
  unfold matchesSuffix.
  induction suffixes as [|suffix suffixes IH]; intros best; cbn; [reflexivity|].
  rewrite IH. destruct (JsString.endsWith k suffix); cbn.
  - rewrite preferShorter_idem. destruct (existsb _ _); reflexivity.
  - reflexivity.
Qed.

(** The best match over the keys seen: none when no key matches, else a
    matching key that no matching key is shorter than. *)
Lemma bestSuffixMatch_fold (suffixes : list string) :
  forall (fileKeys seen : list string) (best : option string),
    match best with
    | None => forall k, In k seen -> matchesSuffix suffixes k = false
    | Some b =>
        In b seen /\ matchesSuffix suffixes b = true /\
        forall k, In k seen -> matchesSuffix suffixes k = true ->
                  (String.length b <= String.length k)%nat
    end ->
    match fold_left (fun acc fileKey => scanSuffixes fileKey suffixes acc)
                    fileKeys best with
    | None => forall k, In k (seen ++ fileKeys) ->
                        matchesSuffix suffixes k = false
    | Some b =>
        In b (seen ++ fileKeys) /\ matchesSuffix suffixes b = true /\
        forall k, In k (seen ++ fileKeys) -> matchesSuffix suffixes k = true ->
                  (String.length b <= String.length k)%nat
    end.
Proof.
  induction fileKeys as [|fileKey fileKeys IH]; intros seen best Hbest; cbn.
  - rewrite app_nil_r. exact Hbest.
  - replace (seen ++ fileKey :: fileKeys) with ((seen ++ [fileKey]) ++ fileKeys)
      by (rewrite <- app_assoc; reflexivity).
    apply IH. rewrite scanSuffixes_eq.
    destruct (matchesSuffix suffixes fileKey) eqn:Hm.
    + unfold preferShorter. destruct best as [b|].
      * destruct Hbest as (Hb & Hbm & Hmin).
        destruct (Nat.ltb (String.length fileKey) (String.length b)) eqn:E.
        -- apply Nat.ltb_lt in E.
           split; [apply in_or_app; right; left; reflexivity|].
           split; [exact Hm|].
           intros k Hk Hkm. apply in_app_or in Hk.
           destruct Hk as [Hk | [<- | []]]; [|lia].
           specialize (Hmin k Hk Hkm). lia.
        -- apply Nat.ltb_ge in E.
           split; [apply in_or_app; left; exact Hb|].
           split; [exact Hbm|].
           intros k Hk Hkm. apply in_app_or in Hk.
           destruct Hk as [Hk | [<- | []]]; [auto | lia].
      * split; [apply in_or_app; right; left; reflexivity|].
        split; [exact Hm|].
        intros k Hk Hkm. apply in_app_or in Hk.
        destruct Hk as [Hk | [<- | []]]; [|lia].
        rewrite (Hbest k Hk) in Hkm. discriminate.
    + destruct best as [b|].
      * destruct Hbest as (Hb & Hbm & Hmin).
        split; [apply in_or_app; left; exact Hb|].
        split; [exact Hbm|].
        intros k Hk Hkm. apply in_app_or in Hk.
        destruct Hk as [Hk | [<- | []]]; [auto|].
        rewrite Hm in Hkm. discriminate.
      * intros k Hk. apply in_app_or in Hk.
        destruct Hk as [Hk | [<- | []]]; [auto | exact Hm].
Qed.

Lemma bestSuffixMatch_spec (fileKeys suffixes : list string) :
  match bestSuffixMatch fileKeys suffixes with
  | None => forall k, In k fileKeys -> matchesSuffix suffixes k = false
  | Some b =>
      In b fileKeys /\ matchesSuffix suffixes b = true /\
      forall k, In k fileKeys -> matchesSuffix suffixes k = true ->
                (String.length b <= String.length k)%nat
  end.
Proof.
  unfold bestSuffixMatch.
  apply (bestSuffixMatch_fold suffixes fileKeys [] None).
  intros k [].
Qed.

(** The second step returns the first extension whose key is in the
    index. *)
Lemma findWithExtension_first (availableFiles : JsMap.t V) (n : string) :
  forall (exts pre post : list string) (ext : string) (data : V),
    exts = pre ++ ext :: post ->
    (forall e, In e pre -> JsMap.get availableFiles (n ++ e) = None) ->
    JsMap.get availableFiles (n ++ ext) = Some data ->
    findWithExtension availableFiles n exts = Some ((n ++ ext)%string, data).
Proof.
  intros exts pre. revert exts.
  induction pre as [|e pre IH]; intros exts post ext data -> Hpre Hget; cbn.
  - rewrite Hget. reflexivity.
  - rewrite (Hpre e) by (left; reflexivity).
    apply (IH _ post); [reflexivity | | exact Hget].
    intros e' He'. apply Hpre. right. exact He'.
Qed.

Lemma findWithExtension_none (availableFiles : JsMap.t V) (n : string) :
  forall exts : list string,
    (forall e, In e exts -> JsMap.get availableFiles (n ++ e) = None) ->
    findWithExtension availableFiles n exts = None.
Proof.
  induction exts as [|e exts IH]; intros Hall; cbn; [reflexivity|].
  rewrite (Hall e) by (left; reflexivity).
  apply IH. intros e' He'. apply Hall. right. exact He'.
Qed.

Lemma matchesSuffix_nonempty (n : string) (dotted : bool) (k : string) :
  matchesSuffix (searchSuffixes n dotted) k = true -> k <> EmptyString.
Proof.
  unfold matchesSuffix. intros H. apply existsb_exists in H.
  destruct H as (suffix & Hin & Hends).
  apply endsWith_length in Hends.
  assert (Hpos : (1 <= String.length suffix)%nat).
  { unfold searchSuffixes in Hin. destruct Hin as [<- | Hin]; [cbn; lia|].
    destruct dotted; [destruct Hin|].
    apply in_map_iff in Hin. destruct Hin as (e & <- & _). cbn. lia. }
  intros ->. cbn in Hends. lia.
Qed.


End FindImageProperties.

Section FindImageExamples.
Import SpineParser.



End FindImageExamples.


(* ================================================================== *)
(** * Properties of the aggregation *)

Section AggregationProperties.
Import Types SpineParser.
Variable skeletonName : string.

(** An observation leaves the statistics of the other keys as they are. *)
Lemma updateGlobalStats_other (m : JsMap.t GlobalAssetStat)
      (img : FoundImageResult) (animName key : string) :
  Found.lookupKey img <> key ->
  JsMap.get (updateGlobalStats skeletonName m img animName) key
  = JsMap.get m key.
Proof.
  intros Hne. unfold updateGlobalStats.
  destruct (Found.isLocalScaleOverridden img); [reflexivity|].
  destruct (JsMap.get m (Found.lookupKey img)) as [current|].
  - destruct (_ && _); [reflexivity|].
    destruct (_ >? _); [apply get_set_other, Hne|].
    destruct (_ =? _); [|reflexivity].
    destruct (_ && _); [apply get_set_other, Hne | reflexivity].
  - apply get_set_other, Hne.
Qed.

(** A setup-pose observation leaves a statistic that stems from an
    animation as it is, whatever its area. *)
Lemma updateGlobalStats_setup_keeps (m : JsMap.t GlobalAssetStat)
      (img : FoundImageResult) (key : string) (stat : GlobalAssetStat) :
  JsMap.get m key = Some stat ->
  Stat.sourceAnimation stat <> setupPoseName ->
  JsMap.get (updateGlobalStats skeletonName m img setupPoseName) key
  = Some stat.
Proof.
  intros Hget Hsrc.
  destruct (String.eqb (Found.lookupKey img) key) eqn:E.
  - apply String.eqb_eq in E. unfold updateGlobalStats.
    destruct (Found.isLocalScaleOverridden img); [exact Hget|].
    rewrite E, Hget. rewrite String.eqb_refl.
    apply String.eqb_neq in Hsrc. rewrite Hsrc. cbn. exact Hget.
  - apply String.eqb_neq in E. rewrite updateGlobalStats_other; assumption.
Qed.

(** An observation of an animation that does not bear the reserved name
    keeps the map animation-sourced. *)
Lemma updateGlobalStats_animation (m : JsMap.t GlobalAssetStat)
      (img : FoundImageResult) (animName : string) :
  animName <> setupPoseName ->
  animationSourced m ->
  animationSourced (updateGlobalStats skeletonName m img animName).
Proof.
  intros Hname Hm key stat.
  destruct (String.eqb (Found.lookupKey img) key) eqn:E.
  - apply String.eqb_eq in E. subst key. unfold updateGlobalStats.
    destruct (Found.isLocalScaleOverridden img); [apply Hm|].
    destruct (JsMap.get m (Found.lookupKey img)) as [current|] eqn:Hcur.
    + pose proof (Hm _ _ Hcur) as Hsrc.
      destruct (_ && _); [rewrite Hcur; intros H; injection H as <-; exact Hsrc|].
      destruct (_ >? _).
      { rewrite get_set_same. intros H. injection H as <-. exact Hname. }
      destruct (_ =? _); [|rewrite Hcur; intros H; injection H as <-; exact Hsrc].
      destruct (_ && _).
      * rewrite get_set_same. intros H. injection H as <-. exact Hsrc.
      * rewrite Hcur. intros H. injection H as <-. exact Hsrc.
    + rewrite get_set_same. intros H. injection H as <-. exact Hname.
  - apply String.eqb_neq in E. rewrite updateGlobalStats_other by exact E.
    apply Hm.
Qed.

Lemma pass1_animationSourced (results : list AnalysisResult) :
  reservedNameRespected results ->
  animationSourced (pass1 skeletonName results).
Proof.
  intros Hnames. unfold pass1.
  assert (Hgen : forall rs m,
             (forall r, In r rs -> Result.animationName r <> setupPoseName) ->
             animationSourced m ->
             animationSourced (fold_left (processResult skeletonName) rs m)).
  { induction rs as [|r rs IH]; intros m Hrs Hm; cbn; [exact Hm|].
    apply IH; [intros r' Hr'; apply Hrs; right; exact Hr'|].
    unfold processResult.
    assert (Hr : Result.animationName r <> setupPoseName)
      by (apply Hrs; left; reflexivity).
    generalize (Result.foundImages r) m Hm.
    induction l as [|img imgs IHi]; intros m0 Hm0; cbn; [exact Hm0|].
    apply IHi. apply updateGlobalStats_animation; assumption. }
  apply Hgen.
  - intros r Hr. apply filter_In in Hr. destruct Hr as [Hin Hflag].
    apply negb_true_iff in Hflag. apply (Hnames r Hin), Hflag.
  - intros key stat H. discriminate H.
Qed.

(** When the reserved name is respected, the setup pose never replaces a
    statistic that an animation contributed, whatever its area. *)
Lemma setup_pose_never_replaces_animation (results : list AnalysisResult) :
  reservedNameRespected results ->
  forall key stat,
    JsMap.get (pass1 skeletonName results) key = Some stat ->
    JsMap.get (aggregateGlobalStats skeletonName results) key = Some stat.
Proof.
  intros Hnames key stat Hget.
  pose proof (pass1_animationSourced results Hnames key stat Hget) as Hsrc.
  unfold aggregateGlobalStats, pass2.
  revert Hget. generalize (pass1 skeletonName results).
  assert (Hrs : forall r,
             In r (filter (fun r => Result.isSetupPose r) results) ->
             Result.animationName r = setupPoseName).
  { intros r Hr. apply filter_In in Hr. destruct Hr as [Hin Hflag].
    apply (Hnames r Hin), Hflag. }
  revert Hrs. generalize (filter (fun r => Result.isSetupPose r) results).
  induction l as [|r rs IH]; intros Hrs m Hget; cbn; [exact Hget|].
  apply IH; [intros r' Hr'; apply Hrs; right; exact Hr'|].
  unfold processResult. rewrite (Hrs r) by (left; reflexivity).
  revert m Hget. generalize (Result.foundImages r).
  induction l as [|img imgs IHi]; intros m Hget; cbn; [exact Hget|].
  apply IHi. apply updateGlobalStats_setup_keeps; assumption.
Qed.

End AggregationProperties.

Section AggregationExamples.
Import Types SpineParser.

(** C1 at an input that breaks it: an animation that is itself named
    "Setup Pose (Default)" contributes "hero.png" at 150x150 in the first
    pass; its statistic then passes for one of the setup pose, and the
    larger setup-pose observation (300x300) replaces it in the second. *)
Theorem C1_reserved_name_collision :
  let results := Samples.heroResults "Setup Pose (Default)" in
  option_map (fun s => (Stat.maxRenderWidth s, Stat.maxRenderHeight s))
             (JsMap.get (pass1 "Default" results) "hero.png")
  = Some (150, 150) /\
  option_map (fun s => (Stat.maxRenderWidth s, Stat.maxRenderHeight s))
             (JsMap.get (aggregateGlobalStats "Default" results) "hero.png")
  = Some (300, 300).
Proof.
  split; reflexivity.
Qed.

(** With any other name the animation's statistic stays (scenario S3). *)
Lemma idle_animation_keeps_its_statistic :
  let results := Samples.heroResults "idle" in
  option_map (fun s => (Stat.maxRenderWidth s, Stat.sourceAnimation s))
             (JsMap.get (aggregateGlobalStats "Default" results) "hero.png")
  = Some (150, "idle"%string).
Proof.
  reflexivity.
Qed.

End AggregationExamples.


(* ================================================================== *)
(** * Properties of the atlas parser *)

Section AtlasParserProperties.
Import AtlasParser.

Lemma applyProperty_name (region : AtlasRegion) (key val : string) :
  name (applyProperty region key val) = name region.
Proof.
  unfold applyProperty.
  repeat match goal with
         | |- context [if ?c then _ else _] => destruct c
         end; reflexivity.
Qed.

Lemma step_nameInStep (st : ParserState) (rawLine : string) :
  nameInStep st -> nameInStep (step st rawLine).
Proof.
  unfold nameInStep, step. intros Hst d.
  destruct (classify st rawLine) as [|line|key val|page line].
  - destruct (pendingRegion st) as [d0|] eqn:Hp.
    + unfold pendingRegion. cbn. discriminate.
    + unfold pendingRegion in Hp |- *. cbn. rewrite Hp. discriminate.
  - unfold pendingRegion in Hst |- *. cbn. apply Hst.
  - unfold pendingRegion in Hst |- *. cbn.
    destruct (currentRegion st) as [r|]; [|discriminate].
    destruct (currentRegionName st) as [n|]; [|discriminate].
    destruct (String.eqb n "") eqn:E; [discriminate|].
    intros H. injection H as <-. cbn. rewrite applyProperty_name.
    apply (Hst (n, r)). reflexivity.
  - unfold pendingRegion. cbn.
    destruct (String.eqb line ""); [discriminate|].
    intros H. injection H as <-. reflexivity.
Qed.

(** Every declaration is stored under the name of its record. *)
Lemma declarationsFrom_names :
  forall (lines : list string) (st : ParserState),
    nameInStep st ->
    forall d, In d (declarationsFrom st lines) -> name (snd d) = fst d.
Proof.
  induction lines as [|rawLine lines IH]; intros st Hst d Hd; cbn in Hd.
  - destruct (pendingRegion st) as [d0|] eqn:Hp; [|destruct Hd].
    destruct Hd as [<- | []]. apply Hst, Hp.
  - apply in_app_or in Hd. destruct Hd as [Hd | Hd].
    + unfold declaredAt in Hd.
      destruct (classify st rawLine); try (destruct Hd; fail);
        (destruct (pendingRegion st) as [d0|] eqn:Hp; [|destruct Hd]);
        destruct Hd as [<- | []]; apply Hst, Hp.
    + apply (IH (step st rawLine)); [apply step_nameInStep, Hst | exact Hd].
Qed.

(** The map of a turn of the loop is the former map with the declarations
    of that turn stored. *)
Lemma step_regions (st : ParserState) (rawLine : string) :
  regions (step st rawLine)
  = fold_left store (declaredAt st rawLine) (regions st).
Proof.
  unfold step, declaredAt, flush, store.
  destruct (classify st rawLine); cbn; try reflexivity;
    destruct (pendingRegion st) as [[n r]|]; reflexivity.
Qed.

(** The parser stores the declarations of the manifest one after the
    other. *)
Lemma parse_stores_declarations :
  forall (lines : list string) (st : ParserState),
    flush (fold_left step lines st)
    = fold_left store (declarationsFrom st lines) (regions st).
Proof.
  induction lines as [|rawLine lines IH]; intros st; cbn.
  - unfold flush, store. destruct (pendingRegion st) as [[n r]|]; reflexivity.
  - rewrite IH, fold_left_app, step_regions. reflexivity.
Qed.

Lemma store_all_NoDup (ds : list (string * AtlasRegion)) :
  forall m : AtlasAssetMap,
    NoDup (JsMap.keys m) -> NoDup (JsMap.keys (fold_left store ds m)).
Proof.
  induction ds as [|d ds IH]; intros m Hm; cbn; [exact Hm|].
  apply IH. apply keys_set_NoDup, Hm.
Qed.

Lemma store_others (n : string) (ds : list (string * AtlasRegion)) :
  forall m : AtlasAssetMap,
    (forall d, In d ds -> fst d <> n) ->
    JsMap.get (fold_left store ds m) n = JsMap.get m n.
Proof.
  induction ds as [|d ds IH]; intros m Hds; cbn; [reflexivity|].
  rewrite IH by (intros d' Hd'; apply Hds; right; exact Hd').
  apply get_set_other. apply Hds. left. reflexivity.
Qed.

(** In a map without repeated keys a key that is present has one record. *)
Lemma recordsNamed_one (m : AtlasAssetMap) (n : string) (r : AtlasRegion) :
  NoDup (JsMap.keys m) -> JsMap.get m n = Some r ->
  recordsNamed m n = [(n, r)].
Proof.
  unfold recordsNamed.
  induction m as [|[k v] m IH]; cbn; intros Hnd Hget; [discriminate|].
  inversion Hnd as [|? ? Hnotin Hnd']; subst.
  destruct (String.eqb k n) eqn:E.
  - apply String.eqb_eq in E. subst k. injection Hget as ->.
    f_equal. clear IH Hnd Hnd'.
    induction m as [|[k' v'] m IHm]; cbn; [reflexivity|].
    destruct (String.eqb k' n) eqn:E'.
    + apply String.eqb_eq in E'. subst k'. exfalso. apply Hnotin. left. reflexivity.
    + apply IHm. intros Hin. apply Hnotin. right. exact Hin.
  - apply IH; assumption.
Qed.

(** C10: the atlas parser keys its output by region name: when two region
    declarations of a manifest share a name and no later declaration bears
    it, the parsed map holds exactly one record under that name, and it is
    the record of the later declaration. *)
Theorem C10_later_declaration_wins
        (content : string)
        (before between after : list (string * AtlasRegion))
        (earlier later : string * AtlasRegion) :
  regionDeclarations content
  = before ++ earlier :: between ++ later :: after ->
  fst earlier = fst later ->
  (forall d, In d after -> fst d <> fst later) ->
  name (snd later) = fst later /\
  JsMap.get (parseAtlas content) (fst later) = Some (snd later) /\
  recordsNamed (parseAtlas content) (fst later) = [(fst later, snd later)].
Proof.
  intros Hdecl _ Hafter.
  assert (Hget : JsMap.get (parseAtlas content) (fst later) = Some (snd later)).
  { unfold parseAtlas. rewrite parse_stores_declarations.
    fold (regionDeclarations content). rewrite Hdecl.
    replace (before ++ earlier :: between ++ later :: after)
      with ((before ++ earlier :: between) ++ [later] ++ after)
      by (rewrite <- app_assoc; reflexivity).
    rewrite !fold_left_app. rewrite store_others by exact Hafter.
    cbn. apply get_set_same. }
  split; [|split; [exact Hget|]].
  - apply (declarationsFrom_names (splitLines content EmptyString) initialState).
    + intros d H. discriminate H.
    + fold (regionDeclarations content). rewrite Hdecl.
      apply in_or_app. right. right. apply in_or_app. right. left. reflexivity.
  - apply recordsNamed_one; [|exact Hget].
    unfold parseAtlas. rewrite parse_stores_declarations.
    apply store_all_NoDup. constructor.
Qed.

Lemma C10_later_declaration_wins_witness :
  map fst (regionDeclarations Samples.twoSwords)
  = ["sword"; "shield"; "sword"]%string /\
  JsMap.get (parseAtlas Samples.twoSwords) "sword" = Some Samples.secondSword /\
  recordsNamed (parseAtlas Samples.twoSwords) "sword"
  = [("sword"%string, Samples.secondSword)].
Proof.
  split; [reflexivity|].
  pose proof (C10_later_declaration_wins
                Samples.twoSwords []
                [nth 1 (regionDeclarations Samples.twoSwords)
                     (EmptyString, Samples.secondSword)]
                []
                (nth 0 (regionDeclarations Samples.twoSwords)
                     (EmptyString, Samples.secondSword))
                ("sword"%string, Samples.secondSword)) as H.
  destruct H as (_ & Hget & Hone).
  - reflexivity.
  - reflexivity.
  - intros d [].
  - split; [exact Hget | exact Hone].
Defined.

End AtlasParserProperties.

(* ================================================================== *)
(** * Further properties of the packer *)

Section PackerInvariants.
Import Types AtlasPacker PackerNotions.

Lemma isContained_inside (a b : Rect) :
  isContained a b = true <-> inside a b.
Proof.
  unfold isContained, inside. rewrite !andb_true_iff. lia.
Qed.

Lemma isContained_refl (a : Rect) : isContained a a = true.
Proof. apply isContained_inside, inside_refl. Qed.

Lemma inside_covers (a b : Rect) (i j : Z) :
  inside a b -> covers a i j -> covers b i j.
Proof. unfold inside, covers. lia. Qed.

(** What [insert] did when it returned. *)
Lemma insert_inv (p : MaxRectsPacker) (task : OptimizationTask)
      (res : option PackedRect * MaxRectsPacker) :
  insert p task = Some res ->
  (fst res = None /\ snd res = p /\
   forall f, In f (freeRects p) ->
             width f < targetWidth task + padding p \/
             height f < targetHeight task + padding p) \/
  (exists f,
      In f (freeRects p) /\
      targetWidth task + padding p <= width f /\
      targetHeight task + padding p <= height f /\
      fst res = Some {| px := x f; py := y f; pw := targetWidth task;
                        ph := targetHeight task; ptask := task |} /\
      padding (snd res) = padding p /\
      placeRect (freeRects p)
                {| x := x f; y := y f;
                   width := targetWidth task + padding p;
                   height := targetHeight task + padding p |}
      = Some (freeRects (snd res))).
Proof.
  unfold insert.
  destruct (fst (findBestNode _ _ _)) as [s|] eqn:Hbest.
  - destruct (findBestNode_some _ _ _ _ Hbest) as (f & Hf & Hw & Hh & Hrect).
    rewrite Hrect. cbn [x y].
    destruct (placeRect _ _) as [free'|] eqn:Hplace; cbn; [|discriminate].
    intros H. injection H as <-. right. exists f. cbn. repeat split; auto.
  - intros H. injection H as <-. left. cbn. split; [reflexivity|].
    split; [reflexivity|].
    (* no free node fits: the fold never left its initial score *)
    unfold findBestNode in Hbest.
    assert (Hgen : forall free acc,
               fst (fold_left (findBestNode_step
                                 (targetWidth task + padding p)
                                 (targetHeight task + padding p)) free acc)
               = None ->
               fst acc = None /\
               forall f, In f free ->
                         width f < targetWidth task + padding p \/
                         height f < targetHeight task + padding p).
    { induction free as [|g free IH]; intros acc Hacc; cbn in Hacc.
      - split; [exact Hacc | intros f []].
      - destruct (IH _ Hacc) as [Hstep Hrest].
        unfold findBestNode_step in Hstep.
        destruct (_ && _) eqn:Hfit.
        + destruct (score_lt _ (fst acc)) eqn:Hlt.
          * cbn in Hstep. discriminate.
          * destruct (fst acc); [discriminate | cbn in Hlt; discriminate].
        + split; [exact Hstep|].
          intros f [<- | Hf]; [|apply Hrest, Hf].
          apply andb_false_iff in Hfit. lia. }
    apply (Hgen _ _ Hbest).
Qed.

(** The items of a page only grow while it is filled. *)
Lemma fillPage_grows (maxSize : Z) :
  forall (remaining : list OptimizationTask) (p : MaxRectsPacker)
         (pageItems : list PackedRect) (didntFit : list OptimizationTask)
         (res : list PackedRect * list OptimizationTask),
    fillPage maxSize p remaining pageItems didntFit = Some res ->
    exists more, fst res = pageItems ++ more.
Proof.
  induction remaining as [|task rest IH]; intros p pageItems didntFit res H;
    cbn in H.
  - injection H as <-. exists []. cbn. symmetry. apply app_nil_r.
  - destruct (_ || _); [apply (IH _ _ _ _ H)|].
    destruct (insert p task) as [r|]; cbn in H; [|discriminate].
    destruct (fst r) as [rect|].
    + destruct (IH _ _ _ _ H) as [more Hmore].
      exists (rect :: more). rewrite Hmore, <- app_assoc. reflexivity.
    + apply (IH _ _ _ _ H).
Qed.

(** Filling a page keeps the free nodes and the items within the page and
    loses no task: each task that is not skipped ends among the items or
    among those that did not fit. *)
Lemma fillPage_inv (maxSize : Z) :
  forall (remaining : list OptimizationTask) (p : MaxRectsPacker)
         (pageItems : list PackedRect) (didntFit : list OptimizationTask)
         (res : list PackedRect * list OptimizationTask),
    fillPage maxSize p remaining pageItems didntFit = Some res ->
    (forall f, In f (freeRects p) -> inside f (pageRect maxSize)) ->
    (forall r, In r pageItems -> wellPlaced maxSize (padding p) r) ->
    (forall r, In r (fst res) -> wellPlaced maxSize (padding p) r) /\
    Permutation (map ptask (fst res) ++ snd res)
                (map ptask pageItems ++ didntFit
                 ++ filter (notOversized maxSize) remaining).
Proof.
  induction remaining as [|task rest IH];
    intros p pageItems didntFit res H Hfree Hitems; cbn in H.
  - injection H as <-. cbn. split; [exact Hitems|].
    rewrite app_nil_r. apply Permutation_refl.
  - cbn [filter]. unfold notOversized at 1.
    destruct (_ || _) eqn:Hbig; cbn [negb].
    + apply (IH _ _ _ _ H Hfree Hitems).
    + destruct (insert p task) as [r|] eqn:Hins; cbn in H; [|discriminate].
      destruct (insert_inv _ _ _ Hins)
        as [(Hnone & Hsame & _) | (f & Hf & Hw & Hh & Hsome & Hpad & Hplace)].
      * rewrite Hnone in H. rewrite Hsame in H.
        destruct (IH _ _ _ _ H Hfree Hitems) as [Hwell Hperm].
        split; [exact Hwell|].
        eapply Permutation_trans; [exact Hperm|].
        rewrite <- !app_assoc. cbn.
        apply Permutation_refl.
      * rewrite Hsome in H.
        destruct (placeRect_total (freeRects p)
                    {| x := x f; y := y f;
                       width := targetWidth task + padding p;
                       height := targetHeight task + padding p |})
          as (free' & Hplace' & Hfree').
        rewrite Hplace in Hplace'. injection Hplace' as Heq.
        destruct (IH _ _ _ _ H) as [Hwell Hperm].
        { intros g Hg. rewrite Heq in Hg.
          destruct (Hfree' g Hg) as (_ & f0 & Hf0 & Hin0).
          apply inside_trans with f0; [exact Hin0 | apply Hfree, Hf0]. }
        { rewrite Hpad. intros r0 Hr0. apply in_app_or in Hr0.
          destruct Hr0 as [Hr0 | [<- | []]]; [apply Hitems, Hr0|].
          unfold wellPlaced. cbn. split; [reflexivity|]. split; [reflexivity|].
          apply inside_trans with f; [|apply Hfree, Hf].
          unfold inside, inflated; cbn. lia. }
        rewrite Hpad in Hwell. split; [exact Hwell|].
        eapply Permutation_trans; [exact Hperm|].
        rewrite map_app. cbn. rewrite <- !app_assoc. cbn.
        apply Permutation_app_head.
        apply (Permutation_middle didntFit
                 (filter (notOversized maxSize) rest) task).
Qed.

(** Filtering respects permutations. *)
Lemma filter_perm {A : Type} (keep : A -> bool) (l1 l2 : list A) :
  Permutation l1 l2 -> Permutation (filter keep l1) (filter keep l2).
Proof.
  induction 1 as [|a l1 l2 Hp IHp|a b l1|l1 l2 l3 H1 IH1 H2 IH2]; cbn.
  - constructor.
  - destruct (keep a); [constructor|]; assumption.
  - destruct (keep a), (keep b); try apply Permutation_refl. constructor.
  - eapply Permutation_trans; eassumption.
Qed.

Lemma placeable_notOversized (maxSize pad : Z) (t : OptimizationTask) :
  placeable maxSize pad t = true -> notOversized maxSize t = true.
Proof.
  unfold placeable, notOversized. rewrite !andb_true_iff, negb_true_iff.
  intros [[[H1 H2] _] _]. apply orb_false_iff. lia.
Qed.

(** A packed rectangle that is well placed belongs to a placeable task,
    provided its task was not skipped. *)
Lemma wellPlaced_placeable (maxSize pad : Z) (r : PackedRect) :
  wellPlaced maxSize pad r ->
  notOversized maxSize (ptask r) = true ->
  placeable maxSize pad (ptask r) = true.
Proof.
  unfold wellPlaced, inside, inflated, pageRect, notOversized, placeable.
  cbn. intros (Hw & Hh & Hin) Hsmall.
  apply negb_true_iff, orb_false_iff in Hsmall.
  rewrite !andb_true_iff. lia.
Qed.

(** On an empty page the first placeable task is placed. *)
Lemma fillPage_fresh_places (maxSize pad : Z) :
  forall (remaining didntFit : list OptimizationTask)
         (res : list PackedRect * list OptimizationTask),
    fillPage maxSize (newPacker maxSize maxSize pad) remaining [] didntFit
    = Some res ->
    (exists t, In t remaining /\ placeable maxSize pad t = true) ->
    fst res <> [].
Proof.
  induction remaining as [|task rest IH]; intros didntFit res H (t & Ht & Hp).
  - destruct Ht.
  - cbn in H. destruct (_ || _) eqn:Hbig.
    + apply (IH _ _ H). exists t. split; [|exact Hp].
      destruct Ht as [<- | Ht]; [|exact Ht].
      apply placeable_notOversized in Hp. unfold notOversized in Hp.
      rewrite Hbig in Hp. discriminate.
    + destruct (insert _ task) as [r|] eqn:Hins; cbn in H; [|discriminate].
      destruct (insert_inv _ _ _ Hins)
        as [(Hnone & Hsame & Hnofit) | (f & _ & _ & _ & Hsome & _ & _)].
      * rewrite Hnone, Hsame in H. apply (IH _ _ H).
        exists t. split; [|exact Hp].
        destruct Ht as [<- | Ht]; [|exact Ht].
        exfalso. specialize (Hnofit (pageRect maxSize) (or_introl eq_refl)).
        unfold placeable in Hp. rewrite !andb_true_iff in Hp.
        cbn in Hnofit. lia.
      * rewrite Hsome in H. destruct (fillPage_grows _ _ _ _ _ _ H) as [more Hmore].
        rewrite Hmore. discriminate.
Qed.

(** The loop over the pages packs exactly the placeable tasks among those
    it is given, each once, every rectangle well placed, and numbers the
    pages from its index on. *)
Lemma packLoop_inv (maxSize pad : Z) :
  forall (fuel : nat) (remaining : list OptimizationTask) (idx : Z)
         (pages : list AtlasPage),
    packLoop fuel maxSize pad remaining idx = Some pages ->
    Permutation (packedTasks pages) (filter (placeable maxSize pad) remaining) /\
    (forall page r, In page pages -> In r (items page) ->
                    wellPlaced maxSize pad r) /\
    (forall k page, nth_error pages k = Some page ->
                    page_id page = idx + Z.of_nat k /\
                    page_width page = maxSize /\ page_height page = maxSize).
Proof.
  induction fuel as [|fuel IH]; intros remaining idx pages H; [discriminate|].
  destruct remaining as [|task rest].
  { injection H as <-. unfold packedTasks. cbn. split; [constructor|].
    split; [intros page r []|]. intros [|k] page Hk; discriminate. }
  cbn [packLoop] in H.
  destruct (fillPage _ _ _ _ _) as [res|] eqn:Hfill; cbn [fbind] in H;
    [|discriminate].
  destruct (fillPage_inv _ _ _ _ _ _ Hfill) as [Hwell Hperm].
  { intros f [<- | []]. apply inside_refl. }
  { intros r []. }
  cbn [padding newPacker map app] in Hwell, Hperm.
  set (page := {| page_id := idx; page_width := maxSize;
                  page_height := maxSize; items := fst res;
                  efficiency := pageEfficiency (fst res) maxSize |}) in H.
  (* the tasks of the items are placeable *)
  assert (Hitems : forall r, In r (fst res) ->
                             placeable maxSize pad (ptask r) = true).
  { intros r Hr. apply wellPlaced_placeable; [apply Hwell, Hr|].
    assert (Hin : In (ptask r) (filter (notOversized maxSize) (task :: rest))).
    { eapply Permutation_in; [exact Hperm|].
      apply in_or_app. left. apply in_map, Hr. }
    apply filter_In in Hin. apply Hin. }
  assert (Hsplit : Permutation
                     (map ptask (fst res)
                      ++ filter (placeable maxSize pad) (snd res))
                     (filter (placeable maxSize pad) (task :: rest))).
  { assert (Hf : forall l, (forall t, In t l -> placeable maxSize pad t = true) ->
                           filter (placeable maxSize pad) l = l).
    { induction l as [|a l IHl]; intros Hl; cbn; [reflexivity|].
      rewrite (Hl a) by (left; reflexivity). f_equal.
      apply IHl. intros t Ht. apply Hl. right. exact Ht. }
    rewrite <- (Hf (map ptask (fst res))).
    2:{ intros t Ht. apply in_map_iff in Ht. destruct Ht as (r & <- & Hr).
        apply Hitems, Hr. }
    rewrite <- filter_app.
    assert (Hnested : filter (placeable maxSize pad)
                             (filter (notOversized maxSize) (task :: rest))
                      = filter (placeable maxSize pad) (task :: rest)).
    { generalize (task :: rest). induction l as [|a l IHl]; cbn; [reflexivity|].
      destruct (notOversized maxSize a) eqn:Ha; cbn; rewrite IHl.
      - reflexivity.
      - destruct (placeable maxSize pad a) eqn:Hpa; [|reflexivity].
        apply placeable_notOversized in Hpa. rewrite Ha in Hpa. discriminate. }
    rewrite <- Hnested.
    apply filter_perm, Hperm. }
  destruct (_ && _) eqn:Hbreak.
  - injection H as <-. unfold packedTasks. cbn [flat_map items page app].
    rewrite app_nil_r.
    apply andb_prop in Hbreak. destruct Hbreak as [Hempty Hsame].
    apply Nat.eqb_eq in Hempty.
    assert (Hnil : fst res = []) by (destruct (fst res); [reflexivity | discriminate]).
    split.
    + rewrite Hnil.
      destruct (filter (placeable maxSize pad) (task :: rest)) as [|t l] eqn:Hflt;
        [apply perm_nil|].
      exfalso. apply (fillPage_fresh_places _ _ _ _ _ Hfill); [|exact Hnil].
      exists t. apply filter_In. rewrite Hflt. left. reflexivity.
    + split.
      * intros pg r [<- | []] Hr. apply Hwell, Hr.
      * intros [|[|k]] pg Hk; cbn in Hk; try discriminate.
        injection Hk as <-. cbn. repeat split. lia.
  - destruct (packLoop fuel maxSize pad (snd res) (idx + 1)) as [more|] eqn:Hmore;
      cbn [fbind] in H; [|discriminate].
    injection H as <-.
    destruct (IH _ _ _ Hmore) as (Hp & Hw & Hid).
    split; [|split].
    + unfold packedTasks in Hp |- *. cbn [flat_map items page].
      rewrite map_app.
      eapply Permutation_trans; [|exact Hsplit].
      apply Permutation_app_head. exact Hp.
    + intros pg r [<- | Hpg] Hr; [apply Hwell, Hr | apply (Hw pg r Hpg Hr)].
    + intros [|k] pg Hk; cbn in Hk.
      * injection Hk as <-. cbn. repeat split. lia.
      * destruct (Hid k pg Hk) as (H1 & H2 & H3). repeat split; try assumption. lia.
Qed.

Lemma insertByHeight_perm (t : OptimizationTask) (l : list OptimizationTask) :
  Permutation (insertByHeight t l) (t :: l).
Proof.
  induction l as [|u l IH]; cbn; [apply Permutation_refl|].
  destruct (targetHeight t <? targetHeight u); [|apply Permutation_refl].
  eapply Permutation_trans; [apply perm_skip, IH | apply perm_swap].
Qed.

Lemma sortByHeight_perm (l : list OptimizationTask) :
  Permutation (sortByHeight l) l.
Proof.
  induction l as [|t l IH]; cbn; [constructor|].
  eapply Permutation_trans; [apply insertByHeight_perm | apply perm_skip, IH].
Qed.

(** X1: every packed rectangle has the target size of its task and,
    inflated by the padding, lies within the page: its corner is not
    negative and its padded right and bottom edges are not beyond the page
    size. *)
Theorem X1_packed_rects_within_page
        (tasks : list OptimizationTask) (maxSize pad : Z) :
  exists pages,
    packAtlases tasks maxSize pad = Some pages /\
    forall page r,
      In page pages -> In r (items page) ->
      pw r = targetWidth (ptask r) /\ ph r = targetHeight (ptask r) /\
      0 <= px r /\ 0 <= py r /\
      px r + pw r + pad <= maxSize /\ py r + ph r + pad <= maxSize.
Proof.
  destruct (packAtlases_total tasks maxSize pad) as (pages & Hpages & _).
  exists pages. split; [exact Hpages|].
  unfold packAtlases in Hpages.
  destruct (packLoop_inv _ _ _ _ _ _ Hpages) as (_ & Hwell & _).
  intros page r Hpage Hr.
  destruct (Hwell page r Hpage Hr) as (Hw & Hh & Hin).
  unfold inside, inflated, pageRect in Hin. cbn in Hin. lia.
Qed.

(** X2: the packed rectangles of all pages carry exactly the placeable
    tasks of the input, each as often as it occurs there: the tasks within
    the page size whose padded size fits an empty page.  A task within the
    page size whose padded size does not fit is on no page. *)
Theorem X2_packs_exactly_the_placeable
        (tasks : list OptimizationTask) (maxSize pad : Z) :
  exists pages,
    packAtlases tasks maxSize pad = Some pages /\
    Permutation (packedTasks pages) (filter (placeable maxSize pad) tasks).
Proof.
  destruct (packAtlases_total tasks maxSize pad) as (pages & Hpages & _).
  exists pages. split; [exact Hpages|].
  unfold packAtlases in Hpages.
  destruct (packLoop_inv _ _ _ _ _ _ Hpages) as (Hperm & _ & _).
  eapply Permutation_trans; [exact Hperm|].
  apply filter_perm, sortByHeight_perm.
Qed.

(** X3: the pages are numbered 0, 1, 2, ... in the order of the result and
    each has the page size as its width and height. *)
Theorem X3_pages_numbered
        (tasks : list OptimizationTask) (maxSize pad : Z) :
  exists pages,
    packAtlases tasks maxSize pad = Some pages /\
    forall k page,
      nth_error pages k = Some page ->
      page_id page = Z.of_nat k /\
      page_width page = maxSize /\ page_height page = maxSize.
Proof.
  destruct (packAtlases_total tasks maxSize pad) as (pages & Hpages & _).
  exists pages. split; [exact Hpages|].
  unfold packAtlases in Hpages.
  destruct (packLoop_inv _ _ _ _ _ _ Hpages) as (_ & _ & Hid).
  intros k page Hk. destruct (Hid k page Hk) as (H1 & H2 & H3).
  split; [lia | split; assumption].
Qed.

Lemma unrelated_sym (a b : Rect) : unrelated a b -> unrelated b a.
Proof. unfold unrelated. intros [H1 H2]. split; assumption. Qed.

(** The inner loop of [pruneFreeList], given what the outer loop does on
    the lists it resumes on. *)
Lemma pruneInner_pruned (outer : list Rect -> fueled (list Rect)) :
  (forall l res, outer l = Some res -> pruned l res) ->
  forall (rect1 : Rect) (rest middle res : list Rect),
    (forall m, In m middle -> unrelated rect1 m) ->
    pruneInner outer rect1 middle rest = Some res ->
    pruned (rect1 :: middle ++ rest) res.
Proof.
  intros Houter rect1 rest.
  induction rest as [|rect2 tl IH]; intros middle res Hmiddle H; cbn in H.
  - destruct (outer middle) as [res'|] eqn:Hres'; cbn in H; [|discriminate].
    injection H as <-. destruct (Houter _ _ Hres') as (Hincl & Hpairs & Hcover).
    rewrite app_nil_r. split; [|split].
    + intros r [<- | Hr]; [left; reflexivity | right; apply Hincl, Hr].
    + constructor; [|exact Hpairs].
      apply Forall_forall. intros m Hm. apply Hmiddle, Hincl, Hm.
    + intros r [<- | Hr].
      * exists rect1. split; [left; reflexivity | apply inside_refl].
      * destruct (Hcover r Hr) as (s & Hs & Hin). exists s. split; [right|]; assumption.
  - destruct (isContained rect1 rect2) eqn:H12.
    + destruct (Houter _ _ H) as (Hincl & Hpairs & Hcover).
      split; [|split].
      * intros r Hr. right. apply Hincl, Hr.
      * exact Hpairs.
      * intros r [<- | Hr]; [|apply Hcover, Hr].
        destruct (Hcover rect2) as (s & Hs & Hin);
          [apply in_or_app; right; left; reflexivity|].
        exists s. split; [exact Hs|].
        apply inside_trans with rect2; [apply isContained_inside, H12 | exact Hin].
    + destruct (isContained rect2 rect1) eqn:H21.
      * destruct (IH _ _ Hmiddle H) as (Hincl & Hpairs & Hcover).
        split; [|split].
        -- intros r Hr. destruct (Hincl r Hr) as [<- | Hr']; [left; reflexivity|].
           right. apply in_app_or in Hr'. apply in_or_app.
           destruct Hr'; [left | right; right]; assumption.
        -- exact Hpairs.
        -- intros r [<- | Hr]; [apply Hcover; left; reflexivity|].
           apply in_app_or in Hr. destruct Hr as [Hr | [<- | Hr]].
           ++ apply Hcover. right. apply in_or_app. left. exact Hr.
           ++ destruct (Hcover rect1 (or_introl eq_refl)) as (s & Hs & Hin).
              exists s. split; [exact Hs|].
              apply inside_trans with rect1; [apply isContained_inside, H21 | exact Hin].
           ++ apply Hcover. right. apply in_or_app. right. exact Hr.
      * destruct (IH (middle ++ [rect2]) res) as (Hincl & Hpairs & Hcover).
        { intros m Hm. apply in_app_or in Hm.
          destruct Hm as [Hm | [<- | []]]; [apply Hmiddle, Hm|].
          split; assumption. }
        { exact H. }
        rewrite <- app_assoc in Hincl, Hcover. cbn in Hincl, Hcover.
        split; [exact Hincl | split; [exact Hpairs | exact Hcover]].
Qed.

Lemma pruneLoop_pruned :
  forall (fuel : nat) (l res : list Rect),
    pruneLoop fuel l = Some res -> pruned l res.
Proof.
  induction fuel as [|fuel IH]; intros l res H; [discriminate|].
  destruct l as [|rect1 others]; cbn in H.
  - injection H as <-. split; [apply incl_refl|]. split; [constructor|].
    intros r [].
  - apply (pruneInner_pruned (pruneLoop fuel) IH rect1 others [] res);
      [intros m [] | exact H].
Qed.

(** X4: [pruneFreeList] returns for every list; it only drops nodes, it
    leaves no node that is contained in another one (so no node twice),
    and every node it drops lies within a node it leaves. *)
Theorem X4_prune_leaves_maximal_nodes (l : list Rect) :
  exists res,
    pruneFreeList l = Some res /\
    incl res l /\
    (forall i j a b,
        i <> j -> nth_error res i = Some a -> nth_error res j = Some b ->
        isContained a b = false) /\
    (forall r, In r l -> exists s, In s res /\ inside r s).
Proof.
  unfold pruneFreeList.
  destruct (pruneLoop_total (S (List.length l)) l) as (res & Hres & _); [lia|].
  exists res. split; [exact Hres|].
  destruct (pruneLoop_pruned _ _ _ Hres) as (Hincl & Hpairs & Hcover).
  split; [exact Hincl|]. split; [|exact Hcover].
  intros i j a b Hij Ha Hb.
  apply (ForallOrdPairs_nth unrelated res unrelated_sym Hpairs i j a b Hij Ha Hb).
Qed.

(** The strips that [splitFreeNode] pushes cover the node outside the used
    rectangle. *)
Lemma splitFreeNode_covers (f u : Rect) (pushed : list Rect) (i j : Z) :
  splitFreeNode f u = Some pushed ->
  covers f i j -> ~ covers u i j -> covered pushed i j.
Proof.
  unfold splitFreeNode, covers, covered.
  destruct (_ || _) eqn:E; [discriminate|].
  rewrite !orb_false_iff in E. destruct E as [[[E1 E2] E3] E4].
  intros H Hf Hu. injection H as <-.
  assert (Hv : (x u <? x f + width f) && (x u + width u >? x f) = true) by lia.
  assert (Hh : (y u <? y f + height f) && (y u + height u >? y f) = true) by lia.
  rewrite Hv, Hh.
  assert (Hcase : j < y u \/ y u + height u <= j \/
                  i < x u \/ x u + width u <= i) by lia.
  destruct Hcase as [Hc | [Hc | [Hc | Hc]]].
  - assert (Ht : (y u >? y f) && (y u <? y f + height f) = true) by lia.
    rewrite Ht. eexists. split; [left; reflexivity|]. unfold covers; cbn; lia.
  - assert (Hb : (y u + height u <? y f + height f) = true) by lia.
    rewrite Hb. eexists. split.
    + apply in_or_app. left. apply in_or_app. right. left. reflexivity.
    + unfold covers; cbn; lia.
  - assert (Hl : (x u >? x f) && (x u <? x f + width f) = true) by lia.
    rewrite Hl. eexists. split.
    + apply in_or_app. right. left. reflexivity.
    + unfold covers; cbn; lia.
  - assert (Hr : (x u + width u <? x f + width f) = true) by lia.
    rewrite Hr. eexists. split.
    + apply in_or_app. right. apply in_or_app. right. left. reflexivity.
    + unfold covers; cbn; lia.
Qed.

(** The loop of [placeRect] keeps every pixel of a visited node and every
    pixel of a pending node outside the used rectangle. *)
Lemma placeLoop_covers (u : Rect) (i j : Z) :
  forall (fuel : nat) (visited pending res : list Rect),
    placeLoop fuel visited pending u = Some res ->
    covered visited i j \/ (covered pending i j /\ ~ covers u i j) ->
    covered res i j.
Proof.
  induction fuel as [|fuel IH]; intros visited pending res H Hpix; [discriminate|].
  destruct pending as [|f rest]; cbn in H.
  - injection H as <-. destruct Hpix as [Hv | [(g & [] & _) _]]. exact Hv.
  - destruct (splitFreeNode f u) as [pushed|] eqn:Hsplit.
    + apply (IH _ _ _ H).
      destruct Hpix as [Hv | [(g & [<- | Hg] & Hc) Hu]]; [left; exact Hv | |].
      * right. split; [|exact Hu].
        destruct (splitFreeNode_covers _ _ _ _ _ Hsplit Hc Hu) as (s & Hs & Hcs).
        exists s. split; [apply in_or_app; right; exact Hs | exact Hcs].
      * right. split; [|exact Hu].
        exists g. split; [apply in_or_app; left; exact Hg | exact Hc].
    + apply (IH _ _ _ H).
      destruct Hpix as [(g & Hg & Hc) | [(g & [<- | Hg] & Hc) Hu]].
      * left. exists g. split; [apply in_or_app; left; exact Hg | exact Hc].
      * left. exists f. split; [apply in_or_app; right; left; reflexivity | exact Hc].
      * right. split; [|exact Hu]. exists g. split; assumption.
Qed.

(** X5: [placeRect] returns for every free list and rectangle, and the
    pixels of the free nodes afterwards are exactly the pixels of the free
    nodes before that the rectangle does not cover: no free pixel is lost
    and none of the rectangle stays free. *)
Theorem X5_placeRect_frees_exactly_the_rest (free : list Rect) (u : Rect) :
  exists free',
    placeRect free u = Some free' /\
    forall i j,
      covered free' i j <-> covered free i j /\ ~ covers u i j.
Proof.
  destruct (placeRect_total free u) as (free' & Hplace & Hsound).
  exists free'. split; [exact Hplace|].
  intros i j. split.
  - intros (r & Hr & Hc). destruct (Hsound r Hr) as (Hapart & f & Hf & Hin).
    split.
    + exists f. split; [exact Hf | apply (inside_covers r f); assumption].
    + intros Hu. apply (apart_no_common_pixel u r i j Hapart). split; assumption.
  - intros [Hfree Hu]. unfold placeRect in Hplace.
    destruct (placeLoop _ _ _ _) as [split|] eqn:Hloop; cbn [fbind] in Hplace;
      [|discriminate].
    destruct (placeLoop_covers u i j _ _ _ _ Hloop) as (s & Hs & Hcs);
      [right; split; assumption|].
    unfold pruneFreeList in Hplace.
    destruct (pruneLoop_pruned _ _ _ Hplace) as (_ & _ & Hcover).
    destruct (Hcover s Hs) as (t & Ht & Hin).
    exists t. split; [exact Ht | apply (inside_covers s t); assumption].
Qed.

End PackerInvariants.

(* ================================================================== *)
(** * Further properties of the optimizer *)

Section PlannerInvariants.
Import Types Optimizer.

Lemma ForallOrdPairs_lt {A : Type} (R : A -> A -> Prop) (l : list A) :
  ForallOrdPairs R l ->
  forall (i j : nat) (a b : A),
    (i < j)%nat -> nth_error l i = Some a -> nth_error l j = Some b -> R a b.
Proof.
  induction 1 as [|c l Hc Hl IH]; intros i j a b Hij Hi Hj.
  - destruct i; discriminate.
  - destruct j as [|j]; [lia|]. cbn in Hj.
    destruct i as [|i]; cbn in Hi.
    + injection Hi as <-. rewrite Forall_forall in Hc.
      apply Hc. eapply nth_error_In; eassumption.
    + apply (IH i j); [lia | assumption | assumption].
Qed.

(** Inserting a task keeps the resizes ahead of the copies, whatever the
    collation of the names is. *)
Lemma insertTask_grouped (cmp : string -> string -> Z) (t : OptimizationTask)
      (l : list OptimizationTask) :
  ForallOrdPairs (fun a b => isResize b = true -> isResize a = true) l ->
  ForallOrdPairs (fun a b => isResize b = true -> isResize a = true)
                 (insertTask cmp t l).
Proof.
  induction 1 as [|u l Hu Hl IH]; cbn.
  - constructor; constructor.
  - rewrite Forall_forall in Hu.
    destruct (compareTasks cmp t u >? 0) eqn:Hc.
    + constructor; [|exact IH].
      apply Forall_forall. intros v Hv Hrv.
      apply insertTask_in in Hv. destruct Hv as [-> | Hv].
      * unfold compareTasks in Hc. rewrite Hrv in Hc.
        destruct (isResize u); [reflexivity | cbn in Hc; discriminate].
      * apply (Hu v Hv Hrv).
    + assert (Htu : isResize u = true -> isResize t = true).
      { intros Hru. unfold compareTasks in Hc. rewrite Hru in Hc.
        destruct (isResize t); [reflexivity | cbn in Hc; discriminate]. }
      constructor.
      * constructor; [exact Htu|].
        apply Forall_forall. intros v Hv Hrv. apply Htu, (Hu v Hv Hrv).
      * constructor; [apply Forall_forall; exact Hu | exact Hl].
Qed.

Lemma sortTasks_grouped (cmp : string -> string -> Z)
      (l : list OptimizationTask) :
  ForallOrdPairs (fun a b => isResize b = true -> isResize a = true)
                 (sortTasks cmp l).
Proof.
  induction l as [|t l IH]; cbn; [constructor|].
  apply insertTask_grouped, IH.
Qed.

(** X6: in the task list of the planner every resize comes before every
    copy, whatever the collation of the file names is. *)
Theorem X6_planner_resizes_first
        (localeCompare : string -> string -> Z)
        (stats : list GlobalAssetStat) (loadedImages : JsMap.t Image.t)
        (bufferPct : Q) (i j : nat) (a b : OptimizationTask) :
  let tasks := calculateOptimizationTargets localeCompare stats loadedImages
                                            bufferPct in
  (i < j)%nat ->
  nth_error tasks i = Some a -> nth_error tasks j = Some b ->
  isResize b = true -> isResize a = true.
Proof.
  intros tasks Hij Ha Hb.
  apply (ForallOrdPairs_lt _ tasks (sortTasks_grouped localeCompare _) i j a b
                           Hij Ha Hb).
Qed.

Lemma X6_planner_resizes_first_witness :
  isResize (planTask (Samples.stat "a.png" 100 100 false)
                     (Samples.image "a.png") 0) = true.
Proof.
  apply (X6_planner_resizes_first
           Samples.flatCompare
           [Samples.stat "a.png" 100 100 false;
            Samples.stat "b.png" 50 50 false]
           [("a.png"%string, Samples.image "a.png");
            ("b.png"%string, Samples.image "b.png")] 0 0 1
           (planTask (Samples.stat "a.png" 100 100 false)
                     (Samples.image "a.png") 0)
           (planTask (Samples.stat "b.png" 50 50 false)
                     (Samples.image "b.png") 0)).
  - lia.
  - reflexivity.
  - reflexivity.
  - reflexivity.
Defined.

(** X7: every task of the planner has a target of at least one pixel per
    axis, and the target never exceeds the physical size of the image
    (its [originalWidth] and [originalHeight]) when that is at least one
    pixel: the planner never enlarges an image. *)
Theorem X7_planner_never_enlarges
        (localeCompare : string -> string -> Z)
        (stats : list GlobalAssetStat) (loadedImages : JsMap.t Image.t)
        (bufferPct : Q) (task : OptimizationTask) :
  In task (calculateOptimizationTargets localeCompare stats loadedImages
                                        bufferPct) ->
  1 <= targetWidth task /\ 1 <= targetHeight task /\
  (1 <= originalWidth task -> targetWidth task <= originalWidth task) /\
  (1 <= originalHeight task -> targetHeight task <= originalHeight task) /\
  (isResize task = false ->
   targetWidth task = originalWidth task /\
   targetHeight task = originalHeight task).
Proof.
  intros Hin.
  destruct (planner_tasks_from_images _ _ _ _ _ Hin)
    as (key & original & stat & _ & _ & ->).
  unfold planTask. cbn.
  repeat split; lia.
Qed.

Lemma X7_planner_never_enlarges_witness :
  1 <= targetWidth (planTask (Samples.stat "hero.png" 900 900 false)
                             (Samples.image "hero.png") 25) <= 200.
Proof.
  destruct (X7_planner_never_enlarges
              Samples.flatCompare [Samples.stat "hero.png" 900 900 false]
              [("hero.png"%string, Samples.image "hero.png")] 25
              (planTask (Samples.stat "hero.png" 900 900 false)
                        (Samples.image "hero.png") 25))
    as (Hone & _ & Hw & _ & _).
  - left. reflexivity.
  - split; [exact Hone | apply Hw; cbn; lia].
Defined.

(** X8: an image whose maximum render size reaches its physical size on
    both axes is never resized, for every buffer that is not negative: its
    task is a copy at the physical size. *)
Theorem X8_full_size_images_are_copied
        (localeCompare : string -> string -> Z)
        (stats : list GlobalAssetStat) (loadedImages : JsMap.t Image.t)
        (bufferPct : Q) (key : string) (original : Image.t)
        (stat : GlobalAssetStat) :
  In (key, original) loadedImages ->
  JsMap.get (buildStatsMap stats) key = Some stat ->
  (0 <= bufferPct)%Q ->
  let physicalW := nullish (Image.sourceWidth original) (Image.width original) in
  let physicalH := nullish (Image.sourceHeight original) (Image.height original) in
  1 <= physicalW <= Stat.maxRenderWidth stat ->
  1 <= physicalH <= Stat.maxRenderHeight stat ->
  exists task,
    In task (calculateOptimizationTargets localeCompare stats loadedImages
                                          bufferPct) /\
    relativePath task = Image.originalPath original /\
    isResize task = false /\
    targetWidth task = physicalW /\ targetHeight task = physicalH.
Proof.
  intros Hin Hget Hb physicalW physicalH Hw Hh.
  exists (planTask stat original bufferPct). split.
  - unfold calculateOptimizationTargets. apply sortTasks_in.
    apply collectTasks_in. exists key, original, stat. auto.
  - assert (Hcw : Stat.maxRenderWidth stat
                  <= ceilScaled (Stat.maxRenderWidth stat) (1 + bufferPct / 100))
      by (apply ceilScaled_grows; [lia | exact Hb]).
    assert (Hch : Stat.maxRenderHeight stat
                  <= ceilScaled (Stat.maxRenderHeight stat) (1 + bufferPct / 100))
      by (apply ceilScaled_grows; [lia | exact Hb]).
    unfold planTask. cbn. fold physicalW physicalH.
    assert (Htw : Z.max 1 (Z.min (if Stat.isOverridden stat
                                  then Stat.maxRenderWidth stat
                                  else ceilScaled (Stat.maxRenderWidth stat)
                                                  (1 + bufferPct / 100))
                                 physicalW) = physicalW).
    { destruct (Stat.isOverridden stat); lia. }
    assert (Hth : Z.max 1 (Z.min (if Stat.isOverridden stat
                                  then Stat.maxRenderHeight stat
                                  else ceilScaled (Stat.maxRenderHeight stat)
                                                  (1 + bufferPct / 100))
                                 physicalH) = physicalH).
    { destruct (Stat.isOverridden stat); lia. }
    rewrite Htw, Hth, !Z.eqb_refl. auto.
Qed.

Lemma X8_full_size_images_are_copied_witness :
  exists task,
    In task (calculateOptimizationTargets
               Samples.flatCompare [Samples.stat "hero.png" 260 200 false]
               [("hero.png"%string, Samples.image "hero.png")] 10) /\
    isResize task = false /\
    targetWidth task = 200 /\ targetHeight task = 200.
Proof.
  destruct (X8_full_size_images_are_copied
              Samples.flatCompare [Samples.stat "hero.png" 260 200 false]
              [("hero.png"%string, Samples.image "hero.png")] 10
              "hero.png" (Samples.image "hero.png")
              (Samples.stat "hero.png" 260 200 false))
    as (task & Hin & _ & Hr & Hw & Hh).
  - left. reflexivity.
  - reflexivity.
  - discriminate.
  - cbn. lia.
  - cbn. lia.
  - exists task. auto.
Defined.

End PlannerInvariants.

(* ================================================================== *)
(** * Facts on strings *)

Section StringFacts.

Lemma length_append (a b : string) :
  String.length (a ++ b) = (String.length a + String.length b)%nat.
Proof.
  induction a as [|c a IH]; cbn; [reflexivity | rewrite IH; reflexivity].
Qed.

Lemma substring_all (s : string) : substring 0 (String.length s) s = s.
Proof.
  induction s as [|c s IH]; cbn; [reflexivity | rewrite IH; reflexivity].
Qed.

Lemma substring_append_tail (a b : string) :
  substring (String.length a) (String.length b) (a ++ b) = b.
Proof.
  induction a as [|c a IH]; cbn; [apply substring_all | exact IH].
Qed.

Lemma substring_append_head (a b : string) :
  substring 0 (String.length a) (a ++ b) = a.
Proof.
  induction a as [|c a IH]; cbn.
  - destruct b; reflexivity.
  - rewrite IH. reflexivity.
Qed.

(** A string is what comes before a position and what comes after it. *)
Lemma substring_split (s : string) (n : nat) :
  (n <= String.length s)%nat ->
  s = (substring 0 n s ++ substring n (String.length s - n) s)%string.
Proof.
  revert n. induction s as [|c s IH]; intros n Hn; cbn in Hn.
  - destruct n; [reflexivity | lia].
  - destruct n as [|n]; cbn.
    + rewrite substring_all. reflexivity.
    + rewrite <- IH by lia. reflexivity.
Qed.

Lemma endsWith_append (a b : string) : JsString.endsWith (a ++ b) b = true.
Proof.
  unfold JsString.endsWith. rewrite length_append.
  apply andb_true_intro. split; [apply Nat.leb_le; lia|].
  replace (String.length a + String.length b - String.length b)%nat
    with (String.length a) by lia.
  rewrite substring_append_tail. apply String.eqb_refl.
Qed.

Lemma endsWith_inv (s suffix : string) :
  JsString.endsWith s suffix = true -> exists pre, s = (pre ++ suffix)%string.
Proof.
  unfold JsString.endsWith. intros H. apply andb_prop in H.
  destruct H as [Hlen Heq]. apply Nat.leb_le in Hlen.
  apply String.eqb_eq in Heq.
  exists (substring 0 (String.length s - String.length suffix) s).
  assert (Hsp := substring_split s (String.length s - String.length suffix)
                                 ltac:(lia)).
  replace (String.length s - (String.length s - String.length suffix))%nat
    with (String.length suffix) in Hsp by lia.
  rewrite Heq in Hsp. exact Hsp.
Qed.

Lemma lastIndexOfFrom_append (c : ascii) (a b : string) :
  forall (i found : Z),
    JsString.lastIndexOfFrom c (a ++ b) i found
    = JsString.lastIndexOfFrom c b (i + Z.of_nat (String.length a))
                               (JsString.lastIndexOfFrom c a i found).
Proof.
  induction a as [|d a IH]; intros i found; cbn [append JsString.lastIndexOfFrom String.length].
  - f_equal. lia.
  - rewrite IH. f_equal. lia.
Qed.

Lemma lastIndexOfFrom_bound (c : ascii) (a : string) :
  forall (i found : Z),
    found < i ->
    JsString.lastIndexOfFrom c a i found < i + Z.of_nat (String.length a).
Proof.
  induction a as [|d a IH]; intros i found Hlt; cbn [JsString.lastIndexOfFrom String.length].
  - lia.
  - specialize (IH (i + 1) (if Ascii.eqb d c then i else found)).
    destruct (Ascii.eqb d c); lia.
Qed.

End StringFacts.

Section ZipInvariants.
Import Types Optimizer.
Variable resizeImage : nat -> Blob -> Z -> Z -> bool -> option Blob.
Variable isSourcePremultiplied : bool.

Lemma keys_set_in {V : Type} (m : JsMap.t V) (k k0 : string) (v : V) :
  In k (JsMap.keys (JsMap.set m k0 v)) <-> k = k0 \/ In k (JsMap.keys m).
Proof.
  induction m as [|[k' v'] m IH]; cbn.
  - intuition.
  - destruct (String.eqb k' k0) eqn:E; cbn.
    + apply String.eqb_eq in E. subst. intuition.
    + rewrite IH. intuition.
Qed.

(** The progress calls of the loop count up from its counter. *)
Lemma zipLoop_progress (total : Z) :
  forall (tasks : list OptimizationTask) (index : nat) (st : ZipRun),
    progress (zipLoop resizeImage total isSourcePremultiplied index tasks st)
    = progress st
      ++ map (fun k => (completed st + Z.of_nat (S k), total))
             (seq 0 (List.length tasks)).
Proof.
  induction tasks as [|t rest IH]; intros index st; cbn [zipLoop].
  - cbn. symmetry. apply app_nil_r.
  - rewrite IH. cbn [zipStep progress completed List.length].
    rewrite <- app_assoc. f_equal.
    change (seq 0 (S (List.length rest))) with (0%nat :: seq 1 (List.length rest)).
    rewrite <- seq_shift. cbn [map app]. rewrite map_map.
    f_equal; try (apply map_ext; intros k); f_equal; lia.
Qed.

(** X9: the archive writer reports progress once per task, counting
    (1, n), (2, n), ..., (n, n) for a batch of n tasks, whether or not the
    resizes succeed. *)
Theorem X9_progress_counts_every_task (tasks : list OptimizationTask) :
  progress (generateOptimizedZip resizeImage tasks isSourcePremultiplied)
  = map (fun k => (Z.of_nat (S k), Z.of_nat (List.length tasks)))
        (seq 0 (List.length tasks)).
Proof.
  unfold generateOptimizedZip, zipFolder. rewrite zipLoop_progress.
  cbn [progress completed app]. apply map_ext. intros k. reflexivity.
Qed.

End ZipInvariants.

Section ZipExamples.
Import Types Optimizer.

(** X11: the output file name of a task always ends with ".png", and
    naming an output name again changes nothing. *)
Theorem X11_output_names_are_png (sourcePath : string) :
  JsString.endsWith (outputFileName sourcePath) ".png" = true /\
  outputFileName (outputFileName sourcePath) = outputFileName sourcePath.
Proof.
  unfold outputFileName at 1 3.
  set (basePath := if _ >? _ then _ else _).
  split; [apply endsWith_append|].
  unfold outputFileName.
  assert (Hdot : JsString.lastIndexOf "."%char (basePath ++ ".png")
                 = Z.of_nat (String.length basePath)).
  { unfold JsString.lastIndexOf. rewrite lastIndexOfFrom_append. reflexivity. }
  assert (Hslash : forall c,
             Ascii.eqb "."%char c = false -> Ascii.eqb "p"%char c = false ->
             Ascii.eqb "n"%char c = false -> Ascii.eqb "g"%char c = false ->
             JsString.lastIndexOf c (basePath ++ ".png")
             < Z.of_nat (String.length basePath)).
  { intros c H1 H2 H3 H4.
    unfold JsString.lastIndexOf. rewrite lastIndexOfFrom_append.
    cbn [JsString.lastIndexOfFrom]. rewrite H1, H2, H3, H4.
    apply (lastIndexOfFrom_bound c basePath 0 (-1)). lia. }
  pose proof (Hslash "/"%char eq_refl eq_refl eq_refl eq_refl) as Hs1.
  pose proof (Hslash "\"%char eq_refl eq_refl eq_refl eq_refl) as Hs2.
  rewrite Hdot.
  replace (Z.of_nat (String.length basePath)
           >? Z.max (JsString.lastIndexOf "/"%char (basePath ++ ".png"))
                    (JsString.lastIndexOf "\"%char (basePath ++ ".png")))
    with true by (symmetry; apply Z.gtb_lt; lia).
  rewrite Nat2Z.id, substring_append_head. reflexivity.
Qed.

End ZipExamples.

(* ================================================================== *)
(** * Further properties of the image lookup *)

Section FindImageSoundness.
Import SpineParser.
Context {V : Type}.

Lemma findWithExtension_some (availableFiles : JsMap.t V) (n : string) :
  forall (exts : list string) (k : string) (data : V),
    findWithExtension availableFiles n exts = Some (k, data) ->
    JsMap.get availableFiles k = Some data /\
    exists ext, In ext exts /\ k = (n ++ ext)%string.
Proof.
  induction exts as [|ext exts IH]; intros k data H; cbn in H; [discriminate|].
  destruct (JsMap.get availableFiles (n ++ ext)) as [d|] eqn:Hget.
  - injection H as <- <-. split; [exact Hget|].
    exists ext. split; [left; reflexivity | reflexivity].
  - destruct (IH k data H) as (Hk & e & He & Heq).
    split; [exact Hk|]. exists e. split; [right; exact He | exact Heq].
Qed.


End FindImageSoundness.

Section FindImageSoundnessExample.
Import SpineParser.


End FindImageSoundnessExample.

(* ================================================================== *)
(** * Further properties of the scale timelines *)

Section TimelineBounds.
Import SpineParser SpineNotions.

Lemma strictlyChronological_chronological (timeline : list TimelineEntry) :
  strictlyChronological timeline -> chronological timeline.
Proof.
  induction 1 as [|c l Hl IH Hc]; constructor; [exact IH|].
  rewrite Forall_forall in *. intros e He. apply Qlt_le_weak, Hc, He.
Qed.

Lemma strictlyChronological_nth (timeline : list TimelineEntry) :
  strictlyChronological timeline ->
  forall i j a b,
    (i < j)%nat -> nth_error timeline i = Some a ->
    nth_error timeline j = Some b -> (getTime a < getTime b)%Q.
Proof.
  induction 1 as [|c l Hl IH Hc]; intros i j a b Hij Hi Hj.
  - destruct i; discriminate.
  - destruct j as [|j]; [lia|]. cbn in Hj.
    destruct i as [|i]; cbn in Hi.
    + injection Hi as <-. rewrite Forall_forall in Hc.
      apply Hc. eapply nth_error_In; eassumption.
    + apply (IH i j); [lia | assumption | assumption].
Qed.

(** A sample taken exactly at the time of a key is answered with the
    values of that key, when the keys come at strictly increasing times. *)
Lemma key_time_gives_key
      (timeline : list TimelineEntry) (i : nat) (key : ScaleKey) :
  strictlyChronological timeline ->
  nth_error timeline i = Some (Some key) ->
  let r := getAnimationScaleFactor timeline (getTime (Some key)) in
  (fst r == getX (Some key))%Q /\ (snd r == getY (Some key))%Q.
Proof.
  intros Hstrict Hkey r. subst r.
  pose proof (strictlyChronological_chronological _ Hstrict) as Hsorted.
  set (t := getTime (Some key)).
  destruct timeline as [|first following]; [destruct i; discriminate|].
  unfold getAnimationScaleFactor.
  assert (Hfirst : (getTime first <= t)%Q).
  { apply (chronological_nth _ Hsorted O i); [lia | reflexivity | exact Hkey]. }
  rewrite (Qlt_bool_false _ _ Hfirst).
  set (lastIndex := (List.length (first :: following) - 1)%nat).
  assert (Hlen : (i < List.length (first :: following))%nat).
  { apply nth_error_Some. rewrite Hkey. discriminate. }
  assert (Hlast : nth_error (first :: following) lastIndex
                  = Some (nth lastIndex (first :: following) None)).
  { apply nth_error_nth'. unfold lastIndex. lia. }
  destruct (Nat.eq_dec i lastIndex) as [E | E].
  - (* the key is the last one *)
    assert (Hl : nth lastIndex (first :: following) None = Some key).
    { rewrite E in Hkey. rewrite Hkey in Hlast.
      injection Hlast as Hlast. symmetry. exact Hlast. }
    rewrite Hl. fold t.
    replace (Qle_bool t t) with true
      by (symmetry; apply Qle_bool_iff, Qle_refl).
    cbn. split; reflexivity.
  - assert (Hlt : (t < getTime (nth lastIndex (first :: following) None))%Q).
    { apply (strictlyChronological_nth _ Hstrict i lastIndex);
        [unfold lastIndex in *; lia | exact Hkey | exact Hlast]. }
    rewrite (Qle_bool_false _ _ Hlt).
    assert (Hnext : exists next, nth_error (first :: following) (S i) = Some next).
    { destruct (nth_error (first :: following) (S i)) as [next|] eqn:Hn;
        [exists next; reflexivity|].
      apply nth_error_None in Hn. unfold lastIndex in E. lia. }
    destruct Hnext as [next Hnext].
    rewrite (advance_stops t following O i next).
    + cbn [Nat.add]. rewrite Hkey, Hnext.
      destruct next as [nextKey|]; [|cbn; split; reflexivity].
      destruct (isStepped key); [cbn; split; reflexivity|].
      fold t. cbn [fst snd].
      destruct (Qlt_bool 0 (getTime (Some nextKey) - t)).
      * assert (Hz : ((t - t) / (getTime (Some nextKey) - t) == 0)%Q).
        { unfold Qdiv. setoid_replace (t - t)%Q with 0%Q by ring.
          apply Qmult_0_l. }
        rewrite Hz. split; ring.
      * split; ring.
    + intros j e Hj He.
      apply (chronological_nth _ Hsorted (S j) i); [lia | exact He | exact Hkey].
    + exact Hnext.
    + apply (strictlyChronological_nth _ Hstrict i (S i));
        [lia | exact Hkey | exact Hnext].
Qed.

(** X14: a sample taken exactly at the time of a key yields the [x] and
    the [y] of that key (1 where the key has none; a key without [time]
    counts as time 0), in a timeline whose keys come at strictly
    increasing times and whose values are at most 2^1022 in absolute
    value, so that the difference of two of them is a finite number: the
    interpolation passes through every key. *)
Theorem X14_sample_at_key_time
        (timeline : list TimelineEntry) (i : nat) (key : ScaleKey) :
  strictlyChronological timeline ->
  (forall k v, In (Some k) timeline -> kx k = Some v \/ ky k = Some v ->
               (Qabs.Qabs v <= inject_Z (2 ^ 1022))%Q) ->
  nth_error timeline i = Some (Some key) ->
  let keyTime := match time key with Some v => v | None => 0%Q end in
  let keyX := match kx key with Some v => v | None => 1%Q end in
  let keyY := match ky key with Some v => v | None => 1%Q end in
  (fst (getAnimationScaleFactor timeline keyTime) == keyX)%Q /\
  (snd (getAnimationScaleFactor timeline keyTime) == keyY)%Q.
Proof.
  intros Hstrict _ Hkey keyTime keyX keyY.
  exact (key_time_gives_key timeline i key Hstrict Hkey).
Qed.

Lemma X14_sample_at_key_time_witness :
  (fst (getAnimationScaleFactor TimelineSamples.threeKeys 1) == 4)%Q /\
  (snd (getAnimationScaleFactor TimelineSamples.threeKeys 1) == 6)%Q.
Proof.
  apply (X14_sample_at_key_time
           TimelineSamples.threeKeys 1
           {| time := Some 1%Q; kx := Some 4%Q; ky := Some 6%Q;
              curve := None |}).
  - repeat constructor.
  - intros k v [Hk | [Hk | [Hk | []]]] Hv; injection Hk as <-; cbn in Hv;
      destruct Hv as [Hv | Hv]; injection Hv as <-; vm_compute; discriminate.
  - reflexivity.
Defined.

End TimelineBounds.

(* ================================================================== *)
(** * Further properties of the aggregation *)

Section AggregationMaximum.
Import Types SpineParser SpineNotions.
Variable skeletonName : string.

(** An observation never lowers the area recorded under any key. *)
Lemma updateGlobalStats_grows (m : JsMap.t GlobalAssetStat)
      (img : FoundImageResult) (animName key : string) (s : GlobalAssetStat) :
  JsMap.get m key = Some s ->
  exists s',
    JsMap.get (updateGlobalStats skeletonName m img animName) key = Some s' /\
    statArea s <= statArea s'.
Proof.
  intros Hget.
  destruct (String.eqb (Found.lookupKey img) key) eqn:E.
  - apply String.eqb_eq in E. subst key. unfold updateGlobalStats.
    destruct (Found.isLocalScaleOverridden img); [exists s; split; [exact Hget | lia]|].
    rewrite Hget.
    destruct (_ && _); [exists s; split; [exact Hget | lia]|].
    destruct (_ >? _) eqn:Hgt.
    { rewrite get_set_same. eexists. split; [reflexivity|].
      unfold statArea, statOf. cbn. lia. }
    destruct (_ =? _); [|exists s; split; [exact Hget | lia]].
    destruct (_ && _); [|exists s; split; [exact Hget | lia]].
    rewrite get_set_same. eexists. split; [reflexivity|].
    unfold statArea, withSkinName. cbn. lia.
  - apply String.eqb_neq in E. rewrite updateGlobalStats_other by exact E.
    exists s. split; [exact Hget | lia].
Qed.

(** An observation of an animation that is not locally overridden leaves
    under its key a statistic of at least its area. *)
Lemma updateGlobalStats_records (m : JsMap.t GlobalAssetStat)
      (img : FoundImageResult) (animName : string) :
  animName <> setupPoseName ->
  Found.isLocalScaleOverridden img = false ->
  exists s,
    JsMap.get (updateGlobalStats skeletonName m img animName)
              (Found.lookupKey img) = Some s /\
    foundArea img <= statArea s.
Proof.
  intros Hname Hlocal. unfold updateGlobalStats. rewrite Hlocal.
  apply String.eqb_neq in Hname. rewrite Hname. cbn [andb].
  destruct (JsMap.get m (Found.lookupKey img)) as [current|] eqn:Hcur.
  - destruct (_ >? _) eqn:Hgt.
    { rewrite get_set_same. eexists. split; [reflexivity|].
      unfold statArea, foundArea, statOf. cbn. lia. }
    destruct (_ =? _) eqn:Heq.
    + destruct (_ && _).
      * rewrite get_set_same. eexists. split; [reflexivity|].
        unfold statArea, foundArea, withSkinName. cbn. lia.
      * exists current. split; [exact Hcur|]. unfold statArea, foundArea. lia.
    + exists current. split; [exact Hcur|]. unfold statArea, foundArea. lia.
  - rewrite get_set_same. eexists. split; [reflexivity|].
    unfold statArea, foundArea, statOf. cbn. lia.
Qed.

Lemma processImages_grows (animName key : string) :
  forall (imgs : list FoundImageResult) (m : JsMap.t GlobalAssetStat)
         (s : GlobalAssetStat),
    JsMap.get m key = Some s ->
    exists s',
      JsMap.get (fold_left (fun acc img =>
                              updateGlobalStats skeletonName acc img animName)
                           imgs m) key = Some s' /\
      statArea s <= statArea s'.
Proof.
  induction imgs as [|img imgs IH]; intros m s Hget; cbn.
  - exists s. split; [exact Hget | lia].
  - destruct (updateGlobalStats_grows m img animName key s Hget) as (s1 & H1 & Hle1).
    destruct (IH _ _ H1) as (s2 & H2 & Hle2).
    exists s2. split; [exact H2 | lia].
Qed.

Lemma processResults_grows (key : string) :
  forall (rs : list AnalysisResult) (m : JsMap.t GlobalAssetStat)
         (s : GlobalAssetStat),
    JsMap.get m key = Some s ->
    exists s',
      JsMap.get (fold_left (processResult skeletonName) rs m) key = Some s' /\
      statArea s <= statArea s'.
Proof.
  induction rs as [|r rs IH]; intros m s Hget; cbn.
  - exists s. split; [exact Hget | lia].
  - destruct (processImages_grows (Result.animationName r) key
                                  (Result.foundImages r) m s Hget)
      as (s1 & H1 & Hle1).
    destruct (IH _ _ H1) as (s2 & H2 & Hle2).
    exists s2. split; [exact H2 | lia].
Qed.

Lemma processImages_records (animName : string) (img : FoundImageResult) :
  animName <> setupPoseName ->
  Found.isLocalScaleOverridden img = false ->
  forall (imgs : list FoundImageResult) (m : JsMap.t GlobalAssetStat),
    In img imgs ->
    exists s,
      JsMap.get (fold_left (fun acc i =>
                              updateGlobalStats skeletonName acc i animName)
                           imgs m) (Found.lookupKey img) = Some s /\
      foundArea img <= statArea s.
Proof.
  intros Hname Hlocal.
  induction imgs as [|i imgs IH]; intros m Hin; [destruct Hin|].
  cbn. destruct Hin as [-> | Hin].
  - destruct (updateGlobalStats_records m img animName Hname Hlocal)
      as (s1 & H1 & Hle1).
    destruct (processImages_grows animName _ imgs _ _ H1) as (s2 & H2 & Hle2).
    exists s2. split; [exact H2 | lia].
  - apply IH, Hin.
Qed.

(** X15: when no animation bears the reserved name of the setup pose, the
    global statistics hold, for every observation of an animation that is
    not locally overridden, a statistic for its image that stems from an
    animation and whose area is at least that of the observation: no
    animation produced a larger record than the one kept. *)
Theorem X15_animation_maximum_is_kept
        (results : list AnalysisResult) (r : AnalysisResult)
        (img : FoundImageResult) :
  reservedNameRespected results ->
  In r results -> Result.isSetupPose r = false ->
  In img (Result.foundImages r) ->
  Found.isLocalScaleOverridden img = false ->
  exists s,
    JsMap.get (aggregateGlobalStats skeletonName results) (Found.lookupKey img)
    = Some s /\
    foundArea img <= statArea s /\
    Stat.sourceAnimation s <> setupPoseName.
Proof.
  intros Hnames Hr Hanim Himg Hlocal.
  assert (Hpass1 : exists s,
             JsMap.get (pass1 skeletonName results) (Found.lookupKey img)
             = Some s /\ foundArea img <= statArea s).
  { unfold pass1.
    assert (Hin : In r (filter (fun r => negb (Result.isSetupPose r)) results)).
    { apply filter_In. split; [exact Hr | rewrite Hanim; reflexivity]. }
    revert Hin. generalize (filter (fun r => negb (Result.isSetupPose r)) results).
    generalize (@nil (string * GlobalAssetStat)).
    intros m rs. revert m.
    induction rs as [|r0 rs IH]; intros m Hin; [destruct Hin|].
    cbn. destruct Hin as [-> | Hin]; [|apply IH, Hin].
    unfold processResult at 2.
    destruct (processImages_records (Result.animationName r) img)
      with (imgs := Result.foundImages r) (m := m) as (s1 & H1 & Hle1);
      [apply (Hnames r Hr), Hanim | exact Hlocal | exact Himg |].
    destruct (processResults_grows _ rs _ _ H1) as (s2 & H2 & Hle2).
    exists s2. split; [exact H2 | lia]. }
  destruct Hpass1 as (s & Hs & Hle).
  exists s. split; [|split; [exact Hle|]].
  - apply setup_pose_never_replaces_animation; assumption.
  - apply (pass1_animationSourced skeletonName results Hnames _ _ Hs).
Qed.

End AggregationMaximum.

Section AggregationMaximumExample.
Import Types SpineParser SpineNotions.

Lemma X15_animation_maximum_is_kept_witness :
  exists s,
    JsMap.get (aggregateGlobalStats "Default" (Samples.heroResults "idle"))
              "hero.png" = Some s /\
    150 * 150 <= statArea s /\
    Stat.sourceAnimation s <> setupPoseName.
Proof.
  apply (X15_animation_maximum_is_kept
           "Default" (Samples.heroResults "idle")
           {| Result.animationName := "idle";
              Result.foundImages := [Samples.found "hero.png" 150 150];
              Result.isSetupPose := false |}
           (Samples.found "hero.png" 150 150)).
  - intros r [<- | [<- | []]]; cbn; split; intros H; try discriminate;
      try reflexivity.
  - right. left. reflexivity.
  - reflexivity.
  - left. reflexivity.
  - reflexivity.
Defined.

End AggregationMaximumExample.

(* ================================================================== *)
(** * Properties of the merged report *)

Section MergedReport.
Import Types SpineNotions SpineReports.

Lemma in_set_inv {V : Type} (m : JsMap.t V) (k0 k : string) (v0 v : V) :
  In (k, v) (JsMap.set m k0 v0) -> (k = k0 /\ v = v0) \/ In (k, v) m.
Proof.
  induction m as [|[k' v'] m IH]; cbn.
  - intros [H | []]. injection H as <- <-. auto.
  - destruct (String.eqb k' k0); cbn.
    + intros [H | H]; [injection H as <- <-; auto | auto].
    + intros [H | H]; [auto|]. destruct (IH H); auto.
Qed.

Lemma get_in {V : Type} (m : JsMap.t V) (k : string) (v : V) :
  JsMap.get m k = Some v -> In (k, v) m.
Proof.
  induction m as [|[k' v'] m IH]; cbn; [discriminate|].
  destruct (String.eqb k' k) eqn:E.
  - apply String.eqb_eq in E. subst. intros H. injection H as <-. auto.
  - intros H. right. apply IH, H.
Qed.

Lemma has_false_iff {V : Type} (m : JsMap.t V) (k : string) :
  JsMap.has m k = false <-> ~ In k (JsMap.keys m).
Proof.
  unfold JsMap.has. split.
  - intros H Hin. apply in_keys_get in Hin. destruct Hin as [v Hv].
    rewrite Hv in H. discriminate.
  - intros Hnot. destruct (JsMap.get m k) as [v|] eqn:Hget; [|reflexivity].
    exfalso. apply Hnot. eapply get_some_in_keys, Hget.
Qed.

(** What one statistic does to the merged map. *)
Lemma mergeStat_spec (m : JsMap.t GlobalAssetStat) (stat : GlobalAssetStat) :
  keyedByLookupKey m -> NoDup (JsMap.keys m) ->
  keyedByLookupKey (mergeStat m stat) /\
  NoDup (JsMap.keys (mergeStat m stat)) /\
  (forall k s, In (k, s) (mergeStat m stat) -> s = stat \/ In (k, s) m) /\
  (forall k, In k (JsMap.keys (mergeStat m stat)) <->
             k = Stat.lookupKey stat \/ In k (JsMap.keys m)) /\
  (exists s, JsMap.get (mergeStat m stat) (Stat.lookupKey stat) = Some s /\
             statArea stat <= statArea s) /\
  (forall k s, JsMap.get m k = Some s ->
               exists s', JsMap.get (mergeStat m stat) k = Some s' /\
                          statArea s <= statArea s').
Proof.
  intros Hkeyed Hnd. unfold mergeStat.
  assert (Hset : keyedByLookupKey (JsMap.set m (Stat.lookupKey stat) stat) /\
                 NoDup (JsMap.keys (JsMap.set m (Stat.lookupKey stat) stat)) /\
                 (forall k s, In (k, s) (JsMap.set m (Stat.lookupKey stat) stat) ->
                              s = stat \/ In (k, s) m) /\
                 (forall k, In k (JsMap.keys (JsMap.set m (Stat.lookupKey stat) stat))
                            <-> k = Stat.lookupKey stat \/ In k (JsMap.keys m))).
  { split; [|split; [|split]].
    - intros k s Hin. destruct (in_set_inv _ _ _ _ _ Hin) as [[-> ->] | H];
        [reflexivity | apply Hkeyed, H].
    - apply keys_set_NoDup, Hnd.
    - intros k s Hin. destruct (in_set_inv _ _ _ _ _ Hin) as [[_ ->] | H]; auto.
    - intros k. apply keys_set_in. }
  destruct Hset as (Hs1 & Hs2 & Hs3 & Hs4).
  destruct (JsMap.get m (Stat.lookupKey stat)) as [existing|] eqn:Hex.
  - destruct (_ >? _) eqn:Hgt.
    + split; [exact Hs1|]. split; [exact Hs2|]. split; [exact Hs3|].
      split; [exact Hs4|]. split.
      * exists stat. split; [apply get_set_same | lia].
      * intros k s Hget.
        destruct (String.eqb (Stat.lookupKey stat) k) eqn:E.
        -- apply String.eqb_eq in E. subst k. rewrite Hex in Hget.
           injection Hget as <-. exists stat.
           split; [apply get_set_same | unfold statArea; lia].
        -- apply String.eqb_neq in E. exists s.
           split; [rewrite get_set_other; assumption | lia].
    + split; [exact Hkeyed|]. split; [exact Hnd|]. split; [auto|]. split.
      * intros k. split; [auto|]. intros [-> | H]; [|exact H].
        eapply get_some_in_keys, Hex.
      * split.
        -- exists existing. split; [exact Hex | unfold statArea; lia].
        -- intros k s Hget. exists s. split; [exact Hget | lia].
  - split; [exact Hs1|]. split; [exact Hs2|]. split; [exact Hs3|].
    split; [exact Hs4|]. split.
    + exists stat. split; [apply get_set_same | lia].
    + intros k s Hget.
      assert (E : Stat.lookupKey stat <> k).
      { intros Heq. subst k. rewrite Hex in Hget. discriminate. }
      exists s. split; [rewrite get_set_other; assumption | lia].
Qed.

(** What a list of statistics does to the merged map. *)
Lemma mergeStat_fold (stats : list GlobalAssetStat) :
  forall m : JsMap.t GlobalAssetStat,
    keyedByLookupKey m -> NoDup (JsMap.keys m) ->
    let m' := fold_left mergeStat stats m in
    keyedByLookupKey m' /\ NoDup (JsMap.keys m') /\
    (forall k s, In (k, s) m' -> In s stats \/ In (k, s) m) /\
    (forall k, In k (JsMap.keys m') <->
               (exists s, In s stats /\ Stat.lookupKey s = k) \/
               In k (JsMap.keys m)) /\
    (forall stat, In stat stats ->
                  exists s, JsMap.get m' (Stat.lookupKey stat) = Some s /\
                            statArea stat <= statArea s) /\
    (forall k s, JsMap.get m k = Some s ->
                 exists s', JsMap.get m' k = Some s' /\
                            statArea s <= statArea s').
Proof.
  induction stats as [|stat stats IH]; intros m Hkeyed Hnd; cbn zeta; cbn [fold_left].
  - split; [exact Hkeyed|]. split; [exact Hnd|]. split; [auto|]. split.
    + intros k. split; [auto|]. intros [(s & [] & _) | H]. exact H.
    + split; [intros stat []|]. intros k s H. exists s. split; [exact H | lia].
  - destruct (mergeStat_spec m stat Hkeyed Hnd)
      as (H1 & H2 & H3 & H4 & H5 & H6).
    destruct (IH (mergeStat m stat) H1 H2) as (I1 & I2 & I3 & I4 & I5 & I6).
    cbn zeta in *.
    split; [exact I1|]. split; [exact I2|]. split; [|split; [|split]].
    + intros k s Hin. destruct (I3 k s Hin) as [H | H]; [left; right; exact H|].
      destruct (H3 k s H) as [-> | H']; [left; left; reflexivity | right; exact H'].
    + intros k. rewrite I4, H4. split.
      * intros [(s & Hs & Hk) | [-> | H]].
        -- left. exists s. split; [right; exact Hs | exact Hk].
        -- left. exists stat. split; [left; reflexivity | reflexivity].
        -- right. exact H.
      * intros [(s & [<- | Hs] & Hk) | H].
        -- right. left. symmetry. exact Hk.
        -- left. exists s. split; assumption.
        -- right. right. exact H.
    + intros st [<- | Hst]; [|apply I5, Hst].
      destruct H5 as (s1 & Hs1 & Hle1). destruct (I6 _ _ Hs1) as (s2 & Hs2 & Hle2).
      exists s2. split; [exact Hs2 | lia].
    + intros k s Hget. destruct (H6 k s Hget) as (s1 & Hs1 & Hle1).
      destruct (I6 _ _ Hs1) as (s2 & Hs2 & Hle2).
      exists s2. split; [exact Hs2 | lia].
Qed.

(** What the reports do to the merged map. *)
Lemma mergeStats_spec (reports : list AnalysisReport) :
  let m := mergeStats reports in
  keyedByLookupKey m /\ NoDup (JsMap.keys m) /\
  (forall k s, In (k, s) m -> In s (inputStats reports)) /\
  (forall k, In k (JsMap.keys m) <->
             exists s, In s (inputStats reports) /\ Stat.lookupKey s = k) /\
  (forall stat, In stat (inputStats reports) ->
                exists s, JsMap.get m (Stat.lookupKey stat) = Some s /\
                          statArea stat <= statArea s).
Proof.
  unfold mergeStats, inputStats.
  assert (Hgen : forall rs m0,
             keyedByLookupKey m0 -> NoDup (JsMap.keys m0) ->
             let m := fold_left (fun merged report =>
                                   fold_left mergeStat (globalStats report) merged)
                                rs m0 in
             keyedByLookupKey m /\ NoDup (JsMap.keys m) /\
             (forall k s, In (k, s) m ->
                          In s (flat_map globalStats rs) \/ In (k, s) m0) /\
             (forall k, In k (JsMap.keys m) <->
                        (exists s, In s (flat_map globalStats rs) /\
                                   Stat.lookupKey s = k) \/
                        In k (JsMap.keys m0)) /\
             (forall stat, In stat (flat_map globalStats rs) ->
                           exists s, JsMap.get m (Stat.lookupKey stat) = Some s /\
                                     statArea stat <= statArea s) /\
             (forall k s, JsMap.get m0 k = Some s ->
                          exists s', JsMap.get m k = Some s' /\
                                     statArea s <= statArea s')).
  { induction rs as [|r rs IH]; intros m0 Hkeyed Hnd; cbn zeta; cbn [fold_left flat_map].
    - split; [exact Hkeyed|]. split; [exact Hnd|]. split; [auto|]. split.
      + intros k. split; [auto|]. intros [(s & [] & _) | H]. exact H.
      + split; [intros stat []|]. intros k s H. exists s. split; [exact H | lia].
    - destruct (mergeStat_fold (globalStats r) m0 Hkeyed Hnd)
        as (H1 & H2 & H3 & H4 & H5 & H6).
      destruct (IH _ H1 H2) as (I1 & I2 & I3 & I4 & I5 & I6).
      cbn zeta in *.
      split; [exact I1|]. split; [exact I2|]. split; [|split; [|split]].
      + intros k s Hin. destruct (I3 k s Hin) as [H | H].
        * left. apply in_or_app. right. exact H.
        * destruct (H3 k s H) as [H' | H'];
            [left; apply in_or_app; left; exact H' | right; exact H'].
      + intros k. rewrite I4, H4. split.
        * intros [(s & Hs & Hk) | [(s & Hs & Hk) | H]].
          -- left. exists s. split; [apply in_or_app; right; exact Hs | exact Hk].
          -- left. exists s. split; [apply in_or_app; left; exact Hs | exact Hk].
          -- right. exact H.
        * intros [(s & Hs & Hk) | H].
          -- apply in_app_or in Hs. destruct Hs as [Hs | Hs].
             ++ right. left. exists s. split; assumption.
             ++ left. exists s. split; assumption.
          -- right. right. exact H.
      + intros st Hst. apply in_app_or in Hst. destruct Hst as [Hst | Hst].
        * destruct (H5 st Hst) as (s1 & Hs1 & Hle1).
          destruct (I6 _ _ Hs1) as (s2 & Hs2 & Hle2).
          exists s2. split; [exact Hs2 | lia].
        * apply I5, Hst.
      + intros k s Hget. destruct (H6 k s Hget) as (s1 & Hs1 & Hle1).
        destruct (I6 _ _ Hs1) as (s2 & Hs2 & Hle2).
        exists s2. split; [exact Hs2 | lia]. }
  destruct (Hgen reports []) as (G1 & G2 & G3 & G4 & G5 & _).
  { intros k s []. }
  { constructor. }
  cbn zeta in *.
  split; [exact G1|]. split; [exact G2|]. split; [|split].
  - intros k s Hin. destruct (G3 k s Hin) as [H | []]. exact H.
  - intros k. rewrite G4. split; [intros [H | []]; exact H | auto].
  - exact G5.
Qed.

(** X16: the merged report holds one statistic per image key; each is a
    statistic of one of the reports, and for every statistic of every
    report the merged one of the same key has at least its area. *)
Theorem X16_merged_stats_are_maxima
        (reports : list AnalysisReport) (availableFiles : JsMap.t Asset)
        (atlasPageNames : JsSet.t) :
  let merged :=
    globalStats (mergeAnalysisReports reports availableFiles atlasPageNames) in
  NoDup (map Stat.lookupKey merged) /\
  (forall s, In s merged -> In s (inputStats reports)) /\
  (forall stat, In stat (inputStats reports) ->
                exists s, In s merged /\
                          Stat.lookupKey s = Stat.lookupKey stat /\
                          statArea stat <= statArea s).
Proof.
  destruct reports as [|r rs].
  { cbn. split; [constructor|]. split; [intros s [] | intros stat []]. }
  cbn zeta. cbn [mergeAnalysisReports globalStats].
  destruct (mergeStats_spec (r :: rs)) as (Hkeyed & Hnd & Hfrom & _ & Hmax).
  cbn zeta in *. set (m := mergeStats (r :: rs)) in *.
  split; [|split].
  - assert (Hk : map Stat.lookupKey (JsMap.values m) = JsMap.keys m).
    { unfold JsMap.values, JsMap.keys. rewrite map_map.
      apply map_ext_in. intros [k s] Hin. cbn. apply Hkeyed, Hin. }
    rewrite Hk. exact Hnd.
  - intros s Hs. unfold JsMap.values in Hs. apply in_map_iff in Hs.
    destruct Hs as ([k s'] & <- & Hin). apply (Hfrom k s' Hin).
  - intros stat Hstat. destruct (Hmax stat Hstat) as (s & Hget & Hle).
    exists s. apply get_in in Hget. split; [|split; [|exact Hle]].
    + unfold JsMap.values. apply in_map_iff.
      exists (Stat.lookupKey stat, s). split; [reflexivity | exact Hget].
    + apply Hkeyed in Hget. exact Hget.
Qed.

Lemma insertBySize_in (a x : UnusedAsset) (l : list UnusedAsset) :
  In x (insertBySize a l) <-> x = a \/ In x l.
Proof.
  induction l as [|u l IH]; cbn; [intuition|].
  destruct (size a <? size u); cbn; rewrite ?IH; intuition.
Qed.

Lemma sortBySize_in (x : UnusedAsset) (l : list UnusedAsset) :
  In x (sortBySize l) <-> In x l.
Proof.
  induction l as [|a l IH]; cbn; [reflexivity|].
  rewrite insertBySize_in, IH. intuition.
Qed.

Lemma collectUnused_in (merged : JsMap.t GlobalAssetStat)
      (atlasPageNames : JsSet.t) (u : UnusedAsset) :
  forall availableFiles : JsMap.t Asset,
    In u (collectUnused merged atlasPageNames availableFiles) <->
    exists key val,
      In (key, val) availableFiles /\ u = unusedOf val /\
      isUnused merged atlasPageNames key val = true.
Proof.
  induction availableFiles as [|[key val] rest IH]; cbn.
  - split; [intros [] | intros (? & ? & [] & _)].
  - destruct (isUnused merged atlasPageNames key val) eqn:E; cbn; rewrite IH.
    + split.
      * intros [<- | (k & v & Hin & Hu & Hun)].
        -- exists key, val. auto.
        -- exists k, v. auto.
      * intros (k & v & [Heq | Hin] & Hu & Hun).
        -- injection Heq as <- <-. left. symmetry. exact Hu.
        -- right. exists k, v. auto.
    + split.
      * intros (k & v & Hin & Hu & Hun). exists k, v. auto.
      * intros (k & v & [Heq | Hin] & Hu & Hun).
        -- injection Heq as <- <-. rewrite E in Hun. discriminate.
        -- exists k, v. auto.
Qed.

Lemma slashFree_iff (s : string) :
  slashFree s = true <-> forall a b, s <> (a ++ "/" ++ b)%string.
Proof.
  induction s as [|c s IH]; cbn [slashFree].
  - split; [|reflexivity]. intros _ [|c a] b; discriminate.
  - rewrite andb_true_iff, negb_true_iff, IH. split.
    + intros [Hc Hs] [|c' a] b Heq; cbn in Heq; injection Heq as Hc' Hs'.
      * subst c. rewrite Ascii.eqb_refl in Hc. discriminate.
      * exact (Hs a b Hs').
    + intros Hs. split.
      * destruct (Ascii.eqb c "/") eqn:E; [|reflexivity].
        apply Ascii.eqb_eq in E. subst c. exfalso.
        exact (Hs EmptyString s eq_refl).
      * intros a b Heq. apply (Hs (String c a) b). cbn. rewrite Heq.
        reflexivity.
Qed.

(** What [split('/').pop()] gives: the string itself when it holds no
    slash, and what follows its last slash otherwise. *)
Lemma lastSegment_spec (s : string) :
  forall cur,
    (slashFree s = true /\ lastSegment s cur = (cur ++ s)%string) \/
    (exists dir seg, s = (dir ++ "/" ++ seg)%string /\ slashFree seg = true /\
                     lastSegment s cur = seg).
Proof.
  induction s as [|c s IH]; intros cur; cbn [lastSegment slashFree].
  - left. split; [reflexivity|].
    induction cur as [|c cur IHc]; cbn; [reflexivity | rewrite <- IHc; reflexivity].
  - destruct (Ascii.eqb c "/") eqn:E.
    + apply Ascii.eqb_eq in E. subst c. right.
      destruct (IH EmptyString) as [[Hfree Hlast] | (dir & seg & Hs & Hfree & Hlast)].
      * exists EmptyString, s. cbn in Hlast. auto.
      * exists (String "/" dir), seg. subst s. auto.
    + destruct (IH (cur ++ String c EmptyString)%string)
        as [[Hfree Hlast] | (dir & seg & Hs & Hfree & Hlast)].
      * left. split; [exact Hfree|]. rewrite Hlast.
        clear. induction cur as [|c' cur IHc]; cbn; [reflexivity|].
        rewrite IHc. reflexivity.
      * right. exists (String c dir), seg. subst s. auto.
Qed.

(** A string has one last segment. *)
Lemma lastSegment_unique (dir : string) :
  forall dir' seg seg',
    (dir ++ "/" ++ seg)%string = (dir' ++ "/" ++ seg')%string ->
    slashFree seg = true -> slashFree seg' = true -> seg = seg'.
Proof.
  induction dir as [|c dir IH]; intros [|c' dir'] seg seg' Heq Hs Hs';
    cbn in Heq.
  - injection Heq as Heq. exact Heq.
  - injection Heq as _ Heq. exfalso.
    apply (proj1 (slashFree_iff seg) Hs dir' seg'). exact Heq.
  - injection Heq as _ Heq. exfalso.
    apply (proj1 (slashFree_iff seg') Hs' dir seg). symmetry. exact Heq.
  - injection Heq as _ Heq. exact (IH dir' seg seg' Heq Hs Hs').
Qed.

Lemma set_has_false_iff (s : JsSet.t) (x : string) :
  JsSet.has s x = false <-> ~ In x s.
Proof.
  unfold JsSet.has. split.
  - intros Hhas Hin. assert (Ht : existsb (String.eqb x) s = true).
    { apply existsb_exists. exists x. split; [exact Hin | apply String.eqb_refl]. }
    rewrite Ht in Hhas. discriminate.
  - intros Hin. destruct (existsb (String.eqb x) s) eqn:E; [|reflexivity].
    apply existsb_exists in E. destruct E as (y & Hy & Heq).
    apply String.eqb_eq in Heq. subst y. contradiction.
Qed.

(** The test of [mergeAnalysisReports] against the atlas page names, on
    the path and on its last segment. *)
Lemma pageTest_spec (atlasPageNames : JsSet.t) (p : string) :
  JsSet.has atlasPageNames p || JsSet.has atlasPageNames (pathFileName p)
  = false <->
  ~ In p atlasPageNames /\
  (forall dir seg,
      p = (dir ++ "/" ++ seg)%string ->
      (forall a b, seg <> (a ++ "/" ++ b)%string) -> seg <> ""%string ->
      ~ In seg atlasPageNames).
Proof.
  rewrite orb_false_iff, !set_has_false_iff. unfold pathFileName.
  split.
  - intros [Hp Hlast]. split; [exact Hp|].
    intros dir seg Heq Hfree Hne.
    apply slashFree_iff in Hfree.
    destruct (lastSegment_spec p EmptyString)
      as [[Hpfree _] | (dir' & seg' & Hs & Hfree' & Hl)].
    + exfalso. exact (proj1 (slashFree_iff p) Hpfree dir seg Heq).
    + assert (Hseg : seg = seg').
      { apply (lastSegment_unique dir dir'); [congruence | assumption | assumption]. }
      rewrite <- Hseg in Hl. rewrite Hl in Hlast.
      destruct (String.eqb seg "") eqn:E;
        [apply String.eqb_eq in E; contradiction | exact Hlast].
  - intros [Hp Hsegs]. split; [exact Hp|].
    destruct (String.eqb (lastSegment p "") "") eqn:E; [exact Hp|].
    apply String.eqb_neq in E.
    destruct (lastSegment_spec p EmptyString)
      as [[Hpfree Hl] | (dir & seg & Hs & Hfree & Hl)].
    + rewrite Hl. exact Hp.
    + rewrite Hl in E |- *.
      apply (Hsegs dir seg Hs); [apply slashFree_iff, Hfree | exact E].
Qed.

(** X17: when there is at least one report, a record is listed as unused
    exactly when it carries the [originalPath], the name of the file, the
    width, the height and the size of the file of an image of the index
    whose key is the [lookupKey] of no statistic of any report, whose
    original path is no atlas page name, and whose original path does not
    end, after its last slash, in an atlas page name. *)
Theorem X17_unused_assets_of_merged_report
        (reports : list AnalysisReport) (availableFiles : JsMap.t Asset)
        (atlasPageNames : JsSet.t) (u : UnusedAsset)
        (Hreports : reports <> []) :
  In u (unusedAssets
          (mergeAnalysisReports reports availableFiles atlasPageNames)) <->
  exists key val,
    In (key, val) availableFiles /\
    (path u = originalPath val /\ fileName u = file_name (file val) /\
     width u = asset_width val /\ height u = asset_height val /\
     size u = file_size (file val)) /\
    (forall report s, In report reports -> In s (globalStats report) ->
                      Stat.lookupKey s <> key) /\
    ~ In (originalPath val) atlasPageNames /\
    (forall dir seg,
        originalPath val = (dir ++ "/" ++ seg)%string ->
        (forall a b, seg <> (a ++ "/" ++ b)%string) -> seg <> ""%string ->
        ~ In seg atlasPageNames).
Proof.
  destruct reports as [|r rs]; [contradiction|].
  cbn [mergeAnalysisReports unusedAssets].
  rewrite sortBySize_in, collectUnused_in.
  destruct (mergeStats_spec (r :: rs)) as (_ & _ & _ & Hkeys & _).
  cbn zeta in Hkeys.
  assert (Hrecord : forall val,
             u = unusedOf val <->
             path u = originalPath val /\ fileName u = file_name (file val) /\
             width u = asset_width val /\ height u = asset_height val /\
             size u = file_size (file val)).
  { intros val. destruct u as [p f w h z]. unfold unusedOf. cbn. split.
    - intros Heq. injection Heq as -> -> -> -> ->. auto.
    - intros (-> & -> & -> & -> & ->). reflexivity. }
  assert (Hstats : forall key,
             (forall s, In s (inputStats (r :: rs)) -> Stat.lookupKey s <> key) <->
             (forall report s, In report (r :: rs) -> In s (globalStats report) ->
                               Stat.lookupKey s <> key)).
  { intros key. unfold inputStats. split.
    - intros H report s Hr Hs. apply H. apply in_flat_map. exists report. auto.
    - intros H s Hs. apply in_flat_map in Hs. destruct Hs as (report & Hr & Hs).
      exact (H report s Hr Hs). }
  assert (Hiff : forall key val,
             isUnused (mergeStats (r :: rs)) atlasPageNames key val = true <->
             (forall s, In s (inputStats (r :: rs)) -> Stat.lookupKey s <> key) /\
             JsSet.has atlasPageNames (originalPath val)
             || JsSet.has atlasPageNames (pathFileName (originalPath val))
             = false).
  { intros key val. unfold isUnused.
    destruct (JsMap.has (mergeStats (r :: rs)) key) eqn:Hhas.
    - split; [discriminate|]. intros (Hno & _). exfalso.
      unfold JsMap.has in Hhas.
      destruct (JsMap.get (mergeStats (r :: rs)) key) as [s|] eqn:Hget;
        [|discriminate].
      apply get_some_in_keys, Hkeys in Hget. destruct Hget as (s' & Hs' & Hk).
      apply (Hno s' Hs' Hk).
    - apply has_false_iff in Hhas.
      destruct (_ || _) eqn:Hpage.
      + split; [discriminate|]. intros (_ & H). discriminate.
      + split; [|reflexivity].
        intros _. split; [|reflexivity].
        intros s Hs Hk. apply Hhas, Hkeys. exists s. split; assumption. }
  split.
  - intros (key & val & Hin & Hu & Hun). exists key, val.
    split; [exact Hin|]. split; [apply Hrecord, Hu|].
    apply Hiff in Hun. destruct Hun as [Hno Hpage].
    split; [apply Hstats, Hno|]. apply pageTest_spec, Hpage.
  - intros (key & val & Hin & Hu & Hno & Hpage). exists key, val.
    split; [exact Hin|]. split; [apply Hrecord, Hu|].
    apply Hiff. split; [apply Hstats, Hno|]. apply pageTest_spec, Hpage.
Qed.

End MergedReport.

Section MergedNames.
Import Types SpineNotions SpineReports.

Lemma ascii_compare_lt_trans (a b c : ascii) :
  Ascii.compare a b = Lt -> Ascii.compare b c = Lt -> Ascii.compare a c = Lt.
Proof.
  unfold Ascii.compare. rewrite !N.compare_lt_iff. lia.
Qed.

Lemma string_compare_lt_trans (a : string) :
  forall b c, String.compare a b = Lt -> String.compare b c = Lt ->
              String.compare a c = Lt.
Proof.
  induction a as [|x a IH]; intros [|y b] [|z c]; cbn; try discriminate; auto.
  destruct (Ascii.compare x y) eqn:Exy; try discriminate.
  - apply Ascii.compare_eq_iff in Exy. subst y.
    destruct (Ascii.compare x z) eqn:Exz; try discriminate; auto.
    apply IH.
  - destruct (Ascii.compare y z) eqn:Eyz; try discriminate.
    + apply Ascii.compare_eq_iff in Eyz. subst z. rewrite Exy. reflexivity.
    + rewrite (ascii_compare_lt_trans _ _ _ Exy Eyz). reflexivity.
Qed.

Lemma ltb_trans (a b c : string) :
  String.ltb a b = true -> String.ltb b c = true -> String.ltb a c = true.
Proof.
  unfold String.ltb.
  destruct (String.compare a b) eqn:Eab; try discriminate.
  destruct (String.compare b c) eqn:Ebc; try discriminate.
  rewrite (string_compare_lt_trans _ _ _ Eab Ebc). reflexivity.
Qed.

Lemma ltb_total (a b : string) :
  a <> b -> String.ltb a b = false -> String.ltb b a = true.
Proof.
  unfold String.ltb. intros Hne. rewrite (String.compare_antisym a b).
  destruct (String.compare b a) eqn:E; cbn; try discriminate; auto.
  apply String.compare_eq_iff in E. congruence.
Qed.

Lemma insertString_in (x y : string) (l : list string) :
  In y (insertString x l) <-> y = x \/ In y l.
Proof.
  induction l as [|u l IH]; cbn; [intuition|].
  destruct (String.ltb u x); cbn; rewrite ?IH; intuition.
Qed.

Lemma sortStrings_in (y : string) (l : list string) :
  In y (sortStrings l) <-> In y l.
Proof.
  induction l as [|x l IH]; cbn; [reflexivity|].
  rewrite insertString_in, IH. intuition.
Qed.

Lemma insertString_sorted (x : string) (l : list string) :
  ~ In x l ->
  StronglySorted (fun a b => String.ltb a b = true) l ->
  StronglySorted (fun a b => String.ltb a b = true) (insertString x l).
Proof.
  induction l as [|u l IH]; intros Hnot Hs; cbn.
  - constructor; constructor.
  - apply StronglySorted_inv in Hs. destruct Hs as [Hs Hall].
    destruct (String.ltb u x) eqn:E.
    + constructor.
      * apply IH; [intros H; apply Hnot; right; exact H | exact Hs].
      * apply Forall_forall. intros y Hy. apply insertString_in in Hy.
        destruct Hy as [-> | Hy]; [exact E|].
        rewrite Forall_forall in Hall. apply Hall, Hy.
    + assert (Hxu : String.ltb x u = true).
      { apply ltb_total; [|exact E]. intros ->. apply Hnot. left. reflexivity. }
      constructor; [constructor; assumption|].
      constructor; [exact Hxu|].
      apply Forall_forall. intros y Hy. rewrite Forall_forall in Hall.
      eapply ltb_trans; [exact Hxu | apply Hall, Hy].
Qed.

Lemma sortStrings_sorted (l : list string) :
  NoDup l -> StronglySorted (fun a b => String.ltb a b = true) (sortStrings l).
Proof.
  induction 1 as [|x l Hnot Hnd IH]; cbn; [constructor|].
  apply insertString_sorted; [|exact IH].
  rewrite sortStrings_in. exact Hnot.
Qed.

Lemma has_true_iff (s : JsSet.t) (x : string) :
  JsSet.has s x = true <-> In x s.
Proof.
  unfold JsSet.has. rewrite existsb_exists. split.
  - intros (y & Hy & E). apply String.eqb_eq in E. subst. exact Hy.
  - intros H. exists x. split; [exact H | apply String.eqb_refl].
Qed.

Lemma add_spec (s : JsSet.t) (x : string) :
  NoDup s ->
  NoDup (JsSet.add s x) /\ (forall y, In y (JsSet.add s x) <-> y = x \/ In y s).
Proof.
  intros Hnd. unfold JsSet.add. destruct (JsSet.has s x) eqn:E.
  - apply has_true_iff in E. split; [exact Hnd|].
    intros y. split; [auto|]. intros [-> | H]; assumption.
  - assert (Hnot : ~ In x s).
    { intros H. apply has_true_iff in H. congruence. }
    split.
    + apply NoDup_app; [exact Hnd | constructor; [intros [] | constructor] |].
      intros y Hy [<- | []]. exact (Hnot Hy).
    + intros y. rewrite in_app_iff. cbn. intuition.
Qed.

Lemma addAll_spec (l : list string) :
  forall s, NoDup s ->
            NoDup (addAll s l) /\
            (forall y, In y (addAll s l) <-> In y l \/ In y s).
Proof.
  unfold addAll. induction l as [|x l IH]; intros s Hnd; cbn [fold_left].
  - split; [exact Hnd|]. intros y. cbn. intuition.
  - destruct (add_spec s x Hnd) as [H1 H2].
    destruct (IH _ H1) as [I1 I2]. split; [exact I1|].
    intros y. rewrite I2, H2. cbn. intuition.
Qed.

Lemma mergedNames_spec (names : AnalysisReport -> list string)
      (reports : list AnalysisReport) :
  forall s, NoDup s ->
            let all := fold_left (fun s r => addAll s (names r)) reports s in
            NoDup all /\
            (forall y, In y all <->
                       (exists r, In r reports /\ In y (names r)) \/ In y s).
Proof.
  induction reports as [|r rs IH]; intros s Hnd; cbn zeta; cbn [fold_left].
  - split; [exact Hnd|]. intros y. split; [auto|].
    intros [(r & [] & _) | H]. exact H.
  - destruct (addAll_spec (names r) s Hnd) as [H1 H2].
    destruct (IH _ H1) as [I1 I2]. cbn zeta in *. split; [exact I1|].
    intros y. rewrite I2, H2. split.
    + intros [(r' & Hr' & Hy) | [Hy | Hy]].
      * left. exists r'. split; [right; exact Hr' | exact Hy].
      * left. exists r. split; [left; reflexivity | exact Hy].
      * right. exact Hy.
    + intros [(r' & [<- | Hr'] & Hy) | Hy].
      * right. left. exact Hy.
      * left. exists r'. split; assumption.
      * right. right. exact Hy.
Qed.

Lemma sortedNames_spec (names : AnalysisReport -> list string)
      (reports : list AnalysisReport) :
  let merged :=
    sortStrings (fold_left (fun s r => addAll s (names r)) reports []) in
  StronglySorted (fun a b => String.ltb a b = true) merged /\
  (forall y, In y merged <-> exists r, In r reports /\ In y (names r)).
Proof.
  destruct (mergedNames_spec names reports [] (NoDup_nil _)) as [H1 H2].
  cbn zeta in *. split.
  - apply sortStrings_sorted, H1.
  - intros y. rewrite sortStrings_in, H2. split; [intros [H | []]; exact H | auto].
Qed.

(** X18: the skins, the events and the control bones of the merged report
    are each in strictly increasing order of code units, so without
    repetition, and hold exactly the names that some report has. *)
Theorem X18_merged_names_sorted_and_unique
        (r : AnalysisReport) (rs : list AnalysisReport)
        (availableFiles : JsMap.t Asset) (atlasPageNames : JsSet.t) :
  let merged := mergeAnalysisReports (r :: rs) availableFiles atlasPageNames in
  let increasing := StronglySorted (fun a b => String.ltb a b = true) in
  (increasing (skins merged) /\
   forall y, In y (skins merged) <->
             exists r', In r' (r :: rs) /\ In y (skins r')) /\
  (increasing (events merged) /\
   forall y, In y (events merged) <->
             exists r', In r' (r :: rs) /\ In y (events r')) /\
  (increasing (controlBones merged) /\
   forall y, In y (controlBones merged) <->
             exists r', In r' (r :: rs) /\ In y (controlBones r')).
Proof.
  cbn zeta. cbn [mergeAnalysisReports skins events controlBones].
  split; [|split].
  - apply (sortedNames_spec skins (r :: rs)).
  - apply (sortedNames_spec events (r :: rs)).
  - apply (sortedNames_spec controlBones (r :: rs)).
Qed.

End MergedNames.

Section MergedReportExamples.
Import Types SpineNotions SpineReports ReportSamples.

(** No directory put before "/page.png" gives the path of the spare
    image. *)
Lemma spare_is_no_page (dir : string) :
  originalPath spareAsset <> (dir ++ "/" ++ "page.png")%string.
Proof.
  cbn. intros H.
  do 16 (destruct dir as [|? dir]; cbn in H; [discriminate|];
         injection H as _ H).
  destruct dir; discriminate.
Qed.

Lemma X17_unused_assets_of_merged_report_witness :
  let merged :=
    mergeAnalysisReports [heroReport]
      [("hero"%string, heroAsset); ("page"%string, pageAsset);
       ("spare"%string, spareAsset)]
      ["page.png"%string] in
  In {| path := "images/spare.png"; fileName := "spare.png";
        width := 64; height := 32; size := 2048 |} (unusedAssets merged) /\
  ~ In {| path := "atlas/page.png"; fileName := "page.png";
          width := 512; height := 512; size := 4096 |} (unusedAssets merged) /\
  ~ In {| path := "images/hero.png"; fileName := "hero.png";
          width := 200; height := 100; size := 8192 |} (unusedAssets merged).
Proof.
  cbv zeta. split; [|split].
  - apply (X17_unused_assets_of_merged_report
             [heroReport] _ _ _ ltac:(discriminate)).
    exists "spare"%string, spareAsset.
    split; [right; right; left; reflexivity|].
    split; [repeat split|].
    split.
    { intros report s [<- | []] [<- | []]. discriminate. }
    split.
    { intros [H | []]. discriminate. }
    intros dir seg Heq _ _ [<- | []]. exact (spare_is_no_page dir Heq).
  - intros Hin.
    apply (X17_unused_assets_of_merged_report
             [heroReport] _ _ _ ltac:(discriminate)) in Hin.
    destruct Hin as (key & val & Hval & (Hpath & _) & _ & _ & Hsegs).
    destruct Hval as [Hv | [Hv | [Hv | []]]]; injection Hv as <- <-;
      try discriminate Hpath.
    apply (Hsegs "atlas"%string "page.png"%string eq_refl).
    + apply slashFree_iff. reflexivity.
    + discriminate.
    + left. reflexivity.
  - intros Hin.
    apply (X17_unused_assets_of_merged_report
             [heroReport] _ _ _ ltac:(discriminate)) in Hin.
    destruct Hin as (key & val & Hval & (Hpath & _) & Hstats & _).
    destruct Hval as [Hv | [Hv | [Hv | []]]]; injection Hv as <- <-;
      try discriminate Hpath.
    apply (Hstats heroReport heroStat); [left | left |]; reflexivity.
Defined.

End MergedReportExamples.

(* ================================================================== *)
(** * Properties of the atlas page names *)

Section CleansedNames.
Import JsString AtlasParser AtlasPages.

Lemma str_app_nil_r (s : string) : (s ++ "")%string = s.
Proof.
  induction s as [|c s IH]; cbn; [reflexivity | rewrite IH; reflexivity].
Qed.

Lemma str_app_assoc (a b c : string) :
  ((a ++ b) ++ c)%string = (a ++ (b ++ c))%string.
Proof.
  induction a as [|x a IH]; cbn; [reflexivity | rewrite IH; reflexivity].
Qed.

Lemma str_app_inj (a b c d : string) :
  (a ++ b)%string = (c ++ d)%string -> String.length a = String.length c ->
  a = c /\ b = d.
Proof.
  revert c. induction a as [|x a IH]; intros [|y c]; cbn; try discriminate.
  - auto.
  - intros H Hlen. injection H as -> H. injection Hlen as Hlen.
    destruct (IH c H Hlen) as [-> ->]. auto.
Qed.

Lemma str_app_inv_tail (a b c : string) :
  (a ++ c)%string = (b ++ c)%string -> a = b.
Proof.
  intros H. apply (str_app_inj a c b c H).
  apply (f_equal String.length) in H. rewrite !length_append in H. lia.
Qed.

Lemma string_length_ind (P : string -> Prop) :
  (forall r, (forall r', (String.length r' < String.length r)%nat -> P r') -> P r) ->
  forall r, P r.
Proof.
  intros Hstep.
  assert (H : forall n r, (String.length r < n)%nat -> P r).
  { induction n as [|n IH]; intros r Hr; [lia|].
    apply Hstep. intros r' Hr'. apply IH. lia. }
  intros r. apply (H (S (String.length r))). lia.
Qed.

(** ** Reversal *)

Lemma reverse_acc (s : string) :
  forall acc, reverse s acc = (reversed s ++ acc)%string.
Proof.
  unfold reversed. induction s as [|c s IH]; intros acc; cbn; [reflexivity|].
  rewrite (IH (String c acc)), (IH (String c EmptyString)), str_app_assoc.
  reflexivity.
Qed.

Lemma reversed_cons (c : ascii) (s : string) :
  reversed (String c s) = (reversed s ++ String c EmptyString)%string.
Proof.
  unfold reversed at 1. cbn. apply reverse_acc.
Qed.

Lemma reversed_app (a b : string) :
  reversed (a ++ b) = (reversed b ++ reversed a)%string.
Proof.
  induction a as [|c a IH]; cbn [append].
  - change (reversed EmptyString) with EmptyString.
    rewrite str_app_nil_r. reflexivity.
  - rewrite !reversed_cons, IH, str_app_assoc. reflexivity.
Qed.

Lemma reversed_involutive (s : string) : reversed (reversed s) = s.
Proof.
  induction s as [|c s IH]; [reflexivity|].
  rewrite reversed_cons, reversed_app, IH. reflexivity.
Qed.

Lemma reversed_length (s : string) :
  String.length (reversed s) = String.length s.
Proof.
  induction s as [|c s IH]; [reflexivity|].
  rewrite reversed_cons, length_append, IH. cbn. lia.
Qed.

(** ** Character maps *)

Lemma mapChars_app (f : ascii -> ascii) (a b : string) :
  mapChars f (a ++ b) = (mapChars f a ++ mapChars f b)%string.
Proof.
  induction a as [|c a IH]; cbn; [reflexivity | rewrite IH; reflexivity].
Qed.

Lemma mapChars_length (f : ascii -> ascii) (s : string) :
  String.length (mapChars f s) = String.length s.
Proof.
  induction s as [|c s IH]; cbn; [reflexivity | rewrite IH; reflexivity].
Qed.

Lemma mapChars_app_inv (f : ascii -> ascii) (a b : string) :
  forall s, mapChars f s = (a ++ b)%string ->
            exists s1 s2, s = (s1 ++ s2)%string /\
                          mapChars f s1 = a /\ mapChars f s2 = b.
Proof.
  induction a as [|x a IH]; intros s H; cbn in H.
  - exists EmptyString, s. auto.
  - destruct s as [|c s]; cbn in H; [discriminate|].
    injection H as Hc H. destruct (IH s H) as (s1 & s2 & -> & H1 & H2).
    exists (String c s1), s2. cbn. rewrite Hc, H1. auto.
Qed.

Lemma backslashes_idempotent (s : string) :
  backslashesToSlashes (backslashesToSlashes s) = backslashesToSlashes s.
Proof.
  unfold backslashesToSlashes. induction s as [|c s IH]; cbn; [reflexivity|].
  rewrite IH. f_equal. destruct (Ascii.eqb c "\"%char) eqn:E; [reflexivity|].
  rewrite E. reflexivity.
Qed.

(** ** Suffixes *)

Lemma substring_append_skip (a b : string) (n m : nat) :
  substring (String.length a + n) m (a ++ b) = substring n m b.
Proof.
  induction a as [|c a IH]; cbn; [reflexivity | exact IH].
Qed.

Lemma endsWith_app_short (a b e : string) :
  (String.length e <= String.length b)%nat ->
  endsWith (a ++ b) e = endsWith b e.
Proof.
  intros Hlen. unfold endsWith. rewrite length_append.
  replace (String.length a + String.length b - String.length e)%nat
    with (String.length a + (String.length b - String.length e))%nat by lia.
  rewrite substring_append_skip.
  replace (Nat.leb (String.length e) (String.length a + String.length b))
    with true by (symmetry; apply Nat.leb_le; lia).
  replace (Nat.leb (String.length e) (String.length b))
    with true by (symmetry; apply Nat.leb_le; lia).
  reflexivity.
Qed.

(** ** Trimming *)

Lemma trimStart_head (s : string) (c : ascii) (t : string) :
  trimStart s = String c t -> isWhiteSpace c = false.
Proof.
  induction s as [|d s IH]; cbn; [discriminate|].
  destruct (isWhiteSpace d) eqn:E; [exact IH|].
  intros H. injection H as <- _. exact E.
Qed.

Lemma trimEnd_head (s : string) (c : ascii) (t : string) :
  trimEnd s = String c t -> exists t', s = String c t'.
Proof.
  destruct s as [|d s]; cbn; [discriminate|].
  destruct (trimEnd s).
  - destruct (isWhiteSpace d); [discriminate|].
    intros H. injection H as <- _. eauto.
  - intros H. injection H as <- _. eauto.
Qed.

Lemma trimEnd_app (a b : string) :
  trimEnd b <> EmptyString -> trimEnd (a ++ b) = (a ++ trimEnd b)%string.
Proof.
  intros Hb. induction a as [|c a IH]; cbn; [reflexivity|].
  rewrite IH. destruct (a ++ trimEnd b)%string eqn:E; [|reflexivity].
  exfalso. destruct a; cbn in E; [contradiction | discriminate].
Qed.

(** ** The loop that strips extensions *)

Lemma strip_eq (c1 c2 c3 c4 : ascii) (rest : string) :
  stripExtensionsRev (String c1 (String c2 (String c3 (String c4 rest))))
  = let four :=
      String (lowerChar c4) (String (lowerChar c3) (String (lowerChar c2)
        (String (lowerChar c1) EmptyString))) in
    if String.eqb four ".png" || String.eqb four ".jpg"
    then stripExtensionsRev rest
    else
      match rest with
      | String c5 rest' =>
          if String.eqb (String (lowerChar c5) four) ".jpeg" ||
             String.eqb (String (lowerChar c5) four) ".webp"
          then stripExtensionsRev rest'
          else String c1 (String c2 (String c3 (String c4 rest)))
      | EmptyString => String c1 (String c2 (String c3 (String c4 rest)))
      end.
Proof. reflexivity. Qed.

(** A turn of the loop ends it or goes on with a shorter string. *)
Lemma strip_cases (r : string) :
  stripExtensionsRev r = r \/
  exists e rest, r = (e ++ rest)%string /\
                 (String.length rest < String.length r)%nat /\
                 stripExtensionsRev r = stripExtensionsRev rest.
Proof.
  destruct r as [|c1 [|c2 [|c3 [|c4 rest]]]]; try (left; reflexivity).
  rewrite strip_eq. cbv zeta.
  destruct (_ || _).
  - right. exists (String c1 (String c2 (String c3 (String c4 EmptyString)))), rest.
    split; [reflexivity|]. split; [cbn; lia | reflexivity].
  - destruct rest as [|c5 rest']; [left; reflexivity|].
    destruct (_ || _); [|left; reflexivity].
    right.
    exists (String c1 (String c2 (String c3 (String c4 (String c5 EmptyString))))),
           rest'.
    split; [reflexivity|]. split; [cbn; lia | reflexivity].
Qed.

Lemma strip_length (r : string) :
  (String.length (stripExtensionsRev r) <= String.length r)%nat.
Proof.
  induction r as [r IH] using string_length_ind.
  destruct (strip_cases r) as [H | (e & rest & _ & Hlen & H)]; rewrite H.
  - lia.
  - specialize (IH rest Hlen). lia.
Qed.

Lemma strip_suffix (r : string) :
  exists e, r = (e ++ stripExtensionsRev r)%string.
Proof.
  induction r as [r IH] using string_length_ind.
  destruct (strip_cases r) as [H | (e & rest & Hr & Hlen & H)]; rewrite H.
  - exists EmptyString. reflexivity.
  - destruct (IH rest Hlen) as [e' He']. exists (e ++ e')%string.
    rewrite str_app_assoc, <- He'. exact Hr.
Qed.

Lemma strip_idempotent (r : string) :
  stripExtensionsRev (stripExtensionsRev r) = stripExtensionsRev r.
Proof.
  induction r as [r IH] using string_length_ind.
  destruct (strip_cases r) as [H | (e & rest & _ & Hlen & H)]; rewrite H.
  - exact H.
  - apply IH, Hlen.
Qed.

(** Where the loop stops no extension is left. *)
Lemma strip_fixed_noext (r : string) :
  stripExtensionsRev r = r ->
  forall e, In e imageExtensions ->
            endsWith (toLowerCase (reversed r)) e = false.
Proof.
  intros Hfix e He.
  destruct (endsWith (toLowerCase (reversed r)) e) eqn:E; [|reflexivity].
  exfalso. apply endsWith_inv in E. destruct E as [pre Hpre].
  unfold toLowerCase in Hpre. apply mapChars_app_inv in Hpre.
  destruct Hpre as (p & q & Hrq & _ & Hq).
  assert (Hr : r = (reversed q ++ reversed p)%string).
  { rewrite <- reversed_app, <- Hrq, reversed_involutive. reflexivity. }
  assert (Hlt : (String.length (stripExtensionsRev r) < String.length r)%nat).
  { pose proof (strip_length (reversed p)) as Hp.
    destruct He as [<- | [<- | [<- | [<- | []]]]].
    - destruct q as [|a [|b [|c [|d [|? ?]]]]]; cbn in Hq; try discriminate.
      injection Hq as Ha Hb Hc Hd. subst r.
      unfold reversed at 1. cbn [reverse append].
      rewrite strip_eq. cbv zeta. rewrite Ha, Hb, Hc, Hd.
      cbn [String.eqb Ascii.eqb Bool.eqb andb orb String.length]. cbn. lia.
    - destruct q as [|a [|b [|c [|d [|? ?]]]]]; cbn in Hq; try discriminate.
      injection Hq as Ha Hb Hc Hd. subst r.
      unfold reversed at 1. cbn [reverse append].
      rewrite strip_eq. cbv zeta. rewrite Ha, Hb, Hc, Hd.
      cbn. lia.
    - destruct q as [|a [|b [|c [|d [|e' [|? ?]]]]]]; cbn in Hq; try discriminate.
      injection Hq as Ha Hb Hc Hd He'. subst r.
      unfold reversed at 1. cbn [reverse append].
      rewrite strip_eq. cbv zeta. rewrite Ha, Hb, Hc, Hd, He'.
      cbn. lia.
    - destruct q as [|a [|b [|c [|d [|e' [|? ?]]]]]]; cbn in Hq; try discriminate.
      injection Hq as Ha Hb Hc Hd He'. subst r.
      unfold reversed at 1. cbn [reverse append].
      rewrite strip_eq. cbv zeta. rewrite Ha, Hb, Hc, Hd, He'.
      cbn. lia. }
  rewrite Hfix in Hlt. lia.
Qed.

(** ** Cleansed names *)

Lemma cleanse_eq (fileName : string) :
  cleanseAtlasPageName fileName
  = let name := backslashesToSlashes (trim fileName) in
    (reversed (stripExtensionsRev (reversed name))
     ++ match matchExtension name with
        | Some e => e
        | None => ".png"
        end)%string.
Proof. reflexivity. Qed.

(** A cleansed name is a prefix of the trimmed name that no extension
    ends, followed by one extension of the list. *)
Lemma cleanse_shape (fileName : string) :
  exists base ext tail,
    cleanseAtlasPageName fileName = (base ++ ext)%string /\
    In ext imageExtensions /\
    stripExtensionsRev (reversed base) = reversed base /\
    backslashesToSlashes (trim fileName) = (base ++ tail)%string.
Proof.
  rewrite cleanse_eq. cbv zeta.
  set (name := backslashesToSlashes (trim fileName)).
  destruct (strip_suffix (reversed name)) as [e He].
  exists (reversed (stripExtensionsRev (reversed name))),
         (match matchExtension name with Some e => e | None => ".png"%string end),
         (reversed e).
  split; [reflexivity|]. split; [|split].
  - destruct (matchExtension name) as [x|] eqn:E.
    + unfold matchExtension in E. apply find_some in E. apply E.
    + left. reflexivity.
  - rewrite reversed_involutive. apply strip_idempotent.
  - rewrite <- reversed_app, <- He, reversed_involutive. reflexivity.
Qed.

Section Shape.
Variables (fileName base ext tail : string).
Hypothesis Hext : In ext imageExtensions.
Hypothesis Hfix : stripExtensionsRev (reversed base) = reversed base.
Hypothesis Hname : backslashesToSlashes (trim fileName) = (base ++ tail)%string.

Lemma shape_trim : trim (base ++ ext) = (base ++ ext)%string.
Proof using All.
  unfold trim.
  assert (Hstart : trimStart (base ++ ext) = (base ++ ext)%string).
  { destruct base as [|c b].
    - cbn [append]. destruct Hext as [<- | [<- | [<- | [<- | []]]]]; reflexivity.
    - cbn [append trimStart].
      assert (Hc : isWhiteSpace c = false).
      { unfold backslashesToSlashes in Hname.
        destruct (trim fileName) as [|c0 t0] eqn:Et; cbn in Hname; [discriminate|].
        injection Hname as Hc0 _. unfold trim in Et.
        apply trimEnd_head in Et. destruct Et as [t' Et].
        apply trimStart_head in Et. subst c.
        destruct (Ascii.eqb c0 "\"%char); [reflexivity | exact Et]. }
      rewrite Hc. reflexivity. }
  rewrite Hstart.
  assert (Hend : trimEnd ext = ext)
    by (destruct Hext as [<- | [<- | [<- | [<- | []]]]]; reflexivity).
  rewrite trimEnd_app; rewrite Hend; [reflexivity|].
  destruct Hext as [<- | [<- | [<- | [<- | []]]]]; discriminate.
Qed.

Lemma shape_slashes :
  backslashesToSlashes (base ++ ext) = (base ++ ext)%string.
Proof using All.
  pose proof (backslashes_idempotent (trim fileName)) as H.
  rewrite Hname in H. unfold backslashesToSlashes in *.
  rewrite mapChars_app in H. apply str_app_inj in H;
    [|apply mapChars_length].
  destruct H as [Hbase _]. rewrite mapChars_app, Hbase. f_equal.
  destruct Hext as [<- | [<- | [<- | [<- | []]]]]; reflexivity.
Qed.

Lemma shape_lower :
  toLowerCase (base ++ ext) = (toLowerCase base ++ ext)%string.
Proof using All.
  unfold toLowerCase. rewrite mapChars_app. f_equal.
  destruct Hext as [<- | [<- | [<- | [<- | []]]]]; reflexivity.
Qed.

Lemma shape_matchExtension : matchExtension (base ++ ext) = Some ext.
Proof using All.
  unfold matchExtension. rewrite shape_lower.
  unfold imageExtensions. cbn [find].
  destruct Hext as [<- | [<- | [<- | [<- | []]]]];
    repeat (rewrite endsWith_app_short by (cbn; lia)); reflexivity.
Qed.

Lemma shape_strip :
  stripExtensionsRev (reversed (base ++ ext)) = reversed base.
Proof using All.
  rewrite reversed_app.
  transitivity (stripExtensionsRev (reversed base)); [|exact Hfix].
  destruct Hext as [<- | [<- | [<- | [<- | []]]]]; reflexivity.
Qed.

Lemma shape_no_double (d : string) :
  In d [".png"; ".jpg"]%string ->
  endsWith (toLowerCase (base ++ ext)) (d ++ d) = false.
Proof using All.
  intros Hd. rewrite shape_lower.
  destruct (endsWith (toLowerCase base ++ ext) (d ++ d)) eqn:E; [|reflexivity].
  exfalso. apply endsWith_inv in E. destruct E as [pre Hpre].
  rewrite <- str_app_assoc in Hpre.
  assert (Hd' : endsWith ext d = true).
  { rewrite <- (endsWith_app_short (toLowerCase base)).
    - rewrite Hpre. apply endsWith_append.
    - destruct Hd as [<- | [<- | []]];
        destruct Hext as [<- | [<- | [<- | [<- | []]]]]; cbn; lia. }
  assert (Heq : ext = d).
  { destruct Hd as [<- | [<- | []]];
      destruct Hext as [<- | [<- | [<- | [<- | []]]]];
      try reflexivity; discriminate Hd'. }
  subst d. apply str_app_inv_tail in Hpre.
  assert (Hends : endsWith (toLowerCase base) ext = true)
    by (rewrite Hpre; apply endsWith_append).
  rewrite <- (reversed_involutive base) in Hends.
  rewrite (strip_fixed_noext _ Hfix ext Hext) in Hends. discriminate.
Qed.

Lemma shape_hasExt :
  existsb (endsWith (toLowerCase (base ++ ext))) imageExtensions = true.
Proof using All.
  apply existsb_exists. exists ext. split; [exact Hext|].
  rewrite shape_lower. apply endsWith_append.
Qed.

End Shape.

Lemma cleansed_cleanse (p : string) :
  cleansedName p -> cleanseAtlasPageName p = p.
Proof.
  intros [fileName ->].
  destruct (cleanse_shape fileName) as (base & ext & tail & -> & He & Hfix & Hn).
  rewrite cleanse_eq. cbv zeta.
  rewrite (shape_trim fileName base ext tail He Hfix Hn).
  rewrite (shape_slashes fileName base ext tail He Hfix Hn).
  rewrite (shape_matchExtension fileName base ext tail He Hfix Hn).
  rewrite (shape_strip fileName base ext tail He Hfix Hn).
  rewrite reversed_involutive. reflexivity.
Qed.

Lemma cleansed_normalize (p : string) :
  cleansedName p -> normalizePageName p = p.
Proof.
  intros [fileName ->].
  destruct (cleanse_shape fileName) as (base & ext & tail & -> & He & Hfix & Hn).
  unfold normalizePageName.
  rewrite (shape_trim fileName base ext tail He Hfix Hn).
  rewrite (shape_slashes fileName base ext tail He Hfix Hn).
  change ".png.png"%string with (".png" ++ ".png")%string.
  change ".jpg.jpg"%string with (".jpg" ++ ".jpg")%string.
  rewrite (shape_no_double fileName base ext tail He Hfix Hn ".png")
    by (left; reflexivity).
  rewrite (shape_no_double fileName base ext tail He Hfix Hn ".jpg")
    by (right; left; reflexivity).
  cbv zeta. rewrite (shape_hasExt fileName base ext tail He Hfix Hn). reflexivity.
Qed.

Lemma cleansed_extension (p : string) :
  cleansedName p -> exists e, In e imageExtensions /\ endsWith p e = true.
Proof.
  intros [fileName ->].
  destruct (cleanse_shape fileName) as (base & ext & tail & -> & He & _).
  exists ext. split; [exact He | apply endsWith_append].
Qed.

(** X20: a cleansed page name ends in one of the four extensions in lower
    case, and cleansing it again gives the same name. *)
Theorem X20_cleansing_is_idempotent (fileName : string) :
  (exists e, In e imageExtensions /\
             endsWith (cleanseAtlasPageName fileName) e = true) /\
  cleanseAtlasPageName (cleanseAtlasPageName fileName)
  = cleanseAtlasPageName fileName.
Proof.
  split.
  - apply cleansed_extension. exists fileName. reflexivity.
  - apply cleansed_cleanse. exists fileName. reflexivity.
Qed.

(** ** The pages of a parsed atlas *)

Lemma applyProperty_pageName (region : AtlasRegion) (key val : string) :
  pageName (applyProperty region key val) = pageName region.
Proof.
  unfold applyProperty.
  repeat match goal with
         | |- context [if ?c then _ else _] => destruct c
         end; reflexivity.
Qed.

Lemma classify_region (st : ParserState) (rawLine page line : string) :
  classify st rawLine = RegionLine page line -> currentPage st = Some page.
Proof.
  unfold classify. destruct (Nat.eqb _ 0); [discriminate|].
  destruct (currentPage st) as [p|]; [|discriminate].
  destruct (indexOfChar _ _) as [i|].
  - destruct (isPropertyKey _); [discriminate|].
    intros H. injection H as <- _. reflexivity.
  - intros H. injection H as <- _. reflexivity.
Qed.

Lemma step_pagesCleansed (st : ParserState) (rawLine : string) :
  pagesCleansed st -> pagesCleansed (step st rawLine).
Proof.
  intros [Hpage Hregion]. unfold step.
  destruct (classify st rawLine) as [|line|key val|page line] eqn:Ec;
    split; cbn.
  - discriminate.
  - destruct (pendingRegion st); [discriminate | exact Hregion].
  - intros p H. injection H as <-. exists line. reflexivity.
  - exact Hregion.
  - exact Hpage.
  - destruct (currentRegion st) as [r0|]; [|discriminate].
    intros r H. injection H as <-. rewrite applyProperty_pageName.
    apply Hregion. reflexivity.
  - exact Hpage.
  - intros r H. injection H as <-. cbn. apply Hpage.
    apply (classify_region st rawLine page line Ec).
Qed.

Lemma pending_cleansed (st : ParserState) (d : string * AtlasRegion) :
  pagesCleansed st -> pendingRegion st = Some d ->
  fst d <> EmptyString /\ cleansedName (pageName (snd d)).
Proof.
  intros [_ Hregion]. unfold pendingRegion.
  destruct (currentRegion st) as [r|]; [|discriminate].
  destruct (currentRegionName st) as [n|]; [|discriminate].
  destruct (String.eqb n "") eqn:E; [discriminate|].
  intros H. injection H as <-. cbn. split.
  - apply String.eqb_neq, E.
  - apply Hregion. reflexivity.
Qed.

Lemma declarationsFrom_cleansed :
  forall (lines : list string) (st : ParserState),
    pagesCleansed st ->
    forall d, In d (declarationsFrom st lines) ->
              fst d <> EmptyString /\ cleansedName (pageName (snd d)).
Proof.
  induction lines as [|rawLine lines IH]; intros st Hst d Hd; cbn in Hd.
  - destruct (pendingRegion st) as [d0|] eqn:Hp; [|destruct Hd].
    destruct Hd as [<- | []]. apply (pending_cleansed st d0 Hst Hp).
  - apply in_app_or in Hd. destruct Hd as [Hd | Hd].
    + unfold declaredAt in Hd.
      destruct (classify st rawLine); try (destruct Hd; fail);
        (destruct (pendingRegion st) as [d0|] eqn:Hp; [|destruct Hd]);
        destruct Hd as [<- | []]; apply (pending_cleansed st d0 Hst Hp).
    + apply (IH (step st rawLine)); [apply step_pagesCleansed, Hst | exact Hd].
Qed.

Lemma store_all_in (ds : list (string * AtlasRegion)) :
  forall (m : AtlasAssetMap) (kv : string * AtlasRegion),
    In kv (fold_left store ds m) -> In kv ds \/ In kv m.
Proof.
  induction ds as [|d ds IH]; intros m kv H; cbn in H; [auto|].
  destruct (IH _ _ H) as [H' | H']; [left; right; exact H'|].
  unfold store in H'. destruct kv as [k r], d as [k0 r0]. cbn in H'.
  apply in_set_inv in H'. destruct H' as [[-> ->] | H']; [left; left; reflexivity|].
  right. exact H'.
Qed.

(** What the parser stores is a declaration of the manifest. *)
Lemma parsed_declared (content : string) (kv : string * AtlasRegion) :
  In kv (parseAtlas content) -> In kv (regionDeclarations content).
Proof.
  unfold parseAtlas. rewrite parse_stores_declarations. intros H.
  apply store_all_in in H. destruct H as [H | []]. exact H.
Qed.

Lemma parsed_cleansed (content : string) (kv : string * AtlasRegion) :
  In kv (parseAtlas content) ->
  fst kv <> EmptyString /\ cleansedName (pageName (snd kv)).
Proof.
  intros H. apply parsed_declared in H.
  apply (declarationsFrom_cleansed (splitLines content EmptyString)
                                   initialState); [|exact H].
  split; intros ? Habs; discriminate Habs.
Qed.

(** X19: in the parsed map no two records share a key; every record is
    filed under its own name, which is not empty, and the page it names
    is a cleansed page name. *)
Theorem X19_parsed_records_keyed_by_name (content : string) :
  NoDup (JsMap.keys (parseAtlas content)) /\
  forall k r, In (k, r) (parseAtlas content) ->
              name r = k /\ k <> EmptyString /\
              cleanseAtlasPageName (pageName r) = pageName r.
Proof.
  split.
  - unfold parseAtlas. rewrite parse_stores_declarations.
    apply store_all_NoDup. constructor.
  - intros k r Hin. split; [|split].
    + apply parsed_declared in Hin.
      assert (Hinit : nameInStep initialState)
        by (intros d H; discriminate H).
      apply (declarationsFrom_names (splitLines content EmptyString)
                                    initialState Hinit (k, r) Hin).
    + apply (parsed_cleansed content (k, r) Hin).
    + apply cleansed_cleanse. apply (parsed_cleansed content (k, r) Hin).
Qed.

Lemma implicitPages_in (metadata : AtlasAssetMap) :
  forall (pages : JsSet.t) (p : string),
    NoDup pages ->
    (In p (fold_left
             (fun pages entry =>
                JsSet.add pages (normalizePageName (pageName (snd entry))))
             metadata pages) <->
     (exists entry, In entry metadata /\
                    normalizePageName (pageName (snd entry)) = p) \/
     In p pages).
Proof.
  induction metadata as [|entry metadata IH]; intros pages p Hnd; cbn [fold_left].
  - split; [auto|]. intros [(? & [] & _) | H]. exact H.
  - destruct (add_spec pages (normalizePageName (pageName (snd entry))) Hnd)
      as [H1 H2].
    rewrite (IH _ p H1), H2. split.
    + intros [(e & He & Hp) | [-> | H]].
      * left. exists e. split; [right; exact He | exact Hp].
      * left. exists entry. split; [left; reflexivity | reflexivity].
      * right. exact H.
    + intros [(e & [<- | He] & Hp) | H].
      * right. left. symmetry. exact Hp.
      * left. exists e. split; assumption.
      * right. right. exact H.
Qed.

(** X21: of a parsed atlas the implicitly used pages are exactly the page
    names of its records, as the parser wrote them: the normalisation of
    [getImplicitlyUsedAtlasPages] changes none of them. *)
Theorem X21_parsed_pages_are_kept_as_named (content : string) :
  (forall k r, In (k, r) (parseAtlas content) ->
               normalizePageName (pageName r) = pageName r) /\
  (forall p, In p (getImplicitlyUsedAtlasPages (parseAtlas content)) <->
             exists k r, In (k, r) (parseAtlas content) /\ pageName r = p).
Proof.
  assert (Hnorm : forall k r, In (k, r) (parseAtlas content) ->
                              normalizePageName (pageName r) = pageName r).
  { intros k r Hin. apply cleansed_normalize.
    apply (parsed_cleansed content (k, r) Hin). }
  split; [exact Hnorm|].
  intros p. unfold getImplicitlyUsedAtlasPages.
  rewrite implicitPages_in by constructor. split.
  - intros [([k r] & Hin & Hp) | []]. exists k, r. split; [exact Hin|].
    rewrite <- Hp. symmetry. apply (Hnorm k r Hin).
  - intros (k & r & Hin & Hp). left. exists (k, r). split; [exact Hin|].
    rewrite <- Hp. apply (Hnorm k r Hin).
Qed.

End CleansedNames.

(* ================================================================== *)
(** * Properties of the atlas unpacker *)

Section UnpackerProperties.
Import Types JsString AtlasParser AtlasUnpacker.

Lemma in_get_NoDup {V : Type} (m : JsMap.t V) (k : string) (v : V) :
  NoDup (JsMap.keys m) -> In (k, v) m -> JsMap.get m k = Some v.
Proof.
  induction m as [|[k' v'] m IH]; cbn; intros Hnd Hin; [destruct Hin|].
  inversion Hnd as [|? ? Hnot Hnd']; subst.
  destruct Hin as [H | H].
  - injection H as -> ->. rewrite String.eqb_refl. reflexivity.
  - destruct (String.eqb k' k) eqn:E; [|apply IH; assumption].
    apply String.eqb_eq in E. subst k'. exfalso. apply Hnot.
    apply (in_map fst) in H. exact H.
Qed.

(** What a region does to the groups. *)
Lemma groupRegion_spec (byPage : JsMap.t (list AtlasRegion))
      (region : AtlasRegion) :
  NoDup (JsMap.keys byPage) ->
  NoDup (JsMap.keys (groupRegion byPage region)) /\
  forall page,
    JsMap.get (groupRegion byPage region) page
    = if String.eqb (pageName region) page
      then Some (match JsMap.get byPage page with
                 | Some regions => regions
                 | None => []
                 end ++ [region])
      else JsMap.get byPage page.
Proof.
  intros Hnd. unfold groupRegion, JsMap.has.
  destruct (JsMap.get byPage (pageName region)) as [regions|] eqn:Hget.
  - rewrite Hget. split; [apply keys_set_NoDup, Hnd|].
    intros page. destruct (String.eqb (pageName region) page) eqn:E.
    + apply String.eqb_eq in E. subst page. rewrite Hget. apply get_set_same.
    + apply String.eqb_neq in E. apply get_set_other, E.
  - rewrite get_set_same. split; [apply keys_set_NoDup, keys_set_NoDup, Hnd|].
    intros page. destruct (String.eqb (pageName region) page) eqn:E.
    + apply String.eqb_eq in E. subst page. rewrite Hget. apply get_set_same.
    + apply String.eqb_neq in E. rewrite !get_set_other by exact E.
      reflexivity.
Qed.

Lemma groupRegion_fold (regions : list AtlasRegion) :
  forall byPage : JsMap.t (list AtlasRegion),
    NoDup (JsMap.keys byPage) ->
    NoDup (JsMap.keys (fold_left groupRegion regions byPage)) /\
    forall page,
      JsMap.get (fold_left groupRegion regions byPage) page
      = match JsMap.get byPage page,
              filter (fun r => String.eqb (pageName r) page) regions with
        | Some before, added => Some (before ++ added)
        | None, [] => None
        | None, added => Some added
        end.
Proof.
  induction regions as [|r regions IH]; intros byPage Hnd; cbn [fold_left filter].
  - split; [exact Hnd|]. intros page.
    destruct (JsMap.get byPage page); [rewrite app_nil_r|]; reflexivity.
  - destruct (groupRegion_spec byPage r Hnd) as [H1 H2].
    destruct (IH _ H1) as [I1 I2]. split; [exact I1|].
    intros page. rewrite I2, H2.
    destruct (String.eqb (pageName r) page).
    + destruct (JsMap.get byPage page) as [before|].
      * rewrite <- app_assoc. reflexivity.
      * reflexivity.
    + reflexivity.
Qed.

Lemma groupByPage_spec (regionsMap : AtlasAssetMap) :
  NoDup (JsMap.keys (groupByPage regionsMap)) /\
  forall page regions,
    In (page, regions) (groupByPage regionsMap) <->
    regions <> [] /\ regions = regionsOfPage regionsMap page.
Proof.
  unfold groupByPage, regionsOfPage.
  destruct (groupRegion_fold (JsMap.values regionsMap) [] (NoDup_nil _))
    as [Hnd Hget].
  split; [exact Hnd|]. intros page regions. specialize (Hget page).
  cbn [JsMap.get] in Hget. split.
  - intros Hin. apply (in_get_NoDup _ _ _ Hnd) in Hin. rewrite Hget in Hin.
    destruct (filter _ _) as [|r l]; [discriminate|].
    injection Hin as <-. split; [discriminate | reflexivity].
  - intros [Hne ->]. apply get_in. rewrite Hget.
    destruct (filter _ _) as [|r l]; [contradiction | reflexivity].
Qed.

(** X22: [unpackAtlas] groups the regions by page without loss: the
    groups have distinct page names, none is empty, and the group of a
    page holds all the regions of the map that name the page, in the
    order of the map. *)
Theorem X22_regions_grouped_by_page (regionsMap : AtlasAssetMap) :
  NoDup (JsMap.keys (groupByPage regionsMap)) /\
  (forall page regions,
      In (page, regions) (groupByPage regionsMap) <->
      regions <> [] /\ regions = regionsOfPage regionsMap page) /\
  (forall key region,
      In (key, region) regionsMap ->
      exists regions, In (pageName region, regions) (groupByPage regionsMap) /\
                      In region regions).
Proof.
  destruct (groupByPage_spec regionsMap) as [Hnd Hiff].
  split; [exact Hnd|]. split; [exact Hiff|].
  intros key region Hin.
  assert (Hr : In region (regionsOfPage regionsMap (pageName region))).
  { unfold regionsOfPage. apply filter_In. split.
    - unfold JsMap.values. apply in_map_iff. exists (key, region). auto.
    - apply String.eqb_refl. }
  exists (regionsOfPage regionsMap (pageName region)). split; [|exact Hr].
  apply Hiff. split; [|reflexivity].
  intros Habs. rewrite Habs in Hr. destruct Hr.
Qed.

Lemma endsWith_refl (s : string) : endsWith s s = true.
Proof.
  apply (endsWith_append EmptyString s).
Qed.

Lemma findBlob_some (images : JsMap.t Blob) (page : string) (blob : Blob) :
  findBlob images page = Some blob ->
  exists key, In (key, blob) images /\
              endsWith (toLowerCase key) (toLowerCase page) = true.
Proof.
  unfold findBlob. destruct (JsMap.get images page) as [b|] eqn:Hget.
  - intros H. injection H as ->. exists page. split.
    + apply get_in, Hget.
    + apply endsWith_refl.
  - destruct (find _ images) as [[key b]|] eqn:Hfind; [|discriminate].
    cbn. intros H. injection H as ->. apply find_some in Hfind.
    exists key. exact Hfind.
Qed.

Lemma findBlob_none (images : JsMap.t Blob) (page : string) :
  findBlob images page = None <->
  forall key blob, In (key, blob) images ->
                   endsWith (toLowerCase key) (toLowerCase page) = false.
Proof.
  split.
  - unfold findBlob. destruct (JsMap.get images page); [discriminate|].
    destruct (find _ images) as [[key b]|] eqn:Hfind; [discriminate|].
    intros _ key blob Hin.
    apply (find_none _ _ Hfind (key, blob) Hin).
  - intros Hall. destruct (findBlob images page) as [blob|] eqn:E;
      [|reflexivity].
    apply findBlob_some in E. destruct E as (key & Hin & Hends).
    rewrite (Hall key blob Hin) in Hends. discriminate.
Qed.

(** X23: a page of the atlas gets a blob exactly when the key of some
    image ends with the page name, letter case apart; the blob is that of
    such an image, and the image filed under the very page name when
    there is one. *)
Theorem X23_page_blob_lookup (images : JsMap.t Blob) (page : string) :
  (findBlob images page = None <->
   forall key blob, In (key, blob) images ->
                    endsWith (toLowerCase key) (toLowerCase page) = false) /\
  (forall blob, findBlob images page = Some blob ->
                exists key, In (key, blob) images /\
                            endsWith (toLowerCase key) (toLowerCase page) = true) /\
  (forall blob, JsMap.get images page = Some blob ->
                findBlob images page = Some blob).
Proof.
  split; [apply findBlob_none|]. split; [apply findBlob_some|].
  intros blob H. unfold findBlob. rewrite H. reflexivity.
Qed.

Section UnpackLoop.
Variable FileAsset : Type.
Variable processAtlasPage : nat -> Blob -> list AtlasRegion
                            -> option (list FileAsset).
Variable images : JsMap.t Blob.

Lemma unpackLoop_in (asset : FileAsset)
      (pages : list (string * list AtlasRegion)) :
  forall (index : nat) (out : list FileAsset),
    In asset (unpackLoop FileAsset processAtlasPage images index pages out) <->
    In asset out \/
    exists i page regions blob extracted,
      nth_error pages i = Some (page, regions) /\
      findBlob images page = Some blob /\
      processAtlasPage (index + i)%nat blob regions = Some extracted /\
      In asset extracted.
Proof.
  induction pages as [|[page regions] pages IH]; intros index out;
    cbn [unpackLoop].
  - split; [auto|]. intros [H | (i & ? & ? & ? & ? & Hn & _)]; [exact H|].
    destruct i; discriminate.
  - rewrite IH. unfold unpackPage. cbn [fst snd]. split.
    + intros [H | (i & p & rs & b & ex & Hn & Hb & Hp & Hin)].
      * destruct (findBlob images page) as [blob|] eqn:Hb; [|left; exact H].
        destruct (processAtlasPage index blob regions) as [ex|] eqn:Hp;
          [|left; exact H].
        apply in_app_or in H. destruct H as [H | H]; [left; exact H|].
        right. exists O, page, regions, blob, ex.
        rewrite Nat.add_0_r. auto.
      * right. exists (S i), p, rs, b, ex.
        replace (index + S i)%nat with (S index + i)%nat by lia. auto.
    + intros [H | (i & p & rs & b & ex & Hn & Hb & Hp & Hin)].
      * left. destruct (findBlob images page) as [blob|]; [|exact H].
        destruct (processAtlasPage index blob regions); [|exact H].
        apply in_or_app. left. exact H.
      * destruct i as [|i].
        -- cbn in Hn. injection Hn as <- <-. rewrite Nat.add_0_r in Hp.
           left. rewrite Hb, Hp. apply in_or_app. right. exact Hin.
        -- right. exists i, p, rs, b, ex.
           replace (S index + i)%nat with (index + S i)%nat by lia. auto.
Qed.

(** X24: an asset is in the output of [unpackAtlas] exactly when it was
    extracted from a page of the parsed atlas whose blob was found; the
    extraction of a page receives all the regions that name the page, in
    the order of the parsed map, and a page is extracted at most once. *)
Theorem X24_unpacked_assets_come_from_found_pages
        (atlasContent : string) (asset : FileAsset) :
  let pages := groupByPage (parseAtlas atlasContent) in
  NoDup (JsMap.keys pages) /\
  (In asset (unpackAtlas FileAsset processAtlasPage atlasContent images) <->
   exists i page blob extracted,
     nth_error pages i
     = Some (page, regionsOfPage (parseAtlas atlasContent) page) /\
     regionsOfPage (parseAtlas atlasContent) page <> [] /\
     findBlob images page = Some blob /\
     processAtlasPage i blob (regionsOfPage (parseAtlas atlasContent) page)
     = Some extracted /\
     In asset extracted).
Proof.
  cbn zeta. destruct (groupByPage_spec (parseAtlas atlasContent)) as [Hnd Hiff].
  split; [exact Hnd|].
  unfold unpackAtlas. cbv zeta. rewrite unpackLoop_in. cbn [plus]. split.
  - intros [[] | (i & page & regions & blob & ex & Hn & Hb & Hp & Hin)].
    pose proof (nth_error_In _ _ Hn) as Hmem. apply Hiff in Hmem.
    destruct Hmem as [Hne Heq]. subst regions.
    exists i, page, blob, ex. auto.
  - intros (i & page & blob & ex & Hn & _ & Hb & Hp & Hin).
    right.
    exists i, page, (regionsOfPage (parseAtlas atlasContent) page), blob, ex.
    auto.
Qed.

End UnpackLoop.

End UnpackerProperties.

(* ================================================================== *)
(** * Properties of the bone hierarchy *)

Section BoneHierarchy.
Import Types SpineBones.

Lemma existsb_eqb_in (x : string) (l : list string) :
  existsb (String.eqb x) l = true <-> In x l.
Proof.
  rewrite existsb_exists. split.
  - intros (y & Hy & E). apply String.eqb_eq in E. subst. exact Hy.
  - intros H. exists x. split; [exact H | apply String.eqb_refl].
Qed.

Lemma truthy_some (o : option string) (p : string) :
  truthy o = Some p -> o = Some p.
Proof.
  unfold truthy. destruct o as [q|]; [|discriminate].
  destruct (String.eqb q ""); [discriminate|]. intros H. exact H.
Qed.

Lemma parentsFirst_fresh (bones : list Bone) :
  forall (seen : list string) (n : string),
    parentsFirst seen bones = true -> In n seen ->
    find (hasName n) bones = None.
Proof.
  induction bones as [|b rest IH]; intros seen n Hpf Hin; cbn; [reflexivity|].
  cbn in Hpf. apply andb_prop in Hpf. destruct Hpf as [Hpf Hrest].
  apply andb_prop in Hpf. destruct Hpf as [Hnew _].
  unfold hasName at 1. destruct (String.eqb (bone_name b) n) eqn:E.
  - apply String.eqb_eq in E. subst n. apply negb_true_iff in Hnew.
    apply existsb_eqb_in in Hin. congruence.
  - apply (IH (bone_name b :: seen)); [exact Hrest | right; exact Hin].
Qed.

(** The parent that the hierarchy gives for a name is the parent of the
    bone of that name. *)
Lemma hierarchy_get (bones : list Bone) :
  forall (seen : list string) (m : JsMap.t string) (n : string),
    parentsFirst seen bones = true ->
    JsMap.get (fold_left addParent bones m) n
    = match find (hasName n) bones with
      | Some bone =>
          match truthy (parent bone) with
          | Some p => Some p
          | None => JsMap.get m n
          end
      | None => JsMap.get m n
      end.
Proof.
  induction bones as [|b rest IH]; intros seen m n Hpf; cbn [fold_left find];
    [reflexivity|].
  pose proof Hpf as Hpf'. cbn in Hpf'. apply andb_prop in Hpf'.
  destruct Hpf' as [_ Hrest].
  rewrite (IH (bone_name b :: seen) _ n Hrest).
  unfold hasName at 2. destruct (String.eqb (bone_name b) n) eqn:E.
  - apply String.eqb_eq in E. subst n.
    rewrite (parentsFirst_fresh rest (bone_name b :: seen) (bone_name b) Hrest)
      by (left; reflexivity).
    unfold addParent. destruct (truthy (parent b)) as [p|]; [|reflexivity].
    apply get_set_same.
  - apply String.eqb_neq in E.
    assert (Hm : JsMap.get (addParent m b) n = JsMap.get m n).
    { unfold addParent. destruct (truthy (parent b)) as [p|]; [|reflexivity].
      apply get_set_other, E. }
    rewrite Hm. reflexivity.
Qed.

Lemma boneIndex_bound (n : string) (bones : list Bone) :
  (boneIndex n bones <= List.length bones)%nat.
Proof.
  induction bones as [|b rest IH]; cbn; [lia|].
  destruct (hasName n b); lia.
Qed.

Lemma boneIndex_in (n : string) (bones : list Bone) :
  (exists bone, In bone bones /\ bone_name bone = n) ->
  (boneIndex n bones < List.length bones)%nat.
Proof.
  induction bones as [|b rest IH]; cbn; intros (bone & Hin & Hn); [destruct Hin|].
  unfold hasName. destruct (String.eqb (bone_name b) n) eqn:E; [lia|].
  destruct Hin as [-> | Hin]; [rewrite Hn, String.eqb_refl in E; discriminate|].
  assert (boneIndex n rest < List.length rest)%nat by (apply IH; eauto). lia.
Qed.

Lemma boneIndex_named (n : string) (bones : list Bone) :
  (boneIndex n bones < List.length bones)%nat ->
  exists bone, In bone bones /\ bone_name bone = n.
Proof.
  induction bones as [|b rest IH]; cbn; intros Hlt; [lia|].
  unfold hasName in Hlt. destruct (String.eqb (bone_name b) n) eqn:E.
  - apply String.eqb_eq in E. exists b. split; [left; reflexivity | exact E].
  - destruct IH as (bone & Hin & Hn); [lia|].
    exists bone. split; [right; exact Hin | exact Hn].
Qed.

(** A parent that counts stands before its bone. *)
Lemma parent_earlier (bones : list Bone) :
  forall (seen : list string) (n p : string) (bone : Bone),
    parentsFirst seen bones = true ->
    find (hasName n) bones = Some bone ->
    truthy (parent bone) = Some p ->
    In p seen \/ (boneIndex p bones < boneIndex n bones)%nat.
Proof.
  induction bones as [|b rest IH]; intros seen n p bone Hpf Hfind Hp;
    cbn in Hfind; [discriminate|].
  cbn in Hpf. apply andb_prop in Hpf. destruct Hpf as [Hpf Hrest].
  apply andb_prop in Hpf. destruct Hpf as [_ Hparent].
  cbn [boneIndex]. destruct (hasName n b) eqn:E.
  - injection Hfind as <-. rewrite Hp in Hparent.
    left. apply existsb_eqb_in, Hparent.
  - destruct (IH (bone_name b :: seen) n p bone Hrest Hfind Hp) as [[H | H] | H].
    + right. unfold hasName. rewrite H, String.eqb_refl. lia.
    + left. exact H.
    + right. destruct (hasName p b); lia.
Qed.

(** With distinct names a bone is the first of its name. *)
Lemma find_named (bones : list Bone) (bone : Bone) :
  forall seen, parentsFirst seen bones = true -> In bone bones ->
               find (hasName (bone_name bone)) bones = Some bone.
Proof.
  induction bones as [|b rest IH]; intros seen Hpf Hin; [destruct Hin|].
  cbn in Hpf. apply andb_prop in Hpf. destruct Hpf as [_ Hrest].
  cbn [find]. unfold hasName at 1.
  destruct (String.eqb (bone_name b) (bone_name bone)) eqn:E.
  - destruct Hin as [-> | Hin]; [reflexivity|].
    apply String.eqb_eq in E.
    pose proof (parentsFirst_fresh rest (bone_name b :: seen) (bone_name bone)
                                   Hrest) as Hfresh.
    rewrite E in Hfresh. specialize (Hfresh (or_introl eq_refl)).
    pose proof (find_none _ _ Hfresh bone Hin) as Hf.
    unfold hasName in Hf. rewrite String.eqb_refl in Hf. discriminate.
  - destruct Hin as [-> | Hin];
      [rewrite String.eqb_refl in E; discriminate|].
    apply (IH (bone_name b :: seen) Hrest Hin).
Qed.

(** The hierarchy has the parent of every bone that names one. *)
Lemma hierarchy_has_parent (bones : list Bone) (bone : Bone) :
  parentsFirst [] bones = true -> In bone bones ->
  truthy (JsMap.get (buildBoneHierarchy bones) (bone_name bone))
  = truthy (parent bone).
Proof.
  intros Hbones Hin. unfold buildBoneHierarchy.
  rewrite (hierarchy_get bones [] [] (bone_name bone) Hbones).
  rewrite (find_named bones bone [] Hbones Hin). cbn [JsMap.get].
  destruct (truthy (parent bone)) as [p|] eqn:Hp; [|reflexivity].
  unfold truthy in Hp |- *. destruct (parent bone) as [q|]; [|discriminate].
  destruct (String.eqb q "") eqn:E; [discriminate|].
  injection Hp as ->. rewrite E. reflexivity.
Qed.

Lemma hierarchy_parent_earlier (bones : list Bone) (n p : string) :
  parentsFirst [] bones = true ->
  JsMap.get (buildBoneHierarchy bones) n = Some p ->
  (exists bone, In bone bones /\ bone_name bone = n /\
                parent bone = Some p /\ p <> EmptyString) /\
  (boneIndex p bones < boneIndex n bones)%nat.
Proof.
  intros Hpf Hget. unfold buildBoneHierarchy in Hget.
  rewrite (hierarchy_get bones [] [] n Hpf) in Hget. cbn [JsMap.get] in Hget.
  destruct (find (hasName n) bones) as [bone|] eqn:Hfind; [|discriminate].
  destruct (truthy (parent bone)) as [p'|] eqn:Hp; [|discriminate].
  injection Hget as ->. split.
  - apply find_some in Hfind. destruct Hfind as [Hin Hn].
    apply String.eqb_eq in Hn. exists bone.
    split; [exact Hin|]. split; [exact Hn|].
    unfold truthy in Hp. destruct (parent bone) as [q|]; [|discriminate].
    destruct (String.eqb q "") eqn:E; [discriminate|].
    injection Hp as ->. split; [reflexivity | apply String.eqb_neq, E].
  - destruct (parent_earlier bones [] n p bone Hpf Hfind Hp) as [[] | H].
    exact H.
Qed.

(** The loop returns once the fuel exceeds a rank that decreases along
    the parents. *)
Lemma bonePathLoop_total (parentMap : JsMap.t string) (rank : string -> nat) :
  (forall c p, JsMap.get parentMap c = Some p -> (rank p < rank c)%nat) ->
  forall (fuel : nat) (path : list string) (current : string),
    (rank current < fuel)%nat ->
    exists res, bonePathLoop fuel parentMap path current = Some res.
Proof.
  intros Hrank. induction fuel as [|fuel IH]; intros path current Hlt; [lia|].
  cbn. destruct (JsMap.get parentMap current) as [p|] eqn:Hget.
  - apply IH. specialize (Hrank _ _ Hget). lia.
  - eauto.
Qed.

(** What the loop returns is its path extended at the front by the chain
    of parents up to a name without parent. *)
Lemma bonePathLoop_sound (parentMap : JsMap.t string) :
  forall (fuel : nat) (tail : list string) (current : string)
         (res : list string),
    bonePathLoop fuel parentMap (current :: tail) current = Some res ->
    linked parentMap (current :: tail) ->
    linked parentMap res /\
    (exists top rest, res = top :: rest /\ JsMap.get parentMap top = None) /\
    exists front, res = front ++ current :: tail.
Proof.
  induction fuel as [|fuel IH]; intros tail current res Hloop Hlinked;
    cbn in Hloop; [discriminate|].
  destruct (JsMap.get parentMap current) as [p|] eqn:Hget.
  - destruct (IH (current :: tail) p res Hloop) as (H1 & H2 & front & H3).
    + cbn. split; [exact Hget | exact Hlinked].
    + split; [exact H1|]. split; [exact H2|].
      exists (front ++ [p]). rewrite <- app_assoc. exact H3.
  - injection Hloop as <-. split; [exact Hlinked|]. split.
    + exists current, tail. split; [reflexivity | exact Hget].
    + exists []. reflexivity.
Qed.

(** X25: when the bones of the skeleton have distinct names and every
    bone names as parent an earlier bone, [getBonePath] returns for any
    name within as many turns as there are bones: the path ends with the
    name, starts with a name that has no parent, and each of its names is
    the parent, in the skeleton, of the next one. *)
Theorem X25_bone_path_follows_parents
        (bones : list Bone) (boneName : string)
        (Hbones : parentsFirst [] bones = true) :
  let parentMap := buildBoneHierarchy bones in
  exists path top rest,
    bonePathLoop (S (List.length bones)) parentMap [boneName] boneName
    = Some path /\
    getBonePath (S (List.length bones)) boneName parentMap
    = Some (join "/" path) /\
    last path EmptyString = boneName /\
    path = top :: rest /\ JsMap.get parentMap top = None /\
    linked parentMap path /\
    (forall n p, JsMap.get parentMap n = Some p ->
                 exists bone, In bone bones /\ bone_name bone = n /\
                              parent bone = Some p /\ p <> EmptyString) /\
    (forall bone p, In bone bones -> parent bone = Some p ->
                    p <> EmptyString ->
                    JsMap.get parentMap (bone_name bone) = Some p).
Proof.
  cbn zeta. set (parentMap := buildBoneHierarchy bones).
  destruct (bonePathLoop_total parentMap (fun n => boneIndex n bones))
    with (fuel := S (List.length bones)) (path := [boneName])
         (current := boneName) as [path Hpath].
  { intros c p Hget. apply (hierarchy_parent_earlier bones c p Hbones Hget). }
  { pose proof (boneIndex_bound boneName bones). lia. }
  destruct (bonePathLoop_sound parentMap _ [] boneName path Hpath I)
    as (Hlinked & (top & rest & Hshape & Htop) & front & Hfront).
  exists path, top, rest.
  split; [exact Hpath|]. split.
  { unfold getBonePath. rewrite Hpath. reflexivity. }
  split.
  { rewrite Hfront. apply last_last. }
  split; [exact Hshape|]. split; [exact Htop|]. split; [exact Hlinked|].
  split.
  { intros n p Hget. apply (hierarchy_parent_earlier bones n p Hbones Hget). }
  intros bone p Hin Hp Hne.
  pose proof (hierarchy_has_parent bones bone Hbones Hin) as H.
  fold parentMap in H. rewrite Hp in H.
  apply truthy_some. rewrite H. unfold truthy.
  apply String.eqb_neq in Hne. rewrite Hne. reflexivity.
Qed.

(** X26: when the parents of a bone name never end, as in a cycle, no
    number of turns lets [getBonePath] return. *)
Theorem X26_bone_path_diverges_on_cycles
        (parentMap : JsMap.t string) (boneName : string)
        (endless : string -> Prop)
        (Hstart : endless boneName)
        (Hnext : forall c, endless c ->
                           exists p, JsMap.get parentMap c = Some p /\
                                     endless p) :
  forall fuel, getBonePath fuel boneName parentMap = None.
Proof.
  assert (Hloop : forall fuel path current,
             endless current ->
             bonePathLoop fuel parentMap path current = None).
  { induction fuel as [|fuel IH]; intros path current Hc; cbn; [reflexivity|].
    destruct (Hnext current Hc) as (p & Hget & Hp). rewrite Hget.
    apply IH, Hp. }
  intros fuel. unfold getBonePath. rewrite Hloop by exact Hstart. reflexivity.
Qed.

End BoneHierarchy.

Section BoneHierarchyExamples.
Import Types SpineBones BoneSamples.

Lemma X25_bone_path_follows_parents_witness :
  parentsFirst [] skeleton = true /\
  getBonePath 4 "hand" (buildBoneHierarchy skeleton) = Some "root/arm/hand"%string.
Proof.
  split; [reflexivity|].
  destruct (X25_bone_path_follows_parents skeleton "hand" eq_refl)
    as (path & top & rest & Hpath & Hget & _).
  cbn in Hpath. injection Hpath as <-. exact Hget.
Defined.

Lemma X26_bone_path_diverges_on_cycles_witness :
  getBonePath 1000 "a" twoCycle = None.
Proof.
  apply (X26_bone_path_diverges_on_cycles
           twoCycle "a" (fun c => c = "a"%string \/ c = "b"%string)).
  - left. reflexivity.
  - intros c [-> | ->].
    + exists "b"%string. split; [reflexivity | right; reflexivity].
    + exists "a"%string. split; [reflexivity | left; reflexivity].
Defined.

End BoneHierarchyExamples.

(* ================================================================== *)
(** * Properties of the setup-pose scales *)

Section SetupScaleProperties.
Import Types SpineBones SetupScales.

Variable bones : list Bone.
Variable parentMap : JsMap.t string.

Lemma worldScale_functional (n : string) (s s' : Scale) :
  worldScale bones parentMap n s -> worldScale bones parentMap n s' -> s = s'.
Proof.
  intros H. revert s'. induction H as [n Hn | n p ps Hn Hp IH]; intros s' H'.
  - inversion H' as [? Hn' | ? p' ps' Hn' Hp']; subst; [reflexivity|].
    congruence.
  - inversion H' as [? Hn' | ? p' ps' Hn' Hp']; subst; [congruence|].
    assert (p' = p) by congruence. subst p'.
    rewrite (IH ps' Hp'). reflexivity.
Qed.

(** The recursion returns the world scale and keeps the cache sound. *)
Lemma getSetupScale_sound :
  forall (fuel : nat) (bName : string) (cache cache' : JsMap.t Scale)
         (s : Scale),
    cacheSound bones parentMap cache ->
    getSetupScale fuel bones parentMap bName cache = Some (s, cache') ->
    worldScale bones parentMap bName s /\ cacheSound bones parentMap cache'.
Proof.
  induction fuel as [|fuel IH]; intros bName cache cache' s Hc Hget;
    cbn in Hget; [discriminate|].
  destruct (JsMap.get cache bName) as [cached|] eqn:Hcached.
  - injection Hget as <- <-. split; [apply Hc, Hcached | exact Hc].
  - destruct (truthy (JsMap.get parentMap bName)) as [p|] eqn:Hp.
    + destruct (getSetupScale fuel bones parentMap p cache)
        as [[ps cache1]|] eqn:Hrec; cbn in Hget; [|discriminate].
      injection Hget as <- <-.
      destruct (IH p cache cache1 ps Hc Hrec) as [Hps Hc1].
      assert (Hw : worldScale bones parentMap bName
                     {| sx := sx ps * localX (find (hasName bName) bones);
                        sy := sy ps * localY (find (hasName bName) bones) |})
        by (apply (world_child bones parentMap bName p ps Hp Hps)).
      split; [exact Hw|].
      intros n s Hn. destruct (String.eqb bName n) eqn:E.
      * apply String.eqb_eq in E. subst n. rewrite get_set_same in Hn.
        injection Hn as <-. exact Hw.
      * apply String.eqb_neq in E. rewrite get_set_other in Hn by exact E.
        apply Hc1, Hn.
    + cbn in Hget. injection Hget as <- <-.
      assert (Hw : worldScale bones parentMap bName
                     {| sx := 1 * localX (find (hasName bName) bones);
                        sy := 1 * localY (find (hasName bName) bones) |})
        by (apply (world_top bones parentMap bName Hp)).
      split; [exact Hw|].
      intros n s Hn. destruct (String.eqb bName n) eqn:E.
      * apply String.eqb_eq in E. subst n. rewrite get_set_same in Hn.
        injection Hn as <-. exact Hw.
      * apply String.eqb_neq in E. rewrite get_set_other in Hn by exact E.
        apply Hc, Hn.
Qed.

(** The recursion returns once the fuel exceeds a rank that decreases
    along the parents. *)
Lemma getSetupScale_total (rank : string -> nat) :
  (forall c p, JsMap.get parentMap c = Some p -> (rank p < rank c)%nat) ->
  forall (fuel : nat) (bName : string) (cache : JsMap.t Scale),
    (rank bName < fuel)%nat ->
    exists r, getSetupScale fuel bones parentMap bName cache = Some r.
Proof.
  intros Hrank. induction fuel as [|fuel IH]; intros bName cache Hlt; [lia|].
  cbn. destruct (JsMap.get cache bName) as [cached|]; [eauto|].
  destruct (truthy (JsMap.get parentMap bName)) as [p|] eqn:Hp.
  - apply truthy_some in Hp. specialize (Hrank _ _ Hp).
    destruct (IH p cache) as [[ps cache1] Hrec]; [lia|].
    rewrite Hrec. cbn. eauto.
  - cbn. eauto.
Qed.

Lemma setupLoop_spec (rank : string -> nat) (fuel : nat) :
  (forall c p, JsMap.get parentMap c = Some p -> (rank p < rank c)%nat) ->
  (forall n, (rank n < fuel)%nat) ->
  forall (todo : list Bone) (st : JsMap.t Scale * JsMap.t BoneScale),
    cacheSound bones parentMap (fst st) -> scalesSound bones parentMap (snd st) ->
    exists st',
      setupLoop fuel bones parentMap todo st = Some st' /\
      cacheSound bones parentMap (fst st') /\ scalesSound bones parentMap (snd st') /\
      (forall n, In n (JsMap.keys (snd st')) <->
                 In n (JsMap.keys (snd st)) \/ In n (map bone_name todo)).
Proof.
  intros Hrank Hfuel. induction todo as [|b rest IH]; intros st Hc Hs;
    cbn [setupLoop].
  - exists st. split; [reflexivity|]. split; [exact Hc|]. split; [exact Hs|].
    intros n. cbn. intuition.
  - unfold setupStep.
    destruct (getSetupScale_total rank Hrank fuel (bone_name b) (fst st)
                                  (Hfuel _)) as [[s cache1] Hget].
    rewrite Hget. cbn [fbind fst snd].
    destruct (getSetupScale_sound fuel (bone_name b) (fst st) cache1 s Hc Hget)
      as [Hw Hc1].
    destruct (IH (cache1,
                  JsMap.set (snd st) (bone_name b)
                            {| bx := Qabs.Qabs (sx s); by_ := Qabs.Qabs (sy s);
                               frame := 0 |}))
      as (st' & Hloop & Hc' & Hs' & Hkeys).
    + exact Hc1.
    + intros n bs Hn. cbn [snd] in Hn.
      destruct (String.eqb (bone_name b) n) eqn:E.
      * apply String.eqb_eq in E. subst n. rewrite get_set_same in Hn.
        injection Hn as <-. exists s. split; [exact Hw | reflexivity].
      * apply String.eqb_neq in E. rewrite get_set_other in Hn by exact E.
        apply Hs, Hn.
    + exists st'. split; [exact Hloop|]. split; [exact Hc'|].
      split; [exact Hs'|].
      intros n. rewrite Hkeys. cbn [snd map]. rewrite keys_set_in.
      cbn. intuition.
Qed.

End SetupScaleProperties.

Section SetupScaleTheorem.
Import Types SpineBones SetupScales.

Lemma parentsFirst_NoDup (bones : list Bone) :
  forall seen, parentsFirst seen bones = true -> NoDup (map bone_name bones).
Proof.
  induction bones as [|b rest IH]; intros seen Hpf; cbn; [constructor|].
  cbn in Hpf. apply andb_prop in Hpf. destruct Hpf as [_ Hrest].
  constructor; [|apply (IH _ Hrest)].
  intros Hin. apply in_map_iff in Hin. destruct Hin as (bone & Hname & Hin).
  pose proof (parentsFirst_fresh rest (bone_name b :: seen) (bone_name b)
                                 Hrest (or_introl eq_refl)) as Hfresh.
  pose proof (find_none _ _ Hfresh bone Hin) as Hf.
  unfold hasName in Hf. rewrite Hname, String.eqb_refl in Hf. discriminate.
Qed.

Lemma hierarchy_ranked (bones : list Bone) :
  parentsFirst [] bones = true ->
  forall c p, JsMap.get (buildBoneHierarchy bones) c = Some p ->
              (boneIndex p bones < boneIndex c bones)%nat.
Proof.
  intros Hbones c p Hget.
  apply (hierarchy_parent_earlier bones c p Hbones Hget).
Qed.

(** The entries of the setup pose: every bone has the absolute value of
    its world scale, at frame 0. *)
Lemma setup_entries (bones : list Bone) :
  parentsFirst [] bones = true ->
  exists scales,
    calculateSetupBoneScales (S (List.length bones)) bones
                             (buildBoneHierarchy bones) = Some scales /\
    JsMap.has scales "root" = true /\
    forall bone, In bone bones ->
      exists w, worldScale bones (buildBoneHierarchy bones) (bone_name bone) w /\
                JsMap.get scales (bone_name bone)
                = Some {| bx := Qabs.Qabs (sx w); by_ := Qabs.Qabs (sy w);
                          frame := 0 |}.
Proof.
  intros Hbones.
  set (parentMap := buildBoneHierarchy bones).
  assert (Hrank : forall c p, JsMap.get parentMap c = Some p ->
                              (boneIndex p bones < boneIndex c bones)%nat).
  { intros c p Hget. apply (hierarchy_parent_earlier bones c p Hbones Hget). }
  destruct (setupLoop_spec bones parentMap (fun n => boneIndex n bones)
                           (S (List.length bones)) Hrank)
    with (todo := bones) (st := (@nil (string * Scale), @nil (string * BoneScale)))
    as (st' & Hloop & _ & Hs & Hkeys).
  { intros n. pose proof (boneIndex_bound n bones). lia. }
  { intros n s H. discriminate H. }
  { intros n bs H. discriminate H. }
  unfold calculateSetupBoneScales. rewrite Hloop. cbn [fbind].
  set (scales := if JsMap.has (snd st') "root" then snd st'
                 else JsMap.set (snd st') "root"
                                {| bx := 1; by_ := 1; frame := 0 |}).
  exists scales. split; [reflexivity|].
  assert (Hkeep : forall n bs, JsMap.get (snd st') n = Some bs ->
                               JsMap.get scales n = Some bs).
  { intros n bs Hn. unfold scales.
    destruct (JsMap.has (snd st') "root") eqn:Hroot; [exact Hn|].
    rewrite get_set_other; [exact Hn|].
    intros <-. unfold JsMap.has in Hroot. rewrite Hn in Hroot. discriminate. }
  assert (Hentry : forall bone, In bone bones ->
                     exists s, worldScale bones parentMap (bone_name bone) s /\
                               JsMap.get (snd st') (bone_name bone)
                               = Some {| bx := Qabs.Qabs (sx s); by_ := Qabs.Qabs (sy s);
                                         frame := 0 |}).
  { intros bone Hin.
    assert (Hk : In (bone_name bone) (JsMap.keys (snd st'))).
    { apply Hkeys. right. apply in_map, Hin. }
    apply in_keys_get in Hk. destruct Hk as [bs Hbs].
    destruct (Hs _ _ Hbs) as (s & Hw & ->). exists s. auto. }
  split.
  { unfold scales. destruct (JsMap.has (snd st') "root") eqn:Hroot;
      [exact Hroot|].
    unfold JsMap.has. rewrite get_set_same. reflexivity. }
  intros bone Hin. destruct (Hentry bone Hin) as (s & Hw & Hget).
  exists s. split; [exact Hw | apply Hkeep, Hget].
Qed.


End SetupScaleTheorem.

Section SetupScaleExamples.
Import Types SpineBones SetupScales BoneSamples.


End SetupScaleExamples.

(* ================================================================== *)
(** * Properties of the resampler *)

Section ResamplerProperties.
Import Types Resampler.

Lemma pyramidLoop_spec (targetWidth targetHeight : Z) :
  1 <= targetWidth -> 1 <= targetHeight ->
  forall (fuel : nat) (srcW srcH : Z),
    targetWidth <= srcW -> targetHeight <= srcH ->
    srcW < Z.of_nat fuel ->
    exists w h k,
      pyramidLoop fuel targetWidth targetHeight srcW srcH = Some (w, h) /\
      w = srcW / 2 ^ Z.of_nat k /\ h = srcH / 2 ^ Z.of_nat k /\
      targetWidth <= w <= srcW /\ targetHeight <= h <= srcH /\
      (w <= targetWidth * 2 \/ h <= targetHeight * 2).
Proof.
  intros Htw Hth. induction fuel as [|fuel IH]; intros srcW srcH Hw Hh Hfuel;
    [lia|].
  cbn [pyramidLoop].
  destruct ((srcW >? targetWidth * 2) && (srcH >? targetHeight * 2)) eqn:E.
  - apply andb_prop in E. destruct E as [E1 E2].
    assert (H1 : targetWidth * 2 < srcW) by lia.
    assert (H2 : targetHeight * 2 < srcH) by lia.
    assert (Hw2 : targetWidth <= srcW / 2)
      by (apply Z.div_le_lower_bound; lia).
    assert (Hh2 : targetHeight <= srcH / 2)
      by (apply Z.div_le_lower_bound; lia).
    assert (Hlt : srcW / 2 < srcW) by (apply Z.div_lt; lia).
    assert (Hlt' : srcH / 2 < srcH) by (apply Z.div_lt; lia).
    destruct (IH (srcW / 2) (srcH / 2) Hw2 Hh2) as
        (w & h & k & Hloop & Hwk & Hhk & Hwb & Hhb & Hstop); [lia|].
    exists w, h, (S k). cbv zeta. rewrite Hloop.
    split; [reflexivity|].
    assert (Hpow : 2 ^ Z.of_nat (S k) = 2 * 2 ^ Z.of_nat k).
    { rewrite Nat2Z.inj_succ, Z.pow_succ_r by lia. reflexivity. }
    assert (Hpos : 0 < 2 ^ Z.of_nat k) by (apply Z.pow_pos_nonneg; lia).
    rewrite Hpow.
    split; [rewrite <- Z.div_div by lia; exact Hwk|].
    split; [rewrite <- Z.div_div by lia; exact Hhk|].
    split; [lia|]. split; [lia | exact Hstop].
  - exists srcW, srcH, O. split; [reflexivity|].
    cbn [Z.of_nat]. rewrite Z.pow_0_r, !Z.div_1_r.
    split; [reflexivity|]. split; [reflexivity|].
    split; [lia|]. split; [lia|].
    apply andb_false_iff in E. destruct E as [E | E]; lia.
Qed.

(** X28: for a target of at least one pixel per side that the source
    covers, the pyramid of [resizeImage] ends; it halves both sides the
    same number of times, never below the target, and stops with the
    width or the height at most twice the target's. *)
Theorem X28_pyramid_stops_above_target
        (targetWidth targetHeight srcW srcH : Z)
        (Hwidth : 1 <= targetWidth <= srcW)
        (Hheight : 1 <= targetHeight <= srcH) :
  exists w h k,
    pyramidLoop (S (Z.to_nat srcW)) targetWidth targetHeight srcW srcH
    = Some (w, h) /\
    w = srcW / 2 ^ Z.of_nat k /\ h = srcH / 2 ^ Z.of_nat k /\
    targetWidth <= w <= srcW /\ targetHeight <= h <= srcH /\
    (w <= targetWidth * 2 \/ h <= targetHeight * 2).
Proof.
  apply pyramidLoop_spec; lia.
Qed.

Lemma X28_pyramid_stops_above_target_witness :
  1 <= 100 <= 1000 /\ 1 <= 50 <= 900 /\
  pyramidLoop 1001 100 50 1000 900 = Some (125, 112).
Proof.
  split; [lia|]. split; [lia|].
  destruct (X28_pyramid_stops_above_target 100 50 1000 900)
    as (w & h & k & Hloop & _); [lia | lia |].
  vm_compute in Hloop. injection Hloop as <- <-. reflexivity.
Defined.

Lemma scanLoop_spec (f : list Z) :
  forall (fuel i : nat),
    (0 < fuel)%nat ->
    (List.length f + 16 <= i + 16 * fuel \/ List.length f <= i)%nat ->
    exists isStraight,
      scanLoop fuel f i = Some isStraight /\
      (isStraight = true <->
       exists k, (i + 16 * k < List.length f)%nat /\
                 illegalPremultiplied f (i + 16 * k) = true).
Proof.
  induction fuel as [|fuel IH]; intros i Hpos Hfuel; [lia|].
  cbn [scanLoop]. destruct (Nat.ltb i (List.length f)) eqn:Hi.
  - apply Nat.ltb_lt in Hi.
    destruct (illegalPremultiplied f i) eqn:Hill.
    + exists true. split; [reflexivity|]. split; [|reflexivity].
      intros _. exists O. rewrite Nat.mul_0_r, Nat.add_0_r. auto.
    + destruct (IH (i + 16)%nat) as (b & Hloop & Hiff); [lia | lia |].
      exists b. split; [exact Hloop|]. rewrite Hiff. split.
      * intros (k & Hk & Hv). exists (S k).
        replace (i + 16 * S k)%nat with (i + 16 + 16 * k)%nat by lia. auto.
      * intros (k & Hk & Hv). destruct k as [|k].
        -- rewrite Nat.mul_0_r, Nat.add_0_r in Hv. congruence.
        -- exists k.
           replace (i + 16 + 16 * k)%nat with (i + 16 * S k)%nat by lia. auto.
  - apply Nat.ltb_ge in Hi. exists false. split; [reflexivity|].
    split; [discriminate|]. intros (k & Hk & _). lia.
Qed.

(** The test of the scan, on the elements of the array. *)
Lemma illegalPremultiplied_spec (f : list Z) (i : nat) :
  illegalPremultiplied f i = true <->
  exists c v a,
    (c < 3)%nat /\ nth_error f (i + c) = Some v /\
    nth_error f (i + 3) = Some a /\ a + 2 < v.
Proof.
  unfold illegalPremultiplied, element, exceeds. cbv zeta.
  rewrite <- (Nat.add_0_r i) at 1.
  split.
  - intros H. destruct (nth_error f (i + 3)) as [a|] eqn:Ha.
    + apply orb_true_iff in H. destruct H as [H | H];
        [apply orb_true_iff in H; destruct H as [H | H]|].
      * destruct (nth_error f (i + 0)) as [v|] eqn:Hv; [|discriminate].
        exists 0%nat, v, a. repeat split; [lia | exact Hv | lia].
      * destruct (nth_error f (i + 1)) as [v|] eqn:Hv; [|discriminate].
        exists 1%nat, v, a. repeat split; [lia | exact Hv | lia].
      * destruct (nth_error f (i + 2)) as [v|] eqn:Hv; [|discriminate].
        exists 2%nat, v, a. repeat split; [lia | exact Hv | lia].
    + destruct (nth_error f (i + 0)), (nth_error f (i + 1)),
        (nth_error f (i + 2)); discriminate.
  - intros (c & v & a & Hc & Hv & Ha & Hgt). rewrite Ha.
    assert (Hb : (v >? a + 2) = true) by lia.
    destruct c as [|[|[|c]]]; [| | |lia]; rewrite Hv, Hb.
    + reflexivity.
    + rewrite orb_true_r. reflexivity.
    + apply orb_true_r.
Qed.

(** X29: [detectBatchAlphaMode] always answers; it answers Straight
    Alpha exactly when raw data were imported and, at some index [16 k]
    of the data, so at every fourth pixel, one of the three elements from
    that index on is greater than the fourth, the alpha of the pixel, by
    more than 2; it answers Premultiplied Alpha otherwise, as it does
    when the import fails. *)
Theorem X29_alpha_mode_from_sampled_pixels (rawData : option (list Z)) :
  exists mode,
    detectBatchAlphaMode rawData = Some mode /\
    (mode = "Straight Alpha"%string \/
     mode = "Premultiplied Alpha (PMA)"%string) /\
    (mode = "Straight Alpha"%string <->
     exists f k c v a,
       rawData = Some f /\ (16 * k < List.length f)%nat /\ (c < 3)%nat /\
       nth_error f (16 * k + c) = Some v /\
       nth_error f (16 * k + 3) = Some a /\ a + 2 < v).
Proof.
  destruct rawData as [f|]; cbn [detectBatchAlphaMode].
  - destruct (scanLoop_spec f (S (List.length f)) O) as (b & Hloop & Hiff);
      [lia | lia |].
    rewrite Hloop. cbn [fbind]. destruct b.
    + exists "Straight Alpha"%string. split; [reflexivity|].
      split; [left; reflexivity|]. split; [|reflexivity].
      intros _. destruct Hiff as [Hiff _].
      destruct (Hiff eq_refl) as (k & Hk & Hv).
      apply illegalPremultiplied_spec in Hv.
      destruct Hv as (c & v & a & Hv). exists f, k, c, v, a. auto.
    + exists "Premultiplied Alpha (PMA)"%string. split; [reflexivity|].
      split; [right; reflexivity|]. split; [discriminate|].
      intros (f' & k & c & v & a & Hf & Hk & Hv). injection Hf as <-.
      destruct Hiff as [_ Hiff]. assert (false = true); [|discriminate].
      apply Hiff. exists k. split; [exact Hk|].
      apply illegalPremultiplied_spec. exists c, v, a. exact Hv.
  - exists "Premultiplied Alpha (PMA)"%string. split; [reflexivity|].
    split; [right; reflexivity|]. split; [discriminate|].
    intros (f & k & c & v & a & Hf & _). discriminate.
Qed.

Lemma X29_alpha_mode_from_sampled_pixels_witness :
  detectBatchAlphaMode (Some ResamplerSamples.straightPixels)
  = Some "Straight Alpha"%string /\
  detectBatchAlphaMode (Some ResamplerSamples.unsampledPixels)
  = Some "Premultiplied Alpha (PMA)"%string /\
  detectBatchAlphaMode None = Some "Premultiplied Alpha (PMA)"%string.
Proof.
  split; [|split].
  - destruct (X29_alpha_mode_from_sampled_pixels
                (Some ResamplerSamples.straightPixels))
      as (mode & Hmode & _ & Hiff).
    rewrite Hmode. f_equal. apply Hiff.
    exists ResamplerSamples.straightPixels, 1%nat, 2%nat, 90, 80.
    repeat split; cbn; lia.
  - destruct (X29_alpha_mode_from_sampled_pixels
                (Some ResamplerSamples.unsampledPixels))
      as (mode & Hmode & [Hs | Hp] & Hiff).
    + exfalso. apply Hiff in Hs.
      destruct Hs as (f & k & c & v & a & Hf & Hk & Hc & Hv & Ha & Hgt).
      injection Hf as <-. cbn in Hk.
      assert (Hcases : k = 0%nat \/ k = 1%nat) by lia.
      destruct Hcases as [-> | ->];
        destruct c as [|[|[|c]]]; try lia;
        cbn in Hv, Ha; injection Hv as <-; injection Ha as <-; lia.
    + rewrite Hmode, Hp. reflexivity.
  - destruct (X29_alpha_mode_from_sampled_pixels None)
      as (mode & Hmode & [Hs | Hp] & Hiff).
    + exfalso. apply Hiff in Hs.
      destruct Hs as (f & k & c & v & a & Hf & _). discriminate.
    + rewrite Hmode, Hp. reflexivity.
Defined.

End ResamplerProperties.


(* ================================================================== *)
(** * Properties of the animation scales *)

Section AnimationScaleProperties.
Import Types SpineBones SetupScales SpineParser AnimationScales.

Variable bones : list Bone.
Variable parentMap : JsMap.t string.
Variable animBones : AnimBones.

Lemma Qlt_bool_spec (a b : Q) :
  (Qlt_bool a b = true -> (a < b)%Q) /\ (Qlt_bool a b = false -> (b <= a)%Q).
Proof.
  unfold Qlt_bool. destruct (Qle_bool b a) eqn:E; cbn; split;
    try discriminate; intros _.
  - apply Qle_bool_iff, E.
  - apply Qnot_le_lt. intros H. apply Qle_bool_iff in H. congruence.
Qed.

Lemma frameScale_functional (t : Q) (n : string) (s s' : Scale) :
  frameScale bones parentMap animBones t n s ->
  frameScale bones parentMap animBones t n s' -> s = s'.
Proof.
  intros H. revert s'. induction H as [n Hn | n p ps Hn Hp IH]; intros s' H'.
  - inversion H' as [? Hn' | ? p' ps' Hn' Hp']; subst; [reflexivity|].
    congruence.
  - inversion H' as [? Hn' | ? p' ps' Hn' Hp']; subst; [congruence|].
    assert (p' = p) by congruence. subst p'.
    rewrite (IH ps' Hp'). reflexivity.
Qed.

(** The recursion returns the frame scale and keeps the cache sound. *)
Lemma getFrameScale_sound (t : Q) :
  forall (fuel : nat) (bName : string) (cache cache' : JsMap.t Scale)
         (s : Scale),
    frameCacheSound bones parentMap animBones t cache ->
    getFrameScale fuel bones parentMap animBones t bName cache
    = Some (s, cache') ->
    frameScale bones parentMap animBones t bName s /\
    frameCacheSound bones parentMap animBones t cache'.
Proof.
  induction fuel as [|fuel IH]; intros bName cache cache' s Hc Hget;
    cbn in Hget; [discriminate|].
  destruct (JsMap.get cache bName) as [cached|] eqn:Hcached.
  - injection Hget as <- <-. split; [apply Hc, Hcached | exact Hc].
  - destruct (truthy (JsMap.get parentMap bName)) as [p|] eqn:Hp.
    + destruct (getFrameScale fuel bones parentMap animBones t p cache)
        as [[ps cache1]|] eqn:Hrec; cbn in Hget; [|discriminate].
      injection Hget as <- <-.
      destruct (IH p cache cache1 ps Hc Hrec) as [Hps Hc1].
      pose proof (frame_child bones parentMap animBones t bName p ps Hp Hps)
        as Hw.
      split; [exact Hw|].
      intros n s Hn. destruct (String.eqb bName n) eqn:E.
      * apply String.eqb_eq in E. subst n. rewrite get_set_same in Hn.
        injection Hn as <-. exact Hw.
      * apply String.eqb_neq in E. rewrite get_set_other in Hn by exact E.
        apply Hc1, Hn.
    + cbn in Hget. injection Hget as <- <-.
      pose proof (frame_top bones parentMap animBones t bName Hp) as Hw.
      split; [exact Hw|].
      intros n s Hn. destruct (String.eqb bName n) eqn:E.
      * apply String.eqb_eq in E. subst n. rewrite get_set_same in Hn.
        injection Hn as <-. exact Hw.
      * apply String.eqb_neq in E. rewrite get_set_other in Hn by exact E.
        apply Hc, Hn.
Qed.

Section Ranked.
Variable rank : string -> nat.
Hypothesis Hrank :
  forall c p, JsMap.get parentMap c = Some p -> (rank p < rank c)%nat.

Lemma getFrameScale_total (t : Q) :
  forall (fuel : nat) (bName : string) (cache : JsMap.t Scale),
    (rank bName < fuel)%nat ->
    exists r, getFrameScale fuel bones parentMap animBones t bName cache
              = Some r.
Proof.
  induction fuel as [|fuel IH]; intros bName cache Hlt; [lia|].
  cbn. destruct (JsMap.get cache bName) as [cached|]; [eauto|].
  destruct (truthy (JsMap.get parentMap bName)) as [p|] eqn:Hp.
  - apply truthy_some in Hp. specialize (Hrank _ _ Hp).
    destruct (IH p cache) as [[ps cache1] Hrec]; [lia|].
    rewrite Hrec. cbn. eauto.
  - cbn. eauto.
Qed.

Lemma isAffectedLoop_total :
  forall (fuel : nat) (c : string),
    (rank c < fuel)%nat ->
    exists affected,
      isAffectedLoop fuel animBones parentMap (Some c) = Some affected.
Proof.
  induction fuel as [|fuel IH]; intros c Hlt; [lia|].
  cbn [isAffectedLoop].
  destruct (truthy (Some c)) as [c'|] eqn:Hc; [|eauto].
  apply truthy_some in Hc. injection Hc as <-.
  destruct (scaleTimeline animBones c); [eauto|].
  destruct (JsMap.get parentMap c) as [p|] eqn:Hp.
  - apply IH. specialize (Hrank _ _ Hp). lia.
  - destruct fuel; cbn; eauto.
Qed.

End Ranked.

Lemma isAffectedLoop_quiet :
  forall (fuel : nat) (n : string),
    n <> EmptyString ->
    isAffectedLoop fuel animBones parentMap (Some n) = Some false ->
    quiet parentMap animBones n.
Proof.
  induction fuel as [|fuel IH]; intros n Hn Hloop; cbn in Hloop;
    apply String.eqb_neq in Hn; rewrite Hn in Hloop; [discriminate|].
  destruct (scaleTimeline animBones n) eqn:Htl; [discriminate|].
  destruct (truthy (JsMap.get parentMap n)) as [p|] eqn:Hp.
  - pose proof (truthy_some _ _ Hp) as Hp'. rewrite Hp' in Hloop.
    apply (quiet_child parentMap animBones n p Htl Hp).
    apply IH; [|exact Hloop].
    unfold truthy in Hp. rewrite Hp' in Hp.
    destruct (String.eqb p "") eqn:E; [discriminate|].
    apply String.eqb_neq, E.
  - apply (quiet_top parentMap animBones n Htl Hp).
Qed.

(** Without a scale timeline on the way up, the frame scale is the setup
    scale. *)
Lemma quiet_frame_is_setup (t : Q) (n : string) :
  quiet parentMap animBones n ->
  forall s w, frameScale bones parentMap animBones t n s ->
              worldScale bones parentMap n w ->
              (sx s == sx w)%Q /\ (sy s == sy w)%Q.
Proof.
  induction 1 as [n Htl Hn | n p Htl Hn Hq IH]; intros s w Hs Hw.
  - inversion Hs as [? Hn1 | ? p1 ps1 Hn1 Hp1]; subst; [|congruence].
    inversion Hw as [? Hn2 | ? p2 ps2 Hn2 Hp2]; subst; [|congruence].
    unfold animationFactor. rewrite Htl. cbn. split; ring.
  - inversion Hs as [? Hn1 | ? p1 ps1 Hn1 Hp1]; subst; [congruence|].
    inversion Hw as [? Hn2 | ? p2 ps2 Hn2 Hp2]; subst; [congruence|].
    assert (p1 = p) by congruence. assert (p2 = p) by congruence. subst p1 p2.
    destruct (IH ps1 ps2 Hp1 Hp2) as [Hx Hy].
    unfold animationFactor. rewrite Htl. cbn. rewrite Hx, Hy. split; ring.
Qed.

(** ** Raising an entry *)

Lemma raise_bounds (idx : Z) (s : Scale) (current : BoneScale) :
  grown current (raise idx s current) /\
  (Qabs.Qabs (sx s) <= bx (raise idx s current))%Q /\
  (Qabs.Qabs (sy s) <= by_ (raise idx s current))%Q.
Proof.
  unfold raise, grown.
  destruct (Qlt_bool (bx current) (Qabs.Qabs (sx s))) eqn:Ex;
    cbn [bx by_]; apply Qlt_bool_spec in Ex.
  - destruct (Qlt_bool (by_ current) (Qabs.Qabs (sy s))) eqn:Ey;
      cbn [bx by_]; apply Qlt_bool_spec in Ey;
      repeat split;
      first [apply Qle_refl | assumption | apply Qlt_le_weak; assumption].
  - destruct (Qlt_bool (by_ current) (Qabs.Qabs (sy s))) eqn:Ey;
      cbn [bx by_]; apply Qlt_bool_spec in Ey;
      repeat split;
      first [apply Qle_refl | assumption | apply Qlt_le_weak; assumption].
Qed.

Lemma raise_same (idx : Z) (s : Scale) (current : BoneScale) :
  (Qabs.Qabs (sx s) <= bx current)%Q ->
  (Qabs.Qabs (sy s) <= by_ current)%Q ->
  raise idx s current = current.
Proof.
  intros Hx Hy. unfold raise.
  rewrite (Qlt_bool_false _ _ Hx), (Qlt_bool_false _ _ Hy). reflexivity.
Qed.

Lemma grown_trans (a b c : BoneScale) : grown a b -> grown b c -> grown a c.
Proof.
  unfold grown. intros [H1 H2] [H3 H4]. split; eapply Qle_trans; eassumption.
Qed.

Lemma grown_refl (a : BoneScale) : grown a a.
Proof.
  unfold grown. split; apply Qle_refl.
Qed.

Section Loops.
Variable rank : string -> nat.
Hypothesis Hrank :
  forall c p, JsMap.get parentMap c = Some p -> (rank p < rank c)%nat.
Variable fuel : nat.
Hypothesis Hfuel : forall n, (rank n < fuel)%nat.

(** A sampled time raises the entry of every bone of the list once, by
    the frame scale of the bone, and leaves the other entries. *)
Lemma frameLoop_spec (t : Q) :
  forall (todo : list Bone) (st : JsMap.t Scale * JsMap.t BoneScale),
    NoDup (map bone_name todo) ->
    frameCacheSound bones parentMap animBones t (fst st) ->
    exists st',
      frameLoop fuel bones parentMap animBones t todo st = Some st' /\
      frameCacheSound bones parentMap animBones t (fst st') /\
      (forall n, ~ In n (map bone_name todo) ->
                 JsMap.get (snd st') n = JsMap.get (snd st) n) /\
      (forall n e, In n (map bone_name todo) ->
                   JsMap.get (snd st) n = Some e ->
                   exists s, frameScale bones parentMap animBones t n s /\
                             JsMap.get (snd st') n
                             = Some (raise (frameIndexOf t) s e)) /\
      (forall n, JsMap.get (snd st) n = None ->
                 JsMap.get (snd st') n = None).
Proof.
  induction todo as [|b rest IH]; intros st Hnd Hc; cbn [frameLoop].
  - exists st. split; [reflexivity|]. split; [exact Hc|].
    split; [reflexivity|]. split; [intros n e []|]. auto.
  - cbn [map] in Hnd. inversion Hnd as [|? ? Hfresh Hnd']; subst.
    unfold frameStep.
    destruct (getFrameScale_total rank Hrank t fuel (bone_name b) (fst st)
                                  (Hfuel _)) as [[s cache1] Hget].
    rewrite Hget. cbn [fbind fst snd].
    destruct (getFrameScale_sound t fuel (bone_name b) (fst st) cache1 s
                                  Hc Hget) as [Hs Hc1].
    set (scales1 := match JsMap.get (snd st) (bone_name b) with
                    | Some current =>
                        JsMap.set (snd st) (bone_name b)
                                  (raise (frameIndexOf t) s current)
                    | None => snd st
                    end).
    assert (Hother : forall n, n <> bone_name b ->
                               JsMap.get scales1 n = JsMap.get (snd st) n).
    { intros n Hn. unfold scales1.
      destruct (JsMap.get (snd st) (bone_name b)); [|reflexivity].
      apply get_set_other. congruence. }
    destruct (IH (cache1, scales1) Hnd' Hc1)
      as (st' & Hloop & Hc' & HA & HB & HC).
    cbn [fst snd] in *.
    exists st'. split.
    { unfold scales1 in Hloop.
      destruct (JsMap.get (snd st) (bone_name b)); exact Hloop. }
    split; [exact Hc'|].
    split; [|split].
    + intros n Hn. cbn [map] in Hn. rewrite HA by (intros H; apply Hn; right; exact H).
      apply Hother. intros ->. apply Hn. left. reflexivity.
    + intros n e Hn He. cbn [map] in Hn.
      destruct (string_dec n (bone_name b)) as [-> | Hneq].
      * exists s. split; [exact Hs|]. rewrite HA by exact Hfresh.
        unfold scales1. rewrite He. apply get_set_same.
      * destruct Hn as [Hn | Hn]; [congruence|].
        apply HB; [exact Hn|]. rewrite Hother by exact Hneq. exact He.
    + intros n Hn. apply HC.
      destruct (string_dec n (bone_name b)) as [-> | Hneq].
      * unfold scales1. rewrite Hn. exact Hn.
      * rewrite Hother by exact Hneq. exact Hn.
Qed.

(** The loop over the sampled times only raises the entries, above the
    frame scales of every sampled time. *)
Lemma timesLoop_spec :
  NoDup (map bone_name bones) ->
  forall (times : list Q) (scales0 : JsMap.t BoneScale),
    exists scales,
      timesLoop fuel bones parentMap animBones times scales0 = Some scales /\
      (forall n e0, JsMap.get scales0 n = Some e0 ->
                    exists e, JsMap.get scales n = Some e /\ grown e0 e) /\
      (forall t n e0 s,
          In t times -> In n (map bone_name bones) ->
          JsMap.get scales0 n = Some e0 ->
          frameScale bones parentMap animBones t n s ->
          exists e, JsMap.get scales n = Some e /\
                    (Qabs.Qabs (sx s) <= bx e)%Q /\
                    (Qabs.Qabs (sy s) <= by_ e)%Q) /\
      (forall n e0,
          JsMap.get scales0 n = Some e0 ->
          (forall t s, In t times ->
                       frameScale bones parentMap animBones t n s ->
                       (Qabs.Qabs (sx s) <= bx e0)%Q /\
                       (Qabs.Qabs (sy s) <= by_ e0)%Q) ->
          JsMap.get scales n = Some e0).
Proof.
  intros Hnd. induction times as [|t rest IH]; intros scales0; cbn [timesLoop].
  - exists scales0. split; [reflexivity|]. split; [|split].
    + intros n e0 H. exists e0. split; [exact H | apply grown_refl].
    + intros t n e0 s [].
    + auto.
  - destruct (frameLoop_spec t bones ([], scales0) Hnd)
      as (st1 & Hloop & _ & HA & HB & HC).
    { intros n s H. discriminate H. }
    rewrite Hloop. cbn [fbind fst snd] in *.
    destruct (IH (snd st1)) as (scales & Htimes & HM & HD & HS).
    exists scales. split; [exact Htimes|].
    assert (Hfirst : forall n e0,
               JsMap.get scales0 n = Some e0 ->
               exists e1, JsMap.get (snd st1) n = Some e1 /\ grown e0 e1 /\
                          (In n (map bone_name bones) ->
                           exists s, frameScale bones parentMap animBones t n s /\
                                     e1 = raise (frameIndexOf t) s e0)).
    { intros n e0 He0.
      destruct (in_dec string_dec n (map bone_name bones)) as [Hin | Hout].
      - destruct (HB n e0 Hin He0) as (s & Hs & Hget).
        exists (raise (frameIndexOf t) s e0). split; [exact Hget|].
        split; [apply raise_bounds|]. intros _. exists s. auto.
      - exists e0. split; [rewrite HA by exact Hout; exact He0|].
        split; [apply grown_refl|]. intros Hin. contradiction. }
    split; [|split].
    + intros n e0 He0. destruct (Hfirst n e0 He0) as (e1 & He1 & Hg & _).
      destruct (HM n e1 He1) as (e & He & Hg').
      exists e. split; [exact He | eapply grown_trans; eassumption].
    + intros t' n e0 s [<- | Ht'] Hn He0 Hs.
      * destruct (Hfirst n e0 He0) as (e1 & He1 & _ & Hraise).
        destruct (Hraise Hn) as (s1 & Hs1 & ->).
        rewrite (frameScale_functional t n s1 s Hs1 Hs) in He1.
        destruct (HM n _ He1) as (e & He & [Hgx Hgy]).
        destruct (raise_bounds (frameIndexOf t) s e0) as (_ & Hbx & Hby).
        exists e. split; [exact He|].
        split; eapply Qle_trans; eassumption.
      * destruct (Hfirst n e0 He0) as (e1 & He1 & _).
        apply (HD t' n e1 s Ht' Hn He1 Hs).
    + intros n e0 He0 Hstable.
      apply HS.
      * destruct (Hfirst n e0 He0) as (e1 & He1 & _ & Hraise).
        destruct (in_dec string_dec n (map bone_name bones)) as [Hin | Hout].
        -- destruct (Hraise Hin) as (s & Hs & ->). rewrite He1. f_equal.
           destruct (Hstable t s (or_introl eq_refl) Hs) as [Hx Hy].
           apply raise_same; assumption.
        -- rewrite HA by exact Hout. exact He0.
      * intros t' s Ht' Hs. apply (Hstable t' s (or_intror Ht') Hs).
Qed.

(** The entries before the frames are sampled: a bone that no scale key
    affects has its setup entry. *)
Lemma initialLoop_spec :
  forall (todo : list Bone) (st : JsMap.t Scale * JsMap.t BoneScale),
    NoDup (map bone_name todo) ->
    cacheSound bones parentMap (fst st) ->
    exists st',
      initialLoop fuel bones parentMap animBones todo st = Some st' /\
      cacheSound bones parentMap (fst st') /\
      (forall n, ~ In n (map bone_name todo) ->
                 JsMap.get (snd st') n = JsMap.get (snd st) n) /\
      (forall b, In b todo ->
                 exists e, JsMap.get (snd st') (bone_name b) = Some e) /\
      (forall b, In b todo ->
                 isAffectedByScaleKey fuel animBones parentMap (bone_name b)
                 = Some false ->
                 exists w, worldScale bones parentMap (bone_name b) w /\
                           JsMap.get (snd st') (bone_name b)
                           = Some {| bx := Qabs.Qabs (sx w);
                                     by_ := Qabs.Qabs (sy w); frame := 0 |}).
Proof.
  induction todo as [|b rest IH]; intros st Hnd Hc; cbn [initialLoop].
  - exists st. split; [reflexivity|]. split; [exact Hc|].
    split; [reflexivity|]. split; intros b [].
  - cbn [map] in Hnd. inversion Hnd as [|? ? Hfresh Hnd']; subst.
    unfold initialStep, isAffectedByScaleKey.
    destruct (isAffectedLoop_total rank Hrank fuel (bone_name b) (Hfuel _))
      as [affected Haff].
    rewrite Haff. cbn [fbind].
    assert (Hst1 : exists st1 e1,
               (if affected
                then Some (fst st,
                           JsMap.set (snd st) (bone_name b)
                                     {| bx := 0; by_ := 0; frame := 0 |})
                else setupStep fuel bones parentMap st b) = Some st1 /\
               cacheSound bones parentMap (fst st1) /\
               snd st1 = JsMap.set (snd st) (bone_name b) e1 /\
               (affected = false ->
                exists w, worldScale bones parentMap (bone_name b) w /\
                          e1 = {| bx := Qabs.Qabs (sx w);
                                  by_ := Qabs.Qabs (sy w); frame := 0 |})).
    { destruct affected.
      - eexists. eexists. split; [reflexivity|]. split; [exact Hc|].
        split; [reflexivity|]. discriminate.
      - unfold setupStep.
        destruct (getSetupScale_total bones parentMap rank Hrank fuel
                                      (bone_name b) (fst st) (Hfuel _))
          as [[w cache1] Hget].
        rewrite Hget. cbn [fbind fst snd].
        destruct (getSetupScale_sound bones parentMap fuel (bone_name b)
                                      (fst st) cache1 w Hc Hget) as [Hw Hc1].
        eexists. eexists. split; [reflexivity|]. split; [exact Hc1|].
        split; [reflexivity|]. intros _. exists w. auto. }
    destruct Hst1 as (st1 & e1 & Hstep & Hc1 & Hscales1 & Hquiet).
    destruct (IH st1 Hnd' Hc1) as (st' & Hloop & Hc' & HA & HE & HQ).
    exists st'. split.
    { destruct affected.
      - injection Hstep as <-. exact Hloop.
      - rewrite Hstep. exact Hloop. }
    split; [exact Hc'|].
    split; [|split].
    + intros n Hn. cbn [map] in Hn.
      rewrite HA by (intros H; apply Hn; right; exact H).
      rewrite Hscales1. apply get_set_other.
      intros Heq. apply Hn. left. exact Heq.
    + intros b' [<- | Hb'].
      * exists e1. rewrite HA by exact Hfresh. rewrite Hscales1.
        apply get_set_same.
      * apply HE, Hb'.
    + intros b' [<- | Hb'] Hb'q.
      * unfold isAffectedByScaleKey in Hb'q. rewrite Haff in Hb'q.
        injection Hb'q as ->. destruct (Hquiet eq_refl) as (w & Hw & ->).
        exists w. split; [exact Hw|]. rewrite HA by exact Hfresh.
        rewrite Hscales1. apply get_set_same.
      * apply HQ; assumption.
Qed.

End Loops.

(** ** The sampled times *)

Lemma addTime_keeps (times : list Q) (u t : Q) :
  In t times -> In t (addTime times u).
Proof.
  unfold addTime. destruct (existsb (Qeq_bool u) times); [auto|].
  intros H. apply in_or_app. left. exact H.
Qed.

Lemma addTime_adds (times : list Q) (u : Q) :
  exists t, In t (addTime times u) /\ (t == u)%Q.
Proof.
  unfold addTime. destruct (existsb (Qeq_bool u) times) eqn:E.
  - apply existsb_exists in E. destruct E as (t & Ht & Heq).
    apply Qeq_bool_iff in Heq. exists t. split; [exact Ht|].
    symmetry. exact Heq.
  - exists u. split; [apply in_or_app; right; left; reflexivity|].
    reflexivity.
Qed.

Lemma addTimes_keep (l : list Q) :
  forall (times : list Q) (t : Q),
    In t times -> In t (fold_left addTime l times).
Proof.
  induction l as [|u l IH]; intros times t H; cbn; [exact H|].
  apply IH, addTime_keeps, H.
Qed.

Lemma addTimes_add (l : list Q) :
  forall (times : list Q) (u : Q),
    In u l -> exists t, In t (fold_left addTime l times) /\ (t == u)%Q.
Proof.
  induction l as [|v l IH]; intros times u Hu; [destruct Hu|].
  cbn. destruct Hu as [-> | Hu].
  - destruct (addTime_adds times u) as (t & Ht & Heq).
    exists t. split; [apply addTimes_keep, Ht | exact Heq].
  - apply IH, Hu.
Qed.

Lemma timelineTimes_keeps (st : Q * list Q)
      (boneTimelines : option (list TimelineEntry)) (t : Q) :
  In t (snd st) -> In t (snd (timelineTimes st boneTimelines)).
Proof.
  unfold timelineTimes. destruct boneTimelines as [scale|]; [|auto].
  destruct (Nat.ltb 0 (List.length scale)); [|auto].
  cbn [snd]. apply addTimes_keep.
Qed.

Lemma timelineTimes_adds (st : Q * list Q) (scale : list TimelineEntry)
      (k : TimelineEntry) :
  In k scale ->
  exists t, In t (snd (timelineTimes st (Some scale))) /\ (t == getTime k)%Q.
Proof.
  intros Hk. unfold timelineTimes.
  destruct scale as [|k0 scale]; [destruct Hk|].
  cbn [List.length Nat.ltb Nat.leb snd].
  apply addTimes_add. apply in_map, Hk.
Qed.

Lemma timelines_keep (l : list (option (list TimelineEntry))) :
  forall (st : Q * list Q) (t : Q),
    In t (snd st) -> In t (snd (fold_left timelineTimes l st)).
Proof.
  induction l as [|x l IH]; intros st t H; cbn; [exact H|].
  apply IH, timelineTimes_keeps, H.
Qed.

Lemma timelines_add (l : list (option (list TimelineEntry))) :
  forall (st : Q * list Q) (scale : list TimelineEntry) (k : TimelineEntry),
    In (Some scale) l -> In k scale ->
    exists t, In t (snd (fold_left timelineTimes l st)) /\ (t == getTime k)%Q.
Proof.
  induction l as [|x l IH]; intros st scale k Hl Hk; [destruct Hl|].
  cbn. destruct Hl as [-> | Hl].
  - destruct (timelineTimes_adds st scale k Hk) as (t & Ht & Heq).
    exists t. split; [apply timelines_keep, Ht | exact Heq].
  - apply (IH _ scale k Hl Hk).
Qed.

Lemma insertTime_in (t u : Q) (l : list Q) :
  In u (insertTime t l) <-> u = t \/ In u l.
Proof.
  induction l as [|v l IH]; cbn; [intuition|].
  destruct (Qlt_bool v t); cbn; rewrite ?IH; intuition.
Qed.

Lemma sortTimes_in (u : Q) (l : list Q) : In u (sortTimes l) <-> In u l.
Proof.
  induction l as [|t l IH]; cbn; [reflexivity|].
  rewrite insertTime_in, IH. intuition.
Qed.

(** The time of every key of every scale timeline is sampled. *)
Lemma sampledTimes_keys (n : string) (scale : list TimelineEntry)
      (k : TimelineEntry) :
  In (n, Some scale) animBones -> In k scale ->
  exists t, In t (sampledTimes animBones) /\ (t == getTime k)%Q.
Proof.
  intros Hn Hk. unfold sampledTimes. cbv zeta.
  destruct (timelines_add (JsMap.values animBones) (0%Q, [0%Q]) scale k)
    as (t & Ht & Heq); [|exact Hk|].
  - unfold JsMap.values. apply in_map_iff. exists (n, Some scale). auto.
  - exists t. split; [|exact Heq].
    apply sortTimes_in. unfold addFrames. apply addTimes_keep, Ht.
Qed.

End AnimationScaleProperties.

Section AnimationScaleTheorem.
Import Types SpineBones SetupScales SpineParser AnimationScales.

Lemma withRoot_keep (boneScales : JsMap.t BoneScale) (n : string)
      (e : BoneScale) :
  JsMap.get boneScales n = Some e -> JsMap.get (withRoot boneScales) n = Some e.
Proof.
  intros Hn. unfold withRoot.
  destruct (JsMap.has boneScales "root") eqn:Hroot; [exact Hn|].
  rewrite get_set_other; [exact Hn|].
  intros <-. unfold JsMap.has in Hroot. rewrite Hn in Hroot. discriminate.
Qed.


End AnimationScaleTheorem.

Section AnimationScaleExamples.
Import Types SpineBones SetupScales AnimationScales BoneSamples AnimationSamples.


End AnimationScaleExamples.
